(* ===================================================================== *)
(* job-hunter: multi-source job search (lib/search.ts, lib/format.ts)    *)
(*                                                                       *)
(* A shallow embedding of the aggregation / normalisation / caching path *)
(* and of the salary formatter, with the properties the specification    *)
(* states about them.                                                    *)
(*                                                                       *)
(* Conventions of the model                                              *)
(*  - a JS string is a [string] whose characters are code units below    *)
(*    256 (Latin-1); [toLowerCase], the [\s] class and the line          *)
(*    terminators of [.] are the restrictions of the JS ones to that     *)
(*    range;                                                             *)
(*  - a JS number that the code only tests and prints (salary bounds,    *)
(*    result caps, epoch milliseconds) is an integer [Z]; [null] and     *)
(*    [undefined] are [None];                                            *)
(*  - [toLocaleString] is the one of the en-US locale, the locale the    *)
(*    specification's salary examples are written in;                    *)
(*  - the bodies of the two board APIs are modelled twice: with the      *)
(*    types their contracts give the records (the adapters and [search], *)
(*    with the calls they make logged), and as they arrive, the URL of   *)
(*    a record possibly missing ([Wire], exceptions written out).        *)
(* ===================================================================== *)

From Stdlib Require Import ZArith Ascii String DecimalString.
From stdpp Require Import gmap strings list fin_maps.

Local Open Scope string_scope.
Local Open Scope list_scope.
Local Open Scope Z_scope.

(* --------------------------------------------------------------------- *)
(* JS truthiness and the [||] operator                                   *)
(* --------------------------------------------------------------------- *)

Definition truthy_str (s : string) : bool :=
  match s with EmptyString => false | String _ _ => true end.

Definition truthy_ostr (o : option string) : bool :=
  match o with Some s => truthy_str s | None => false end.

Definition truthy_num (o : option Z) : bool :=
  match o with Some z => negb (z =? 0) | None => false end.

(** [o || d] for a string-or-null [o] and a string [d]. *)
Definition or_str (o : option string) (d : string) : string :=
  match o with
  | Some s => if truthy_str s then s else d
  | None => d
  end.

(** [o || null] for a string-or-null [o]. *)
Definition or_null (o : option string) : option string :=
  match o with
  | Some s => if truthy_str s then Some s else None
  | None => None
  end.

(** the value of a number the code has just tested to be truthy *)
Definition num_val (o : option Z) : Z := default 0 o.

(* --------------------------------------------------------------------- *)
(* String primitives                                                     *)
(* --------------------------------------------------------------------- *)

Definition code (c : ascii) : N := N_of_ascii c.

(** [String.prototype.toLowerCase] on one code unit below 256:
    A-Z and the Latin-1 capitals U+00C0..U+00DE (except the
    multiplication sign U+00D7) move up by 32. *)
Definition lower_char (c : ascii) : ascii :=
  let n := code c in
  if ((65 <=? n) && (n <=? 90))%N
     || ((192 <=? n) && (n <=? 222) && negb (n =? 215))%N
  then ascii_of_N (n + 32)
  else c.

Fixpoint toLowerCase (s : string) : string :=
  match s with
  | EmptyString => EmptyString
  | String c r => String (lower_char c) (toLowerCase r)
  end.

(** the class [\s] below 256: TAB, LF, VT, FF, CR, space, NBSP *)
Definition is_space (c : ascii) : bool :=
  let n := code c in
  (((9 <=? n) && (n <=? 13)) || (n =? 32) || (n =? 160))%N.

(** the characters [.] does not match: LF and CR *)
Definition is_line_terminator (c : ascii) : bool :=
  let n := code c in ((n =? 10) || (n =? 13))%N.

(** [text.includes(w)] *)
Fixpoint includes (text w : string) : bool :=
  String.prefix w text
  || match text with
     | EmptyString => false
     | String _ r => includes r w
     end.

(** [s.split(/\s+/)]: the pieces between maximal runs of white space.
    A run at the very start or the very end of [s] leaves an empty
    piece there, and the empty string splits into one empty piece. *)
Fixpoint split_go (in_sep : bool) (piece : string) (s : string) : list string :=
  match s with
  | EmptyString => [piece]
  | String c r =>
      if is_space c then
        if in_sep then split_go true "" r
        else piece :: split_go true "" r
      else split_go false (piece +:+ String c "") r
  end.

Definition split_ws (s : string) : list string := split_go false "" s.

Fixpoint has_line_terminator (s : string) : bool :=
  match s with
  | EmptyString => false
  | String c r => is_line_terminator c || has_line_terminator r
  end.

(** [s.replace(/\?.*$/, "")]: cut at the first [?] that is followed,
    up to the end of the input, by no line terminator. *)
Fixpoint strip_query (s : string) : string :=
  match s with
  | EmptyString => EmptyString
  | String c r =>
      if Ascii.eqb c "?" && negb (has_line_terminator r) then EmptyString
      else String c (strip_query r)
  end.

Fixpoint all_slashes (s : string) : bool :=
  match s with
  | EmptyString => true
  | String c r => Ascii.eqb c "/" && all_slashes r
  end.

(** [s.replace(/\/+$/, "")]: drop the slashes the input ends with. *)
Fixpoint strip_slashes (s : string) : string :=
  match s with
  | EmptyString => EmptyString
  | String c r =>
      if Ascii.eqb c "/" && all_slashes r then EmptyString
      else String c (strip_slashes r)
  end.

(** [/remote/i.test(s)] *)
Definition test_remote (s : string) : bool := includes (toLowerCase s) "remote".

(* --------------------------------------------------------------------- *)
(* Number.prototype.toLocaleString (en-US, integers)                     *)
(* --------------------------------------------------------------------- *)

Fixpoint group_thousands (s : string) : string :=
  match s with
  | EmptyString => EmptyString
  | String c r =>
      let n := Z.of_nat (String.length r) in
      String c (if (0 <? n) && (n mod 3 =? 0)
                then "," +:+ group_thousands r
                else group_thousands r)
  end.

Definition decimal (n : N) : string := NilZero.string_of_uint (N.to_uint n).

Definition toLocaleString (z : Z) : string :=
  if z <? 0 then "-" +:+ group_thousands (decimal (Z.to_N (- z)))
  else group_thousands (decimal (Z.to_N z)).

(* --------------------------------------------------------------------- *)
(* lib/format.ts                                                         *)
(* --------------------------------------------------------------------- *)

Record JobResult := {
  title : string;
  company : string;
  location : string;
  isRemote : bool;
  jobUrl : string;
  source : string;
  datePosted : option string;
  salary : option string;
  description : string;
}.

Definition formatSalary (min max : option Z) (interval currency : option string)
  : option string :=
  if negb (truthy_num min) && negb (truthy_num max) then None
  else
    let curr := or_str currency "USD" in
    let per := if truthy_ostr interval then "/" +:+ or_str interval "" else "" in
    if truthy_num min && truthy_num max then
      Some (curr +:+ " " +:+ toLocaleString (num_val min) +:+ "-"
            +:+ toLocaleString (num_val max) +:+ per)
    else if truthy_num min then
      Some (curr +:+ " " +:+ toLocaleString (num_val min) +:+ "+" +:+ per)
    else if truthy_num max then
      Some ("up to " +:+ curr +:+ " " +:+ toLocaleString (num_val max) +:+ per)
    else None.

(* --------------------------------------------------------------------- *)
(* Date.prototype.toISOString                                            *)
(* --------------------------------------------------------------------- *)

Fixpoint zeros (n : nat) : string :=
  match n with O => "" | S k => "0" +:+ zeros k end.

(** the decimal digits of [n], padded with zeros on the left to [width] *)
Definition pad (width : nat) (n : Z) : string :=
  let d := decimal (Z.to_N n) in
  zeros (width - String.length d) +:+ d.

(** year, month and day of the day number [z] counted from 1970-01-01
    (proleptic Gregorian calendar) *)
Definition civil_from_days (z : Z) : Z * Z * Z :=
  let z := z + 719468 in
  let era := z / 146097 in
  let doe := z - era * 146097 in
  let yoe := (doe - doe / 1460 + doe / 36524 - doe / 146096) / 365 in
  let doy := doe - (365 * yoe + yoe / 4 - yoe / 100) in
  let mp := (5 * doy + 2) / 153 in
  let d := doy - (153 * mp + 2) / 5 + 1 in
  let m := if mp <? 10 then mp + 3 else mp - 9 in
  let y := yoe + era * 400 + (if m <=? 2 then 1 else 0) in
  (y, m, d).

Definition iso_year (y : Z) : string :=
  if (0 <=? y) && (y <=? 9999) then pad 4 y
  else if y <? 0 then "-" +:+ pad 6 (- y)
  else "+" +:+ pad 6 y.

(** [new Date(ms).toISOString()]; [None] is the RangeError of a time
    value outside the range of a Date. *)
Definition toISOString (ms : Z) : option string :=
  if 8640000000000000 <? Z.abs ms then None
  else
    let '(y, m, d) := civil_from_days (ms / 86400000) in
    let t := ms mod 86400000 in
    Some (iso_year y +:+ "-" +:+ pad 2 m +:+ "-" +:+ pad 2 d +:+ "T"
          +:+ pad 2 (t / 3600000) +:+ ":" +:+ pad 2 (t / 60000 mod 60) +:+ ":"
          +:+ pad 2 (t / 1000 mod 60) +:+ "." +:+ pad 3 (t mod 1000) +:+ "Z").

(* --------------------------------------------------------------------- *)
(* lib/cache.ts                                                          *)
(* --------------------------------------------------------------------- *)

Module cache.

(** Modelled from the spec: lib/cache.ts is not among the sources; an
    entry is the stored value with the time it was stored at. *)
Record Entry (T : Type) := { value : T; storedAt : Z }.
Arguments value {T} _.
Arguments storedAt {T} _.

(** Modelled from the spec: the time-to-live [prune], which takes no
    argument, judges entries by (the 30 minutes of the cache). *)
Definition DEFAULT_TTL_MS : Z := 30 * 60 * 1000.

Section Store.
Context {T : Type}.

(** Modelled from the spec: an entry is valid iff
    [now - storedAt <= ttlMs]. *)
Definition fresh (ttlMs now : Z) (e : Entry T) : bool :=
  now - storedAt e <=? ttlMs.

(** Modelled from the spec: [get(namespaceKey, paramsKey, ttlMs)]
    answers the stored value when the entry is valid and absent
    otherwise; the store it leaves behind is the second component. *)
Definition get (store : gmap (string * string) (Entry T))
    (namespaceKey paramsKey : string) (ttlMs now : Z)
  : option T * gmap (string * string) (Entry T) :=
  match store !! (namespaceKey, paramsKey) with
  | Some e => if fresh ttlMs now e then (Some (value e), store) else (None, store)
  | None => (None, store)
  end.

(** Modelled from the spec: [set(namespaceKey, paramsKey, value)]
    creates or overwrites the entry of the key. *)
Definition set (store : gmap (string * string) (Entry T))
    (namespaceKey paramsKey : string) (v : T) (now : Z)
  : gmap (string * string) (Entry T) :=
  <[(namespaceKey, paramsKey) := {| value := v; storedAt := now |}]> store.

(** Modelled from the spec: [clear()] removes every entry and
    answers how many there were. *)
Definition clear (store : gmap (string * string) (Entry T))
  : nat * gmap (string * string) (Entry T) :=
  (size store, ∅).

(** Modelled from the spec: [prune()] removes the expired entries
    only and answers how many they were. *)
Definition prune (store : gmap (string * string) (Entry T)) (now : Z)
  : nat * gmap (string * string) (Entry T) :=
  let kept := filter (λ kv, fresh DEFAULT_TTL_MS now kv.2 = true) store in
  ((size store - size kept)%nat, kept).
End Store.

End cache.

(* --------------------------------------------------------------------- *)
(* The records that cross the adapters                                   *)
(* --------------------------------------------------------------------- *)

Module SearchOptions.
Record t := {
  site : option string;
  location : option string;
  remote : option bool;
  results : option Z;
  jobType : option string;
  hoursOld : option Z;
  greenhouseBoards : option (list string);
  leverSites : option (list string);
}.
End SearchOptions.

(** the [JobData] record of ts-jobspy, the fields [searchJobSpy] reads *)
Module JobData.
Record t := {
  site : string;
  jobUrl : string;
  title : string;
  company : option string;
  location : option string;
  datePosted : option string;
  isRemote : option bool;
  description : option string;
  interval : option string;
  minAmount : option Z;
  maxAmount : option Z;
  currency : option string;
}.
End JobData.

(** the argument of [scrapeJobs] *)
Module ScrapeJobsOptions.
Inductive site_name := OneSite (s : string) | Sites (l : list string).
Record t := {
  siteName : site_name;
  searchTerm : string;
  location : option string;
  isRemote : option bool;
  resultsWanted : Z;
  jobType : option string;
  hoursOld : option Z;
  descriptionFormat : string;
  linkedinFetchDescription : bool;
}.
End ScrapeJobsOptions.

(** a job of the Greenhouse board API; [location_name] is
    [j.location?.name] *)
Module Greenhouse.
Record job := {
  title : string;
  location_name : option string;
  absolute_url : string;
  updated_at : option string;
  content : option string;
}.
End Greenhouse.

(** a posting of the Lever postings API; [categories_location] and
    [categories_team] are [p.categories?.location] and
    [p.categories?.team] *)
Module Lever.
Record posting := {
  text : string;
  categories_location : option string;
  categories_team : option string;
  hostedUrl : string;
  applyUrl : string;
  createdAt : option Z;
  description : option string;
  descriptionPlain : option string;
}.
End Lever.

(* --------------------------------------------------------------------- *)
(* The outside world: the scraper and HTTP                               *)
(* --------------------------------------------------------------------- *)

(** a parsed response body: the object [{ jobs: [...] }] of the board
    API (its [jobs] member possibly missing), the bare array of the
    postings API, or [null] *)
Inductive Body :=
  | BoardBody (jobs : option (list Greenhouse.job))
  | PostingsBody (postings : list Lever.posting)
  | NullBody.

(** [json = None]: [res.json()] rejects *)
Record Response := { ok : bool; json : option Body }.

(** what the capabilities answer, as a function of the request; [None]
    is a rejected promise *)
Record World := {
  scrapeJobs : ScrapeJobsOptions.t → option (list JobData.t);
  fetch : string → option Response;
}.

Inductive Call :=
  | Scrape (o : ScrapeJobsOptions.t)
  | Fetch (url : string).

(* --------------------------------------------------------------------- *)
(* Computations: a local [results] array, the log of the calls made to   *)
(* the outside, and exceptions                                           *)
(* --------------------------------------------------------------------- *)

Inductive Outcome (A : Type) :=
  | Returned (a : A)
  | Threw.
Arguments Returned {A} a.
Arguments Threw {A}.

Record Frame := { results : list JobResult; log : list Call }.

Definition Exec (A : Type) : Type := Frame → Outcome A * Frame.

Definition ret {A} (a : A) : Exec A := λ f, (Returned a, f).

Definition throw {A} : Exec A := λ f, (Threw, f).

Definition bind {A B} (m : Exec A) (k : A → Exec B) : Exec B :=
  λ f, match m f with
       | (Returned a, f') => k a f'
       | (Threw, f') => (Threw, f')
       end.

Notation "x <- m ;; k" := (bind m (λ x, k))
  (at level 100, m at next level, right associativity, only parsing).
Notation "m ;; k" := (bind m (λ _, k))
  (at level 100, right associativity, only parsing).

(** [try { body } catch { handler }] *)
Definition try_catch {A} (body handler : Exec A) : Exec A :=
  λ f, match body f with
       | (Returned a, f') => (Returned a, f')
       | (Threw, f') => handler f'
       end.

(** [for (const x of l) body(x)] *)
Fixpoint for_of {A} (l : list A) (body : A → Exec unit) : Exec unit :=
  match l with
  | [] => ret tt
  | x :: r => body x ;; for_of r body
  end.

(** [results.push(j)] *)
Definition push (j : JobResult) : Exec unit :=
  λ f, (Returned tt, {| results := results f ++ [j]; log := log f |}).

Definition get_results : Exec (list JobResult) := λ f, (Returned (results f), f).

(** a call of an async function: its body runs with a [results] array
    of its own *)
Definition call {A} (body : Exec A) : Exec A :=
  λ f, let '(o, f') := body {| results := []; log := log f |} in
       (o, {| results := results f; log := log f' |}).

Definition record_call (c : Call) : Exec unit :=
  λ f, (Returned tt, {| results := results f; log := log f ++ [c] |}).

Definition of_option {A} (o : option A) : Exec A :=
  match o with Some a => ret a | None => throw end.

Definition do_scrape (w : World) (o : ScrapeJobsOptions.t) : Exec (list JobData.t) :=
  record_call (Scrape o) ;; of_option (scrapeJobs w o).

Definition do_fetch (w : World) (url : string) : Exec Response :=
  record_call (Fetch url) ;; of_option (fetch w url).

(* --------------------------------------------------------------------- *)
(* lib/search.ts                                                         *)
(* --------------------------------------------------------------------- *)

Definition CACHE_TTL_MS : Z := 30 * 60 * 1000.

Definition siteMap : gmap string string :=
  {[ "linkedin" := "linkedin"; "indeed" := "indeed" ]}.

Definition jobspy_site_name (opts : SearchOptions.t) : ScrapeJobsOptions.site_name :=
  match SearchOptions.site opts with
  | Some s =>
      if truthy_str s then
        match siteMap !! s with
        | Some v => ScrapeJobsOptions.OneSite v
        | None => ScrapeJobsOptions.Sites ["linkedin"; "indeed"]
        end
      else ScrapeJobsOptions.Sites ["linkedin"; "indeed"]
  | None => ScrapeJobsOptions.Sites ["linkedin"; "indeed"]
  end.

Definition jobspy_params (query : string) (opts : SearchOptions.t)
  : ScrapeJobsOptions.t :=
  {| ScrapeJobsOptions.siteName := jobspy_site_name opts;
     ScrapeJobsOptions.searchTerm := query;
     ScrapeJobsOptions.location := SearchOptions.location opts;
     ScrapeJobsOptions.isRemote := SearchOptions.remote opts;
     ScrapeJobsOptions.resultsWanted :=
       (if truthy_num (SearchOptions.results opts)
        then num_val (SearchOptions.results opts) else 15);
     ScrapeJobsOptions.jobType := SearchOptions.jobType opts;
     ScrapeJobsOptions.hoursOld := SearchOptions.hoursOld opts;
     ScrapeJobsOptions.descriptionFormat := "markdown";
     ScrapeJobsOptions.linkedinFetchDescription := true |}.

Definition jobspy_job (r : JobData.t) : JobResult :=
  {| title := or_str (Some (JobData.title r)) "Untitled";
     company := or_str (JobData.company r) "Unknown";
     location := or_str (JobData.location r) "Unknown";
     isRemote := default false (JobData.isRemote r);
     jobUrl := JobData.jobUrl r;
     source := or_str (Some (JobData.site r)) "jobspy";
     datePosted := or_null (JobData.datePosted r);
     salary := formatSalary (JobData.minAmount r) (JobData.maxAmount r)
                 (JobData.interval r) (JobData.currency r);
     description := or_str (JobData.description r) "" |}.

Definition searchJobSpy (w : World) (query : string) (opts : SearchOptions.t)
  : Exec (list JobResult) :=
  call (scraped <- do_scrape w (jobspy_params query opts) ;;
        ret (map jobspy_job scraped)).

(** [queryLower.split(/\s+/).some((w) => text.includes(w))] *)
Definition some_word_in (queryLower text : string) : bool :=
  existsb (λ w, includes text w) (split_ws queryLower).

Definition greenhouse_url (board : string) : string :=
  "https://boards-api.greenhouse.io/v1/boards/" +:+ board +:+ "/jobs?content=true".

Definition greenhouse_text (j : Greenhouse.job) : string :=
  toLowerCase (Greenhouse.title j +:+ " " +:+ or_str (Greenhouse.location_name j) "").

Definition greenhouse_job (board : string) (j : Greenhouse.job) : JobResult :=
  {| title := Greenhouse.title j;
     company := board;
     location := or_str (Greenhouse.location_name j) "Unknown";
     isRemote := test_remote (or_str (Greenhouse.location_name j) "");
     jobUrl := Greenhouse.absolute_url j;
     source := "greenhouse";
     datePosted := or_null (Greenhouse.updated_at j);
     salary := None;
     description := or_str (Greenhouse.content j) "" |}.

(** [data.jobs || []]: reading a member of [null] throws, an array has
    no member [jobs] *)
Definition jobs_of (data : Body) : Exec (list Greenhouse.job) :=
  match data with
  | BoardBody (Some jobs) => ret jobs
  | BoardBody None => ret []
  | PostingsBody _ => ret []
  | NullBody => throw
  end.

(** [await res.json()] *)
Definition res_json (res : Response) : Exec Body := of_option (json res).

Definition greenhouse_board (w : World) (query board : string) : Exec unit :=
  try_catch
    (res <- do_fetch w (greenhouse_url board) ;;
     if negb (ok res) then ret tt
     else
       data <- res_json res ;;
       all_jobs <- jobs_of data ;;
       let queryLower := toLowerCase query in
       let jobs := filter (λ j, some_word_in queryLower (greenhouse_text j) = true) all_jobs in
       for_of jobs (λ j, push (greenhouse_job board j)))
    (ret tt).

Definition searchGreenhouse (w : World) (query : string) (boards : list string)
  : Exec (list JobResult) :=
  call (for_of boards (greenhouse_board w query) ;; get_results).

Definition lever_url (site : string) : string :=
  "https://api.lever.co/v0/postings/" +:+ site +:+ "?mode=json".

Definition lever_text (p : Lever.posting) : string :=
  toLowerCase (Lever.text p +:+ " " +:+ or_str (Lever.categories_location p) ""
               +:+ " " +:+ or_str (Lever.categories_team p) "").

(** [p.createdAt ? new Date(p.createdAt).toISOString() : null] *)
Definition lever_date (p : Lever.posting) : Exec (option string) :=
  if truthy_num (Lever.createdAt p) then
    d <- of_option (toISOString (num_val (Lever.createdAt p))) ;; ret (Some d)
  else ret None.

Definition lever_job (site : string) (p : Lever.posting) (date : option string)
  : JobResult :=
  let location := or_str (Lever.categories_location p) "Unknown" in
  {| title := Lever.text p;
     company := site;
     location := location;
     isRemote := test_remote location;
     jobUrl := or_str (Some (Lever.hostedUrl p)) (Lever.applyUrl p);
     source := "lever";
     datePosted := date;
     salary := None;
     description :=
       or_str (Lever.descriptionPlain p) (or_str (Lever.description p) "") |}.

(** the receiver of [postings.filter]: only an array has that method *)
Definition postings_of (data : Body) : Exec (list Lever.posting) :=
  match data with
  | PostingsBody ps => ret ps
  | BoardBody _ => throw
  | NullBody => throw
  end.

Definition lever_site (w : World) (query site : string) : Exec unit :=
  try_catch
    (res <- do_fetch w (lever_url site) ;;
     if negb (ok res) then ret tt
     else
       data <- res_json res ;;
       postings <- postings_of data ;;
       let queryLower := toLowerCase query in
       let filtered := filter (λ p, some_word_in queryLower (lever_text p) = true) postings in
       for_of filtered (λ p, date <- lever_date p ;; push (lever_job site p date)))
    (ret tt).

Definition searchLever (w : World) (query : string) (sites : list string)
  : Exec (list JobResult) :=
  call (for_of sites (lever_site w query) ;; get_results).

Definition dedupe_key (url : string) : string :=
  toLowerCase (strip_slashes (strip_query url)).

(** the filter of [dedupe], from a given content of [seen] *)
Fixpoint dedupe_from (seen : gset string) (jobs : list JobResult) : list JobResult :=
  match jobs with
  | [] => []
  | j :: rest =>
      let key := dedupe_key (jobUrl j) in
      if decide (key ∈ seen) then dedupe_from seen rest
      else j :: dedupe_from ({[key]} ∪ seen) rest
  end.

Definition dedupe (jobs : list JobResult) : list JobResult := dedupe_from ∅ jobs.

(** [await Promise.all(promises)]: every task runs; the result is
    rejected when one of them is. In the program the tasks are started
    one after the other and then run interleaved, each up to its next
    [await]; they share nothing but the log of calls. Here they are run
    one after the other. The lists they return are those of every
    interleaving, and so are the calls the log gains and the order of
    the calls of one task among themselves; the order in which the
    calls of different tasks come in the log is the order of the tasks,
    which is not one the program need produce, and no property below
    rests on it. *)
Fixpoint Promise_all {A} (promises : list (Exec A)) : Exec (list A) :=
  match promises with
  | [] => ret []
  | p :: rest =>
      λ f, let '(o, f1) := p f in
           let '(os, f2) := Promise_all rest f1 in
           (match o, os with
            | Returned a, Returned l => Returned (a :: l)
            | _, _ => Threw
            end, f2)
  end.

(** [!opts.site || ["linkedin", "indeed"].includes(opts.site)] *)
Definition jobspy_included (opts : SearchOptions.t) : bool :=
  negb (truthy_ostr (SearchOptions.site opts))
  || match SearchOptions.site opts with
     | Some s => bool_decide (s ∈ ["linkedin"; "indeed"])
     | None => false
     end.

(** [l && l.length > 0] *)
Definition has_items (l : option (list string)) : bool :=
  match l with
  | Some l => (0 <? length l)%nat
  | None => false
  end.

(** the adapter a task belongs to (a label of the model; the code
    pushes bare promises) *)
Inductive Adapter := JobSpy | GreenhouseBoards | LeverSites.

Global Instance Adapter_eq_dec : EqDecision Adapter.
Proof. solve_decision. Defined.

Definition promises (w : World) (query : string) (opts : SearchOptions.t)
  : list (Adapter * Exec (list JobResult)) :=
  (if jobspy_included opts
   then [(JobSpy, try_catch (searchJobSpy w query opts) (ret []))] else [])
  ++ (if has_items (SearchOptions.greenhouseBoards opts)
      then [(GreenhouseBoards,
             searchGreenhouse w query (default [] (SearchOptions.greenhouseBoards opts)))]
      else [])
  ++ (if has_items (SearchOptions.leverSites opts)
      then [(LeverSites,
             searchLever w query (default [] (SearchOptions.leverSites opts)))]
      else []).

Section Search.

(** [JSON.stringify] on the options object *)
Variable JSON_stringify : SearchOptions.t → string.

(** [search(query, opts)] from the cache [store] and the call log
    [calls]; [now_get] and [now_set] are the clock readings of
    [cache.get] and of [cache.set] *)
Definition search (w : World) (now_get now_set : Z) (query : string)
    (opts : SearchOptions.t)
    (store : gmap (string * string) (cache.Entry (list JobResult)))
    (calls : list Call)
  : Outcome (list JobResult)
    * gmap (string * string) (cache.Entry (list JobResult)) * list Call :=
  let cacheParams := JSON_stringify opts in
  let '(cached, store) := cache.get store query cacheParams CACHE_TTL_MS now_get in
  match cached with
  | Some jobs => (Returned jobs, store, calls)
  | None =>
      let '(all, f) :=
        Promise_all (snd <$> promises w query opts)
                    {| results := []; log := calls |} in
      match all with
      | Returned allResults =>
          let deduped := dedupe (concat allResults) in
          (Returned deduped, cache.set store query cacheParams deduped now_set, log f)
      | Threw => (Threw, store, log f)
      end
  end.

End Search.

(* --------------------------------------------------------------------- *)
(* What the specification says, in its own words                         *)
(* --------------------------------------------------------------------- *)

(** the salary shapes of the data model, a bound being present when it
    is not null *)
Definition spec_salary (min max : option Z) (interval currency : string)
  : option string :=
  match min, max with
  | Some a, Some b =>
      Some (currency +:+ " " +:+ toLocaleString a +:+ "-" +:+ toLocaleString b
            +:+ "/" +:+ interval)
  | Some a, None => Some (currency +:+ " " +:+ toLocaleString a +:+ "+/" +:+ interval)
  | None, Some b => Some ("up to " +:+ currency +:+ " " +:+ toLocaleString b +:+ "/" +:+ interval)
  | None, None => None
  end.

(** the white-space-delimited tokens of a query: its maximal runs of
    characters that are not white space *)
Definition tokens (query : string) : list string :=
  filter (λ w, w ≠ "") (split_ws query).

(** the relevance rule: some lower-cased token of the query occurs in
    the lower-cased text of the posting *)
Definition relevant (query text : string) : Prop :=
  ∃ w, w ∈ tokens (toLowerCase query) ∧ includes (toLowerCase text) w = true.

(** a query with white space at one of its ends *)
Definition starts_with_space (s : string) : bool :=
  match s with
  | EmptyString => false
  | String c _ => is_space c
  end.

Fixpoint ends_with_space (s : string) : bool :=
  match s with
  | EmptyString => false
  | String c EmptyString => is_space c
  | String _ r => ends_with_space r
  end.

(** the first entry of each dedup key: an entry stays iff none of the
    entries before it, [earlier], has its key *)
Fixpoint first_of_each_key (earlier : list JobResult) (jobs : list JobResult)
  : list JobResult :=
  match jobs with
  | [] => []
  | j :: rest =>
      if decide (dedupe_key (jobUrl j) ∈ (dedupe_key ∘ jobUrl) <$> earlier)
      then first_of_each_key (earlier ++ [j]) rest
      else j :: first_of_each_key (earlier ++ [j]) rest
  end.

Definition has_key (k : string) (j : JobResult) : Prop := dedupe_key (jobUrl j) = k.

Global Instance has_key_dec k j : Decision (has_key k j).
Proof. unfold has_key. apply _. Defined.

(** the three adapter tags *)
Definition adapter_tags : list string := ["jobspy"; "greenhouse"; "lever"].

(** [options.site] names a source the scraper does not serve *)
Definition names_unserved_site (opts : SearchOptions.t) : Prop :=
  ∃ s, SearchOptions.site opts = Some s ∧ s ≠ "" ∧ s ≠ "linkedin" ∧ s ≠ "indeed".

(* --------------------------------------------------------------------- *)
(* What each source contributes to a search, as a function of the world  *)
(* --------------------------------------------------------------------- *)

(** the scraper's records, none when the scraper rejects *)
Definition scraped (w : World) (query : string) (opts : SearchOptions.t)
  : list JobData.t :=
  default [] (scrapeJobs w (jobspy_params query opts)).

Definition jobspy_results (w : World) (query : string) (opts : SearchOptions.t)
  : list JobResult :=
  map jobspy_job (scraped w query opts).

(** the jobs a board answers with: none when the fetch rejects, the
    status is not a success or the body is not the board object *)
Definition board_jobs (w : World) (board : string) : list Greenhouse.job :=
  match fetch w (greenhouse_url board) with
  | Some {| ok := true; json := Some (BoardBody (Some jobs)) |} => jobs
  | _ => []
  end.

Definition board_results (w : World) (query board : string) : list JobResult :=
  map (greenhouse_job board)
      (filter (λ j, some_word_in (toLowerCase query) (greenhouse_text j) = true)
              (board_jobs w board)).

Definition greenhouse_results (w : World) (query : string) (boards : list string)
  : list JobResult :=
  concat (map (board_results w query) boards).

Definition site_postings (w : World) (site : string) : list Lever.posting :=
  match fetch w (lever_url site) with
  | Some {| ok := true; json := Some (PostingsBody ps) |} => ps
  | _ => []
  end.

(** the date of a posting; [None] when its conversion throws *)
Definition posting_date (p : Lever.posting) : option (option string) :=
  if truthy_num (Lever.createdAt p)
  then Some <$> toISOString (num_val (Lever.createdAt p))
  else Some None.

(** the postings of a site as results, up to the first one whose date
    cannot be converted *)
Fixpoint lever_jobs (site : string) (ps : list Lever.posting) : list JobResult :=
  match ps with
  | [] => []
  | p :: rest =>
      match posting_date p with
      | Some d => lever_job site p d :: lever_jobs site rest
      | None => []
      end
  end.

Definition site_results (w : World) (query site : string) : list JobResult :=
  lever_jobs site
    (filter (λ p, some_word_in (toLowerCase query) (lever_text p) = true)
            (site_postings w site)).

Definition lever_results (w : World) (query : string) (sites : list string)
  : list JobResult :=
  concat (map (site_results w query) sites).

(** the lists of the included adapters, concatenated in source order *)
Definition merged (w : World) (query : string) (opts : SearchOptions.t)
  : list JobResult :=
  (if jobspy_included opts then jobspy_results w query opts else [])
  ++ greenhouse_results w query (default [] (SearchOptions.greenhouseBoards opts))
  ++ lever_results w query (default [] (SearchOptions.leverSites opts)).

(** the calls a search makes when it misses the cache *)
Definition calls_made (query : string) (opts : SearchOptions.t) : list Call :=
  (if jobspy_included opts then [Scrape (jobspy_params query opts)] else [])
  ++ map (Fetch ∘ greenhouse_url) (default [] (SearchOptions.greenhouseBoards opts))
  ++ map (Fetch ∘ lever_url) (default [] (SearchOptions.leverSites opts)).

(** the task of an adapter *)
Definition adapter_task (w : World) (query : string) (opts : SearchOptions.t)
    (a : Adapter) : Exec (list JobResult) :=
  match a with
  | JobSpy => try_catch (searchJobSpy w query opts) (ret [])
  | GreenhouseBoards =>
      searchGreenhouse w query (default [] (SearchOptions.greenhouseBoards opts))
  | LeverSites => searchLever w query (default [] (SearchOptions.leverSites opts))
  end.

(** a fetch that fails: it rejects, its status is not a success, or its
    body cannot be parsed *)
Definition fetch_fails (w : World) (url : string) : Prop :=
  match fetch w url with
  | None => True
  | Some res => ok res = false ∨ json res = None
  end.

(** a result made from the scraper's record [r]: the record's URL, and
    as source the site name the record carries, "jobspy" when it
    carries none *)
Definition scraped_result (r : JobData.t) (j : JobResult) : Prop :=
  j = jobspy_job r
  ∧ jobUrl j = JobData.jobUrl r
  ∧ source j = (if truthy_str (JobData.site r) then JobData.site r else "jobspy").

(** a result made from the job [g] of a Greenhouse board *)
Definition board_result (board : string) (g : Greenhouse.job) (j : JobResult) : Prop :=
  j = greenhouse_job board g
  ∧ jobUrl j = Greenhouse.absolute_url g
  ∧ source j = "greenhouse".

(** a result made from the posting [p] of a Lever site: the hosted URL
    of the posting, its apply URL when the hosted one is empty *)
Definition posting_result (site : string) (p : Lever.posting) (j : JobResult) : Prop :=
  j = lever_job site p (datePosted j)
  ∧ jobUrl j = (if truthy_str (Lever.hostedUrl p) then Lever.hostedUrl p
                else Lever.applyUrl p)
  ∧ source j = "lever".

(** [j] was made by one of the adapters from a record of its source *)
Definition made_from_a_record (j : JobResult) : Prop :=
  (∃ r, scraped_result r j)
  ∨ (∃ board g, board_result board g j)
  ∨ (∃ site p, posting_result site p j).

(** [j] was made from a record the sources answer this search with *)
Definition made_from_an_answer (w : World) (query : string) (opts : SearchOptions.t)
    (j : JobResult) : Prop :=
  (∃ r, r ∈ scraped w query opts ∧ scraped_result r j)
  ∨ (∃ board g, board ∈ default [] (SearchOptions.greenhouseBoards opts)
                ∧ g ∈ board_jobs w board ∧ board_result board g j)
  ∨ (∃ site p, site ∈ default [] (SearchOptions.leverSites opts)
               ∧ p ∈ site_postings w site ∧ posting_result site p j).

(** the cache holds nothing but lists of results the adapters made, as
    it does when [search] is the only one to write to it *)
Definition holds_search_results
    (store : gmap (string * string) (cache.Entry (list JobResult))) : Prop :=
  ∀ key e, store !! key = Some e → Forall made_from_a_record (cache.value e).

(* --------------------------------------------------------------------- *)
(* Sample data                                                           *)
(* --------------------------------------------------------------------- *)

Definition dquote : string := String (ascii_of_nat 34) "".
Definition backslash : string := String (ascii_of_nat 92) "".

Definition hex_digit (n : N) : string :=
  String (ascii_of_N (if (n <? 10)%N then 48 + n else 87 + n)) "".

Definition json_escape (c : ascii) : string :=
  let n := code c in
  if (n =? 34)%N then backslash +:+ dquote
  else if (n =? 92)%N then backslash +:+ backslash
  else if (n =? 8)%N then backslash +:+ "b"
  else if (n =? 9)%N then backslash +:+ "t"
  else if (n =? 10)%N then backslash +:+ "n"
  else if (n =? 12)%N then backslash +:+ "f"
  else if (n =? 13)%N then backslash +:+ "r"
  else if (n <? 32)%N then backslash +:+ "u00" +:+ hex_digit (n / 16) +:+ hex_digit (n mod 16)
  else String c "".

Fixpoint json_escape_all (s : string) : string :=
  match s with
  | EmptyString => EmptyString
  | String c r => json_escape c +:+ json_escape_all r
  end.

Definition json_string (s : string) : string := dquote +:+ json_escape_all s +:+ dquote.

Definition json_number (z : Z) : string :=
  if z <? 0 then "-" +:+ decimal (Z.to_N (- z)) else decimal (Z.to_N z).

Definition json_bool (b : bool) : string := if b then "true" else "false".

Definition json_array (l : list string) : string :=
  "[" +:+ String.concat "," (json_string <$> l) +:+ "]".

Definition json_member {A} (name : string) (print : A → string) (v : option A)
  : list string :=
  match v with
  | Some a => [json_string name +:+ ":" +:+ print a]
  | None => []
  end.

(** [JSON.stringify] on an options object whose members were set in the
    order of the interface; a member that is undefined is left out *)
Definition stringify_options (o : SearchOptions.t) : string :=
  "{" +:+ String.concat ","
            (json_member "site" json_string (SearchOptions.site o)
             ++ json_member "location" json_string (SearchOptions.location o)
             ++ json_member "remote" json_bool (SearchOptions.remote o)
             ++ json_member "results" json_number (SearchOptions.results o)
             ++ json_member "jobType" json_string (SearchOptions.jobType o)
             ++ json_member "hoursOld" json_number (SearchOptions.hoursOld o)
             ++ json_member "greenhouseBoards" json_array (SearchOptions.greenhouseBoards o)
             ++ json_member "leverSites" json_array (SearchOptions.leverSites o))
      +:+ "}".

Module Demo.

Definition engineer_record : JobData.t :=
  {| JobData.site := "linkedin";
     JobData.jobUrl := "https://www.linkedin.com/jobs/view/1001";
     JobData.title := "Software Engineer";
     JobData.company := Some "Globex";
     JobData.location := Some "Austin, TX";
     JobData.datePosted := Some "2024-01-10";
     JobData.isRemote := Some false;
     JobData.description := Some "Build things.";
     JobData.interval := Some "yearly";
     JobData.minAmount := Some 120000;
     JobData.maxAmount := Some 150000;
     JobData.currency := Some "USD" |}.

Definition senior_record : JobData.t :=
  {| JobData.site := "indeed";
     JobData.jobUrl := "https://boards.greenhouse.io/acme/jobs/77?gh_src=indeed";
     JobData.title := "Senior Software Engineer";
     JobData.company := Some "Acme";
     JobData.location := None;
     JobData.datePosted := None;
     JobData.isRemote := None;
     JobData.description := None;
     JobData.interval := None;
     JobData.minAmount := None;
     JobData.maxAmount := None;
     JobData.currency := None |}.

Definition scraped_records : list JobData.t := [engineer_record; senior_record].

Definition backend_engineer : Greenhouse.job :=
  {| Greenhouse.title := "Backend Engineer";
     Greenhouse.location_name := Some "Remote";
     Greenhouse.absolute_url := "https://boards.greenhouse.io/acme/jobs/78";
     Greenhouse.updated_at := Some "2024-01-15T10:30:00Z";
     Greenhouse.content := Some "<p>Services.</p>" |}.

Definition board_jobs : list Greenhouse.job :=
  [ {| Greenhouse.title := "Senior Software Engineer";
       Greenhouse.location_name := Some "San Francisco, CA";
       Greenhouse.absolute_url := "https://boards.greenhouse.io/Acme/jobs/77/";
       Greenhouse.updated_at := Some "2024-01-15T10:30:00Z";
       Greenhouse.content := Some "<p>Platform.</p>" |};
    backend_engineer;
    {| Greenhouse.title := "Account Executive";
       Greenhouse.location_name := None;
       Greenhouse.absolute_url := "https://boards.greenhouse.io/acme/jobs/79";
       Greenhouse.updated_at := None;
       Greenhouse.content := None |} ].

Definition backend_posting : Lever.posting :=
  {| Lever.text := "Backend Engineer";
     Lever.categories_location := Some "Remote";
     Lever.categories_team := Some "Platform";
     Lever.hostedUrl := "https://jobs.lever.co/initech/abc123";
     Lever.applyUrl := "https://jobs.lever.co/initech/abc123/apply";
     Lever.createdAt := Some 1705315200000;
     Lever.description := Some "<p>Services.</p>";
     Lever.descriptionPlain := Some "Services." |}.

(** the scraper answers two records, the board acme three jobs, the
    postings of initech are refused, nothing else is reachable *)
Definition world : World :=
  {| scrapeJobs := λ _, Some scraped_records;
     fetch := λ url,
       if decide (url = greenhouse_url "acme")
       then Some {| ok := true; json := Some (BoardBody (Some board_jobs)) |}
       else if decide (url = lever_url "initech")
       then Some {| ok := false; json := None |}
       else None |}.

(** every source is unreachable *)
Definition offline : World :=
  {| scrapeJobs := λ _, None; fetch := λ _, None |}.

(** one board and one site, each with the one backend posting *)
Definition boards_only : World :=
  {| scrapeJobs := λ _, None;
     fetch := λ url,
       if decide (url = greenhouse_url "acme")
       then Some {| ok := true; json := Some (BoardBody (Some [backend_engineer])) |}
       else if decide (url = lever_url "initech")
       then Some {| ok := true; json := Some (PostingsBody [backend_posting]) |}
       else None |}.

Definition options : SearchOptions.t :=
  {| SearchOptions.site := None;
     SearchOptions.location := None;
     SearchOptions.remote := None;
     SearchOptions.results := Some 2;
     SearchOptions.jobType := None;
     SearchOptions.hoursOld := None;
     SearchOptions.greenhouseBoards := Some ["acme"];
     SearchOptions.leverSites := Some ["initech"] |}.

Definition empty_store : gmap (string * string) (cache.Entry (list JobResult)) := ∅.

End Demo.

(* --------------------------------------------------------------------- *)
(* lib/format.ts, continued                                              *)
(* --------------------------------------------------------------------- *)

(** an integer inside a template literal *)
Definition number_toString (z : Z) : string :=
  if z <? 0 then "-" +:+ decimal (Z.to_N (- z)) else decimal (Z.to_N z).

(** [s.slice(start, stop)] for integers [start] and [stop]: a negative
    index counts from the end, both are clamped to the string *)
Definition slice (s : string) (start stop : Z) : string :=
  let len := Z.of_nat (String.length s) in
  let from := if start <? 0 then Z.max (len + start) 0 else Z.min start len in
  let to := if stop <? 0 then Z.max (len + stop) 0 else Z.min stop len in
  String.substring (Z.to_nat from) (Z.to_nat (to - from)) s.

Definition truncate (text : string) (max : Z) : string :=
  if Z.of_nat (String.length text) <=? max then text
  else slice text 0 (max - 3) +:+ "...".

(** [maxLen] is [None] when the argument is left out *)
Definition formatDescriptionForPrompt (description : string) (maxLen : option Z)
  : string :=
  truncate description (default 3000 maxLen).

(** [timeAgo(dateStr)] at the clock reading [now]; [parsed] is
    [new Date(dateStr).getTime()], [None] for an invalid date (NaN) *)
Definition timeAgo (now : Z) (parsed : option Z) : string :=
  match parsed with
  | None => "NaNd ago"
  | Some posted =>
      let diff := now - posted in
      let mins := diff / 60000 in
      if mins <? 60 then number_toString mins +:+ "m ago"
      else
        let hours := mins / 60 in
        if hours <? 24 then number_toString hours +:+ "h ago"
        else
          let days := hours / 24 in
          number_toString days +:+ "d ago"
  end.

Module JobStatus.
Inductive t := new | researched | tailored | applied | interviewing | offer | rejected.

Global Instance eq_dec : EqDecision t.
Proof. solve_decision. Defined.

(** the string a status is at run time *)
Definition name (s : t) : string :=
  match s with
  | new => "new"
  | researched => "researched"
  | tailored => "tailored"
  | applied => "applied"
  | interviewing => "interviewing"
  | offer => "offer"
  | rejected => "rejected"
  end.

(** the order the formatters list the statuses in *)
Definition order : list t :=
  [new; researched; tailored; applied; interviewing; offer; rejected].
End JobStatus.

Definition STATUS_ICONS (s : JobStatus.t) : string :=
  match s with
  | JobStatus.new => "o"
  | JobStatus.researched => "R"
  | JobStatus.tailored => "T"
  | JobStatus.applied => "A"
  | JobStatus.interviewing => "I"
  | JobStatus.offer => "$"
  | JobStatus.rejected => "x"
  end.

(** [Object.values(statsByStatus).reduce((a, b) => a + b, 0)] *)
Definition stats_total (statsByStatus : gmap string Z) : Z :=
  map_fold (λ _ count total, total + count) 0 statsByStatus.

(** [statsByStatus[s] || 0] *)
Definition stats_count (statsByStatus : gmap string Z) (s : JobStatus.t) : Z :=
  default 0 (statsByStatus !! JobStatus.name s).

Definition stats_line (statsByStatus : gmap string Z) (out : string)
    (s : JobStatus.t) : string :=
  let count := stats_count statsByStatus s in
  if 0 <? count
  then out +:+ "  [" +:+ STATUS_ICONS s +:+ "] " +:+ JobStatus.name s +:+ ": "
           +:+ number_toString count +:+ String (ascii_of_nat 10) ""
  else out.

Definition formatStats (statsByStatus : gmap string Z) : string :=
  let total := stats_total statsByStatus in
  if total =? 0 then "No tracked jobs."
  else
    fold_left (stats_line statsByStatus) JobStatus.order
      ("Pipeline: " +:+ number_toString total +:+ " jobs total"
       +:+ String (ascii_of_nat 10) "").

(* --------------------------------------------------------------------- *)
(* lib/tracker.ts                                                        *)
(* --------------------------------------------------------------------- *)

Module TrackedJob.
Record t := {
  id : string;
  title : string;
  company : string;
  location : string;
  isRemote : bool;
  jobUrl : string;
  source : string;
  datePosted : option string;
  dateFound : string;
  salary : option string;
  description : string;
  status : JobStatus.t;
  researchDone : bool;
  resumeTailored : bool;
  letterDrafted : bool;
}.
End TrackedJob.

(** the flags [updateFlags] is given; [None] is a flag the argument
    does not mention *)
Module Flags.
Record t := {
  researchDone : option bool;
  resumeTailored : option bool;
  letterDrafted : option bool;
}.
End Flags.

(** data/jobs.json: absent, not parseable, or holding a list of jobs *)
Inductive JobsFile :=
  | Missing
  | Unreadable
  | Stored (jobs : list TrackedJob.t).

Module tracker.
Section Tracker.

(** [jobId]: the first eight hexadecimal digits of the MD5 digest of
    the URL *)
Variable jobId : string → string.

(** [load()]: the jobs of the file, none when it is missing or cannot
    be parsed; the directory [ensureDir] creates is not modelled *)
Definition load (file : JobsFile) : list TrackedJob.t :=
  match file with
  | Stored jobs => jobs
  | Missing => []
  | Unreadable => []
  end.

(** [save(jobs)]: the file afterwards *)
Definition save (jobs : list TrackedJob.t) : JobsFile := Stored jobs.

Definition has_id (id : string) (j : TrackedJob.t) : bool :=
  String.eqb (TrackedJob.id j) id.

(** [add(job)] when [new Date().toISOString()] reads [now] *)
Definition add (now : string) (job : JobResult) (file : JobsFile)
  : TrackedJob.t * JobsFile :=
  let jobs := load file in
  let id := jobId (jobUrl job) in
  match find (has_id id) jobs with
  | Some existing => (existing, file)
  | None =>
      let tracked :=
        {| TrackedJob.id := id;
           TrackedJob.title := title job;
           TrackedJob.company := company job;
           TrackedJob.location := location job;
           TrackedJob.isRemote := isRemote job;
           TrackedJob.jobUrl := jobUrl job;
           TrackedJob.source := source job;
           TrackedJob.datePosted := datePosted job;
           TrackedJob.dateFound := now;
           TrackedJob.salary := salary job;
           TrackedJob.description := description job;
           TrackedJob.status := JobStatus.new;
           TrackedJob.researchDone := false;
           TrackedJob.resumeTailored := false;
           TrackedJob.letterDrafted := false |} in
      (tracked, save (jobs ++ [tracked]))
  end.

(** [get(id)]: the first job with that id *)
Definition get (id : string) (file : JobsFile) : option TrackedJob.t :=
  find (has_id id) (load file).

(** the list with [change] applied to the object [find] returns, the
    first that satisfies [test] *)
Fixpoint update_first (test : TrackedJob.t → bool)
    (change : TrackedJob.t → TrackedJob.t) (jobs : list TrackedJob.t)
  : list TrackedJob.t :=
  match jobs with
  | [] => []
  | j :: rest =>
      if test j then change j :: rest
      else j :: update_first test change rest
  end.

Definition set_status (status : JobStatus.t) (j : TrackedJob.t) : TrackedJob.t :=
  {| TrackedJob.id := TrackedJob.id j;
     TrackedJob.title := TrackedJob.title j;
     TrackedJob.company := TrackedJob.company j;
     TrackedJob.location := TrackedJob.location j;
     TrackedJob.isRemote := TrackedJob.isRemote j;
     TrackedJob.jobUrl := TrackedJob.jobUrl j;
     TrackedJob.source := TrackedJob.source j;
     TrackedJob.datePosted := TrackedJob.datePosted j;
     TrackedJob.dateFound := TrackedJob.dateFound j;
     TrackedJob.salary := TrackedJob.salary j;
     TrackedJob.description := TrackedJob.description j;
     TrackedJob.status := status;
     TrackedJob.researchDone := TrackedJob.researchDone j;
     TrackedJob.resumeTailored := TrackedJob.resumeTailored j;
     TrackedJob.letterDrafted := TrackedJob.letterDrafted j |}.

Definition updateStatus (id : string) (status : JobStatus.t) (file : JobsFile)
  : option TrackedJob.t * JobsFile :=
  let jobs := load file in
  match find (has_id id) jobs with
  | None => (None, file)
  | Some job =>
      (Some (set_status status job),
       save (update_first (has_id id) (set_status status) jobs))
  end.

(** [Object.assign(job, flags)] *)
Definition assign_flags (flags : Flags.t) (j : TrackedJob.t) : TrackedJob.t :=
  {| TrackedJob.id := TrackedJob.id j;
     TrackedJob.title := TrackedJob.title j;
     TrackedJob.company := TrackedJob.company j;
     TrackedJob.location := TrackedJob.location j;
     TrackedJob.isRemote := TrackedJob.isRemote j;
     TrackedJob.jobUrl := TrackedJob.jobUrl j;
     TrackedJob.source := TrackedJob.source j;
     TrackedJob.datePosted := TrackedJob.datePosted j;
     TrackedJob.dateFound := TrackedJob.dateFound j;
     TrackedJob.salary := TrackedJob.salary j;
     TrackedJob.description := TrackedJob.description j;
     TrackedJob.status := TrackedJob.status j;
     TrackedJob.researchDone :=
       default (TrackedJob.researchDone j) (Flags.researchDone flags);
     TrackedJob.resumeTailored :=
       default (TrackedJob.resumeTailored j) (Flags.resumeTailored flags);
     TrackedJob.letterDrafted :=
       default (TrackedJob.letterDrafted j) (Flags.letterDrafted flags) |}.

Definition updateFlags (id : string) (flags : Flags.t) (file : JobsFile)
  : option TrackedJob.t * JobsFile :=
  let jobs := load file in
  match find (has_id id) jobs with
  | None => (None, file)
  | Some job =>
      (Some (assign_flags flags job),
       save (update_first (has_id id) (assign_flags flags) jobs))
  end.

(** [remove(id)]: the answer and the file afterwards; the file is
    written only when a job was dropped *)
Definition remove (id : string) (file : JobsFile) : bool * JobsFile :=
  let jobs := load file in
  let before := length jobs in
  let filtered := List.filter (λ j, negb (has_id id j)) jobs in
  if (length filtered =? before)%nat then (false, file)
  else (true, save filtered).

(** [list(status)]; [None] is a call without argument *)
Definition list (status : option JobStatus.t) (file : JobsFile)
  : list TrackedJob.t :=
  let jobs := load file in
  match status with
  | None => jobs
  | Some s => List.filter (λ j, bool_decide (TrackedJob.status j = s)) jobs
  end.

(** the loop of [stats]: [counts[j.status] = (counts[j.status] || 0) + 1] *)
Definition count_job (counts : gmap string Z) (j : TrackedJob.t) : gmap string Z :=
  let key := JobStatus.name (TrackedJob.status j) in
  <[key := default 0 (counts !! key) + 1]> counts.

Definition stats (file : JobsFile) : gmap string Z :=
  fold_left count_job (load file) ∅.

End Tracker.
End tracker.

(* --------------------------------------------------------------------- *)
(* job-hunt.ts: the arguments and the save loop of cmdSearch             *)
(* --------------------------------------------------------------------- *)

(** [args.indexOf(x)]; [None] is -1 *)
Fixpoint indexOf (x : string) (args : list string) : option nat :=
  match args with
  | [] => None
  | a :: rest =>
      if String.eqb a x then Some O
      else match indexOf x rest with
           | Some i => Some (S i)
           | None => None
           end
  end.

(** the array after [args.splice(idx, count)] *)
Definition splice (idx count : nat) (args : list string) : list string :=
  take idx args ++ drop (idx + count) args.

(** [getFlag(name)]: the answer and the arguments left *)
Definition getFlag (name : string) (args : list string) : bool * list string :=
  match indexOf ("--" +:+ name) args with
  | Some idx => (true, splice idx 1 args)
  | None => (false, args)
  end.

(** [getOpt(name)]: the answer and the arguments left *)
Definition getOpt (name : string) (args : list string)
  : option string * list string :=
  match indexOf ("--" +:+ name) args with
  | Some idx =>
      if (idx + 1 <? length args)%nat
      then (args !! (idx + 1)%nat, splice idx 2 args)
      else (None, args)
  | None => (None, args)
  end.

(** the loop of [cmdSearch] under [--save]: the number of jobs counted
    as new and the file it leaves; [now i] is the clock reading while
    the job at index [i] is added *)
Fixpoint save_results (jobId : string → string) (now : nat → string) (i : nat)
    (jobs : list JobResult) (file : JobsFile) : nat * JobsFile :=
  match jobs with
  | [] => (O, file)
  | j :: rest =>
      let id := jobId (jobUrl j) in
      let isNew := negb (bool_decide (is_Some (tracker.get id file))) in
      let file' := (tracker.add jobId (now i) j file).2 in
      let '(added, final) := save_results jobId now (S i) rest file' in
      ((if isNew then S added else added), final)
  end.

Module Sample.

Definition out_of_range_posting : Lever.posting :=
  {| Lever.text := "Principal Engineer";
     Lever.categories_location := None;
     Lever.categories_team := None;
     Lever.hostedUrl := "https://jobs.lever.co/initech/def456";
     Lever.applyUrl := "https://jobs.lever.co/initech/def456/apply";
     Lever.createdAt := Some 9000000000000000;
     Lever.description := None;
     Lever.descriptionPlain := None |}.

(** the site initech answers three postings, the second one with a
    creation time no Date can hold *)
Definition world : World :=
  {| scrapeJobs := λ _, None;
     fetch := λ url,
       if decide (url = lever_url "initech")
       then Some {| ok := true;
                    json := Some (PostingsBody [Demo.backend_posting;
                                                out_of_range_posting;
                                                Demo.backend_posting]) |}
       else None |}.

(** a stand-in for the digest: the URL itself *)
Definition jobId (url : string) : string := url.

Definition found : JobResult := greenhouse_job "acme" Demo.backend_engineer.

Definition tracked_file : JobsFile :=
  (tracker.add jobId "2024-01-16T09:00:00.000Z" found Missing).2.

End Sample.

(* --------------------------------------------------------------------- *)
(* lib/search.ts on the bodies as they arrive                            *)
(* --------------------------------------------------------------------- *)

(** [Greenhouse.job] and [Lever.posting] give the URL of a record the
    type the contracts of the two APIs promise. The adapters read the
    parsed body as untyped JSON and copy the URL without looking at it
    ([jobUrl: j.absolute_url], [jobUrl: p.hostedUrl || p.applyUrl]); a
    record that lacks it passes an adapter unnoticed and reaches
    [dedupe], which calls a method of the URL outside every [try]. The
    records below are the ones above with the URL fields possibly
    missing ([None] is [undefined]), and [Wire] is [search] on them,
    with the exceptions written out and without the log of calls. On
    bodies that keep the contracts it is the [search] above
    ([search_on_contract_bodies]). *)

Module WireJob.
Record t := {
  title : string;
  location_name : option string;
  absolute_url : option string;
  updated_at : option string;
  content : option string;
}.
End WireJob.

Module WirePosting.
Record t := {
  text : string;
  categories_location : option string;
  categories_team : option string;
  hostedUrl : option string;
  applyUrl : option string;
  createdAt : option Z;
  description : option string;
  descriptionPlain : option string;
}.
End WirePosting.

(** an object an adapter pushes onto its [results]: a [JobResult] but
    for [jobUrl], which is whatever the record had *)
Module Pushed.
Record t := {
  title : string;
  company : string;
  location : string;
  isRemote : bool;
  jobUrl : option string;
  source : string;
  datePosted : option string;
  salary : option string;
  description : string;
}.
End Pushed.

Definition pushed (j : JobResult) : Pushed.t :=
  {| Pushed.title := title j;
     Pushed.company := company j;
     Pushed.location := location j;
     Pushed.isRemote := isRemote j;
     Pushed.jobUrl := Some (jobUrl j);
     Pushed.source := source j;
     Pushed.datePosted := datePosted j;
     Pushed.salary := salary j;
     Pushed.description := description j |}.

(** an object whose [jobUrl] is a string is a [JobResult] *)
Definition typed (p : Pushed.t) : option JobResult :=
  match Pushed.jobUrl p with
  | Some url =>
      Some {| title := Pushed.title p;
              company := Pushed.company p;
              location := Pushed.location p;
              isRemote := Pushed.isRemote p;
              jobUrl := url;
              source := Pushed.source p;
              datePosted := Pushed.datePosted p;
              salary := Pushed.salary p;
              description := Pushed.description p |}
  | None => None
  end.

(** [a || b] for two strings that may be missing *)
Definition or_undefined (a b : option string) : option string :=
  match a with
  | Some s => if truthy_str s then Some s else b
  | None => b
  end.

Module Wire.

Inductive Body :=
  | BoardBody (jobs : option (list WireJob.t))
  | PostingsBody (postings : list WirePosting.t)
  | NullBody.

Record Response := { ok : bool; json : option Body }.

Record World := {
  scrapeJobs : ScrapeJobsOptions.t → option (list JobData.t);
  fetch : string → option Response;
}.

(** [searchJobSpy(query, opts)]; the records of the scraper are typed
    by its library *)
Definition searchJobSpy (w : World) (query : string) (opts : SearchOptions.t)
  : Outcome (list Pushed.t) :=
  match scrapeJobs w (jobspy_params query opts) with
  | Some results => Returned (map (λ r, pushed (jobspy_job r)) results)
  | None => Threw
  end.

Definition greenhouse_text (j : WireJob.t) : string :=
  toLowerCase (WireJob.title j +:+ " " +:+ or_str (WireJob.location_name j) "").

Definition greenhouse_job (board : string) (j : WireJob.t) : Pushed.t :=
  {| Pushed.title := WireJob.title j;
     Pushed.company := board;
     Pushed.location := or_str (WireJob.location_name j) "Unknown";
     Pushed.isRemote := test_remote (or_str (WireJob.location_name j) "");
     Pushed.jobUrl := WireJob.absolute_url j;
     Pushed.source := "greenhouse";
     Pushed.datePosted := or_null (WireJob.updated_at j);
     Pushed.salary := None;
     Pushed.description := or_str (WireJob.content j) "" |}.

(** one turn of the loop of [searchGreenhouse], from the [results]
    before it to the [results] after it. A rejected fetch, a rejected
    [res.json()] and the [jobs] of [null] throw inside the [try] before
    anything is pushed; [continue] and [data.jobs || []] push nothing
    either. *)
Definition greenhouse_board (w : World) (query board : string)
    (results : list Pushed.t) : list Pushed.t :=
  match fetch w (greenhouse_url board) with
  | None => results
  | Some res =>
      if negb (ok res) then results
      else
        match json res with
        | None => results
        | Some NullBody => results
        | Some (PostingsBody _) => results
        | Some (BoardBody None) => results
        | Some (BoardBody (Some all_jobs)) =>
            let queryLower := toLowerCase query in
            let jobs :=
              filter (λ j, some_word_in queryLower (greenhouse_text j) = true) all_jobs in
            results ++ map (greenhouse_job board) jobs
        end
  end.

Definition searchGreenhouse (w : World) (query : string) (boards : list string)
  : Outcome (list Pushed.t) :=
  Returned (fold_left (λ results board, greenhouse_board w query board results) boards []).

Definition lever_text (p : WirePosting.t) : string :=
  toLowerCase (WirePosting.text p +:+ " " +:+ or_str (WirePosting.categories_location p) ""
               +:+ " " +:+ or_str (WirePosting.categories_team p) "").

(** [p.createdAt ? new Date(p.createdAt).toISOString() : null]; [None]
    when the conversion throws *)
Definition posting_date (p : WirePosting.t) : option (option string) :=
  if truthy_num (WirePosting.createdAt p)
  then Some <$> toISOString (num_val (WirePosting.createdAt p))
  else Some None.

Definition lever_job (site : string) (p : WirePosting.t) (date : option string)
  : Pushed.t :=
  let location := or_str (WirePosting.categories_location p) "Unknown" in
  {| Pushed.title := WirePosting.text p;
     Pushed.company := site;
     Pushed.location := location;
     Pushed.isRemote := test_remote location;
     Pushed.jobUrl := or_undefined (WirePosting.hostedUrl p) (WirePosting.applyUrl p);
     Pushed.source := "lever";
     Pushed.datePosted := date;
     Pushed.salary := None;
     Pushed.description :=
       or_str (WirePosting.descriptionPlain p) (or_str (WirePosting.description p) "") |}.

(** [for (const p of filtered) results.push(...)]: the loop ends where
    the date of a posting throws, with what was pushed before *)
Fixpoint push_postings (site : string) (filtered : list WirePosting.t)
    (results : list Pushed.t) : list Pushed.t :=
  match filtered with
  | [] => results
  | p :: rest =>
      match posting_date p with
      | Some date => push_postings site rest (results ++ [lever_job site p date])
      | None => results
      end
  end.

(** one turn of the loop of [searchLever]; only an array has the method
    [filter] *)
Definition lever_site (w : World) (query site : string)
    (results : list Pushed.t) : list Pushed.t :=
  match fetch w (lever_url site) with
  | None => results
  | Some res =>
      if negb (ok res) then results
      else
        match json res with
        | None => results
        | Some NullBody => results
        | Some (BoardBody _) => results
        | Some (PostingsBody postings) =>
            let queryLower := toLowerCase query in
            let filtered :=
              filter (λ p, some_word_in queryLower (lever_text p) = true) postings in
            push_postings site filtered results
        end
  end.

Definition searchLever (w : World) (query : string) (sites : list string)
  : Outcome (list Pushed.t) :=
  Returned (fold_left (λ results site, lever_site w query site results) sites []).

(** the filter of [dedupe], from a given content of [seen]:
    [j.jobUrl.replace] throws on an object without [jobUrl], and the
    objects it keeps have one *)
Fixpoint dedupe_from (seen : gset string) (jobs : list Pushed.t)
  : Outcome (list JobResult) :=
  match jobs with
  | [] => Returned []
  | j :: rest =>
      match typed j with
      | None => Threw
      | Some job =>
          let key := dedupe_key (jobUrl job) in
          if decide (key ∈ seen) then dedupe_from seen rest
          else
            match dedupe_from ({[key]} ∪ seen) rest with
            | Returned kept => Returned (job :: kept)
            | Threw => Threw
            end
      end
  end.

Definition dedupe (jobs : list Pushed.t) : Outcome (list JobResult) :=
  dedupe_from ∅ jobs.

(** [p.catch(() => [])] *)
Definition caught {A} (p : Outcome (list A)) : Outcome (list A) :=
  match p with
  | Returned l => Returned l
  | Threw => Returned []
  end.

(** [await Promise.all(promises)] *)
Fixpoint Promise_all {A} (promises : list (Outcome A)) : Outcome (list A) :=
  match promises with
  | [] => Returned []
  | p :: rest =>
      match p, Promise_all rest with
      | Returned a, Returned l => Returned (a :: l)
      | _, _ => Threw
      end
  end.

Definition promises (w : World) (query : string) (opts : SearchOptions.t)
  : list (Outcome (list Pushed.t)) :=
  (if jobspy_included opts then [caught (searchJobSpy w query opts)] else [])
  ++ (if has_items (SearchOptions.greenhouseBoards opts)
      then [searchGreenhouse w query (default [] (SearchOptions.greenhouseBoards opts))]
      else [])
  ++ (if has_items (SearchOptions.leverSites opts)
      then [searchLever w query (default [] (SearchOptions.leverSites opts))]
      else []).

Section Search.

Variable JSON_stringify : SearchOptions.t → string.

(** [search(query, opts)] from the cache [store]: what it returns, or
    that it throws, and the cache it leaves *)
Definition search (w : World) (now_get now_set : Z) (query : string)
    (opts : SearchOptions.t)
    (store : gmap (string * string) (cache.Entry (list JobResult)))
  : Outcome (list JobResult) * gmap (string * string) (cache.Entry (list JobResult)) :=
  let cacheParams := JSON_stringify opts in
  let '(cached, store) := cache.get store query cacheParams CACHE_TTL_MS now_get in
  match cached with
  | Some jobs => (Returned jobs, store)
  | None =>
      match Promise_all (promises w query opts) with
      | Returned allResults =>
          match dedupe (concat allResults) with
          | Returned deduped =>
              (Returned deduped, cache.set store query cacheParams deduped now_set)
          | Threw => (Threw, store)
          end
      | Threw => (Threw, store)
      end
  end.

End Search.

(** what the scraper, a board and a site contribute to a search *)
Definition scraped_results (w : World) (query : string) (opts : SearchOptions.t)
  : list Pushed.t :=
  map (λ r, pushed (jobspy_job r)) (default [] (scrapeJobs w (jobspy_params query opts))).

Definition board_results (w : World) (query board : string) : list Pushed.t :=
  greenhouse_board w query board [].

Definition site_results (w : World) (query site : string) : list Pushed.t :=
  lever_site w query site [].

(** the objects of the included adapters, concatenated in source order *)
Definition merged (w : World) (query : string) (opts : SearchOptions.t)
  : list Pushed.t :=
  (if jobspy_included opts then scraped_results w query opts else [])
  ++ concat (map (board_results w query) (default [] (SearchOptions.greenhouseBoards opts)))
  ++ concat (map (site_results w query) (default [] (SearchOptions.leverSites opts))).

(** a fetch that fails: it rejects, its status is not a success, or its
    body cannot be parsed *)
Definition fetch_fails (w : World) (url : string) : Prop :=
  match fetch w url with
  | None => True
  | Some res => ok res = false ∨ json res = None
  end.

End Wire.

(** the bodies that keep the contracts, as they arrive *)
Definition wire_job (j : Greenhouse.job) : WireJob.t :=
  {| WireJob.title := Greenhouse.title j;
     WireJob.location_name := Greenhouse.location_name j;
     WireJob.absolute_url := Some (Greenhouse.absolute_url j);
     WireJob.updated_at := Greenhouse.updated_at j;
     WireJob.content := Greenhouse.content j |}.

Definition wire_posting (p : Lever.posting) : WirePosting.t :=
  {| WirePosting.text := Lever.text p;
     WirePosting.categories_location := Lever.categories_location p;
     WirePosting.categories_team := Lever.categories_team p;
     WirePosting.hostedUrl := Some (Lever.hostedUrl p);
     WirePosting.applyUrl := Some (Lever.applyUrl p);
     WirePosting.createdAt := Lever.createdAt p;
     WirePosting.description := Lever.description p;
     WirePosting.descriptionPlain := Lever.descriptionPlain p |}.

Definition wire_body (data : Body) : Wire.Body :=
  match data with
  | BoardBody jobs => Wire.BoardBody (map wire_job <$> jobs)
  | PostingsBody postings => Wire.PostingsBody (map wire_posting postings)
  | NullBody => Wire.NullBody
  end.

Definition wire_response (res : Response) : Wire.Response :=
  {| Wire.ok := ok res; Wire.json := wire_body <$> json res |}.

Definition wire_world (w : World) : Wire.World :=
  {| Wire.scrapeJobs := scrapeJobs w;
     Wire.fetch := λ url, wire_response <$> fetch w url |}.

Module Malformed.

(** the job of the board acme, come without its [absolute_url] *)
Definition backend_engineer : WireJob.t :=
  {| WireJob.title := "Backend Engineer";
     WireJob.location_name := Some "Remote";
     WireJob.absolute_url := None;
     WireJob.updated_at := Some "2024-01-15T10:30:00Z";
     WireJob.content := Some "<p>Services.</p>" |}.

(** the scraper answers its two records, the board acme answers, with
    status 200, the one job above, and the postings of initech are
    refused *)
Definition world : Wire.World :=
  {| Wire.scrapeJobs := λ _, Some Demo.scraped_records;
     Wire.fetch := λ url,
       if decide (url = greenhouse_url "acme")
       then Some {| Wire.ok := true;
                    Wire.json := Some (Wire.BoardBody (Some [backend_engineer])) |}
       else if decide (url = lever_url "initech")
       then Some {| Wire.ok := false; Wire.json := None |}
       else None |}.

(** a job of the board acme whose [absolute_url] is the empty string *)
Definition blank_url_job : Greenhouse.job :=
  {| Greenhouse.title := "Backend Engineer";
     Greenhouse.location_name := Some "Remote";
     Greenhouse.absolute_url := "";
     Greenhouse.updated_at := None;
     Greenhouse.content := None |}.

Definition blank_url_world : World :=
  {| scrapeJobs := λ _, None;
     fetch := λ url,
       if decide (url = greenhouse_url "acme")
       then Some {| ok := true; json := Some (BoardBody (Some [blank_url_job])) |}
       else None |}.

End Malformed.

(* ===================================================================== *)
(* Properties                                                            *)
(* ===================================================================== *)

(* --------------------------------------------------------------------- *)
(* Sanity of the primitives                                              *)
(* --------------------------------------------------------------------- *)

Example split_ws_edges : split_ws "  a b " = [""; "a"; "b"; ""].
Proof. reflexivity. Qed.

Example split_ws_empty : split_ws "" = [""].
Proof. reflexivity. Qed.

Example toLocaleString_samples :
  map toLocaleString [0; 7; 999; 1000; -1234567; 100000]
  = ["0"; "7"; "999"; "1,000"; "-1,234,567"; "100,000"].
Proof. reflexivity. Qed.

Example toISOString_samples :
  map toISOString [1705315200000; 951782400000; -1; 8640000000000001; 253402300800000]
  = [Some "2024-01-15T10:40:00.000Z"; Some "2000-02-29T00:00:00.000Z";
     Some "1969-12-31T23:59:59.999Z"; None; Some "+010000-01-01T00:00:00.000Z"].
Proof. vm_compute. reflexivity. Qed.

Example dedupe_key_samples :
  map dedupe_key ["https://Jobs.Example.com/Role/42/?utm_source=feed";
                  "https://jobs.example.com/role/42";
                  "https://jobs.example.com/role/42///"]
  = ["https://jobs.example.com/role/42"; "https://jobs.example.com/role/42";
     "https://jobs.example.com/role/42"].
Proof. reflexivity. Qed.

(* --------------------------------------------------------------------- *)
(* formatSalary                                                          *)
(* --------------------------------------------------------------------- *)

Lemma truthy_num_Some (z : Z) : z ≠ 0 → truthy_num (Some z) = true.
Proof. intros Hz. simpl. by apply negb_true_iff, Z.eqb_neq. Qed.

Lemma truthy_num_nonzero (o : option Z) : o ≠ Some 0 → truthy_num o = bool_decide (is_Some o).
Proof.
  destruct o as [z|]; simpl; [|done].
  intros Hz. apply negb_true_iff, Z.eqb_neq. congruence.
Qed.

Lemma or_str_nonempty (s d : string) : s ≠ "" → or_str (Some s) d = s.
Proof. by destruct s. Qed.

Lemma truthy_ostr_nonempty (s : string) : s ≠ "" → truthy_ostr (Some s) = true.
Proof. by destruct s. Qed.

(** C6, as amended. The three equations of the specification hold, no
    bound present gives null, and for bounds that are not zero, a given
    interval and a given currency, the output has the shape of the data
    model: range, open-ended minimum or "up to" maximum. *)
Theorem formatSalary_shapes :
  formatSalary (Some 120000) (Some 150000) (Some "yearly") (Some "USD")
    = Some "USD 120,000-150,000/yearly"
  ∧ formatSalary None (Some 150000) (Some "yearly") (Some "USD")
    = Some "up to USD 150,000/yearly"
  ∧ formatSalary None None None None = None
  ∧ (∀ interval currency, formatSalary None None interval currency = None)
  ∧ (∀ (min max : option Z) (interval currency : string),
       min ≠ Some 0 → max ≠ Some 0 → interval ≠ "" → currency ≠ "" →
       formatSalary min max (Some interval) (Some currency)
       = spec_salary min max interval currency).
Proof.
  split_and!; try reflexivity.
  intros min max interval currency Hmin Hmax Hi Hc.
  unfold formatSalary.
  rewrite !truthy_num_nonzero, truthy_ostr_nonempty, !or_str_nonempty by done.
  by destruct min as [a|], max as [b|].
Qed.

(** C6, as stated, fails when a bound is zero: with both bounds present
    the data model promises the range shape, and the code prints the
    "up to" shape. *)
Lemma formatSalary_zero_min_breaks_range :
  spec_salary (Some 0) (Some 150000) "yearly" "USD" = Some "USD 0-150,000/yearly"
  ∧ formatSalary (Some 0) (Some 150000) (Some "yearly") (Some "USD")
    = Some "up to USD 150,000/yearly"
  ∧ formatSalary (Some 0) (Some 150000) (Some "yearly") (Some "USD")
    ≠ spec_salary (Some 0) (Some 150000) "yearly" "USD".
Proof. split_and!; [reflexivity | reflexivity | discriminate]. Qed.

Lemma formatSalary_shapes_witness :
  formatSalary (Some 90000) None (Some "yearly") (Some "EUR") = Some "EUR 90,000+/yearly".
Proof.
  destruct formatSalary_shapes as (_ & _ & _ & _ & H).
  rewrite (H (Some 90000) None "yearly" "EUR"); [reflexivity | done..].
Defined.

(** C10. A zero bound counts as absent: two zero bounds give null
    whatever the interval and the currency, and a zero minimum with a
    positive maximum prints the "up to" shape, without the minimum. *)
Theorem formatSalary_zero_is_absent (interval currency : option string) :
  formatSalary (Some 0) (Some 0) interval currency = None
  ∧ ∀ max, 0 < max →
      formatSalary (Some 0) (Some max) interval currency
      = Some ("up to " +:+ or_str currency "USD" +:+ " " +:+ toLocaleString max
              +:+ (if truthy_ostr interval then "/" +:+ or_str interval "" else ""))
      ∧ formatSalary (Some 0) (Some max) interval currency
        = formatSalary None (Some max) interval currency.
Proof.
  split; [reflexivity|].
  intros max Hmax. unfold formatSalary.
  rewrite (truthy_num_Some max) by lia. simpl. done.
Qed.

Lemma formatSalary_zero_is_absent_witness :
  formatSalary (Some 0) (Some 150000) (Some "yearly") (Some "USD")
  = Some "up to USD 150,000/yearly".
Proof.
  destruct (formatSalary_zero_is_absent (Some "yearly") (Some "USD")) as [_ H].
  destruct (H 150000) as [-> _]; [lia | reflexivity].
Defined.

(* --------------------------------------------------------------------- *)
(* dedupe                                                                *)
(* --------------------------------------------------------------------- *)

Definition keys (jobs : list JobResult) : list string :=
  (dedupe_key ∘ jobUrl) <$> jobs.

Lemma keys_cons (j : JobResult) (jobs : list JobResult) :
  keys (j :: jobs) = dedupe_key (jobUrl j) :: keys jobs.
Proof. reflexivity. Qed.

Lemma keys_snoc (j : JobResult) (jobs : list JobResult) :
  keys (jobs ++ [j]) = (keys jobs ++ [dedupe_key (jobUrl j)])%list.
Proof. unfold keys. by rewrite fmap_app. Qed.

Lemma snd_shift {A} (o : option (nat * A)) :
  (snd <$> (prod_map S id <$> o)) = (snd <$> o).
Proof. by destruct o as [[??]|]. Qed.

Lemma dedupe_from_first_of_each_key (jobs earlier : list JobResult) (seen : gset string) :
  (∀ k, k ∈ seen ↔ k ∈ keys earlier) →
  dedupe_from seen jobs = first_of_each_key earlier jobs.
Proof.
  revert earlier seen.
  induction jobs as [|j rest IH]; intros earlier seen Hseen; [done|].
  cbn [dedupe_from first_of_each_key]. fold (keys earlier).
  destruct (decide (dedupe_key (jobUrl j) ∈ seen)) as [Hin|Hout].
  - rewrite decide_True by (by apply Hseen).
    apply IH. intros k. rewrite keys_snoc, elem_of_app, <- Hseen.
    rewrite list_elem_of_singleton. split; [tauto|].
    intros [?|Heq]; [done|by rewrite Heq].
  - rewrite decide_False by (by rewrite <- Hseen).
    f_equal. apply IH. intros k.
    rewrite keys_snoc, elem_of_app, <- Hseen, elem_of_union, elem_of_singleton.
    rewrite list_elem_of_singleton. tauto.
Qed.

Lemma dedupe_from_sublist (jobs : list JobResult) (seen : gset string) :
  sublist (dedupe_from seen jobs) jobs.
Proof.
  revert seen. induction jobs as [|j rest IH]; intros seen; [done|].
  cbn [dedupe_from].
  case_decide; [apply sublist_cons | apply sublist_skip]; apply IH.
Qed.

Lemma dedupe_from_keys (jobs : list JobResult) (seen : gset string) (k : string) :
  k ∈ keys (dedupe_from seen jobs) → (k ∉ seen) ∧ (k ∈ keys jobs).
Proof.
  revert seen. induction jobs as [|j rest IH]; intros seen.
  - by intros ?%elem_of_nil.
  - cbn [dedupe_from]. rewrite keys_cons. case_decide as Hj.
    + intros [? ?]%IH. split; [done|]. by right.
    + rewrite keys_cons, !elem_of_cons. intros [Heq|[Hk ?]%IH].
      * rewrite Heq. auto.
      * split; [|by right]. intros ?. apply Hk. by apply elem_of_union_r.
Qed.

Lemma dedupe_from_NoDup (jobs : list JobResult) (seen : gset string) :
  NoDup (keys (dedupe_from seen jobs)).
Proof.
  revert seen. induction jobs as [|j rest IH]; intros seen.
  - constructor.
  - cbn [dedupe_from]. case_decide as Hj; [apply IH|].
    rewrite keys_cons. constructor; [|apply IH].
    intros [Hk _]%dedupe_from_keys.
    by apply Hk, elem_of_union_l, elem_of_singleton.
Qed.

Lemma dedupe_from_find (jobs : list JobResult) (seen : gset string) (k : string) :
  k ∉ seen →
  (snd <$> list_find (has_key k) (dedupe_from seen jobs))
  = (snd <$> list_find (has_key k) jobs).
Proof.
  revert seen. induction jobs as [|j rest IH]; intros seen Hk; [done|].
  cbn [dedupe_from list_find].
  destruct (decide (dedupe_key (jobUrl j) ∈ seen)) as [Hin|Hout].
  - rewrite decide_False by (unfold has_key; intros Heq; by rewrite Heq in Hin).
    by rewrite snd_shift, IH.
  - cbn [list_find]. destruct (decide (has_key k j)) as [Hkj|Hkj]; [done|].
    rewrite !snd_shift. apply IH. unfold has_key in Hkj.
    intros [?%elem_of_singleton|?]%elem_of_union; congruence.
Qed.

Lemma dedupe_from_count (jobs : list JobResult) (seen : gset string) (k : string) :
  length (filter (has_key k) (dedupe_from seen jobs))
  = if decide (k ∈ seen) then 0%nat
    else if decide (k ∈ keys jobs) then 1%nat else 0%nat.
Proof.
  revert seen. induction jobs as [|j rest IH]; intros seen.
  - cbn [dedupe_from]. destruct (decide (k ∈ seen)); [done|].
    by rewrite decide_False by apply not_elem_of_nil.
  - cbn [dedupe_from]. rewrite keys_cons.
    destruct (decide (dedupe_key (jobUrl j) ∈ seen)) as [Hin|Hout].
    + rewrite IH. destruct (decide (k ∈ seen)) as [|Hk]; [done|].
      assert (dedupe_key (jobUrl j) ≠ k) as Hne by (intros Heq; by rewrite Heq in Hin).
      destruct (decide (k ∈ keys rest)) as [Hr|Hr].
      * by rewrite decide_True by (by right).
      * rewrite decide_False; [done|]. intros [?|?]%elem_of_cons; congruence.
    + rewrite filter_cons. destruct (decide (has_key k j)) as [Hkj|Hkj].
      * cbn [length]. rewrite IH. unfold has_key in Hkj. rewrite <- Hkj.
        rewrite decide_True by (by apply elem_of_union_l, elem_of_singleton).
        rewrite decide_False by done.
        by rewrite decide_True by (by left).
      * rewrite IH. unfold has_key in Hkj.
        destruct (decide (k ∈ seen)) as [Hk|Hk].
        { by rewrite decide_True by (by apply elem_of_union_r). }
        rewrite decide_False.
        2:{ intros [?%elem_of_singleton|?]%elem_of_union; congruence. }
        destruct (decide (k ∈ keys rest)) as [Hr|Hr].
        -- by rewrite decide_True by (by right).
        -- rewrite decide_False; [done|]. intros [?|?]%elem_of_cons; congruence.
Qed.

(** C2. The dedup step keeps, of the entries that share a dedup key, the
    first one in the order of the list and no other: the result is the
    list of the entries that no earlier entry shares its key with, it is
    a subsequence of the input (the relative order is kept), no key
    occurs twice in it, every key of the input occurs in it exactly
    once, and the entry it holds for a key is the first entry of the
    input with that key. *)
Theorem dedupe_keeps_first_of_each_key (jobs : list JobResult) :
  dedupe jobs = first_of_each_key [] jobs
  ∧ sublist (dedupe jobs) jobs
  ∧ NoDup (keys (dedupe jobs))
  ∧ (∀ j, j ∈ jobs →
       length (filter (has_key (dedupe_key (jobUrl j))) (dedupe jobs)) = 1%nat)
  ∧ (∀ k, (snd <$> list_find (has_key k) (dedupe jobs))
          = (snd <$> list_find (has_key k) jobs)).
Proof.
  unfold dedupe. split_and!.
  - apply dedupe_from_first_of_each_key. intros k. simpl.
    split; [by intros ?%not_elem_of_empty | by intros ?%elem_of_nil].
  - apply dedupe_from_sublist.
  - apply dedupe_from_NoDup.
  - intros j Hj. rewrite dedupe_from_count.
    rewrite decide_False by apply not_elem_of_empty.
    rewrite decide_True; [done|].
    apply list_elem_of_fmap. by exists j.
  - intros k. apply dedupe_from_find, not_elem_of_empty.
Qed.

(* --------------------------------------------------------------------- *)
(* The adapters, run                                                     *)
(* --------------------------------------------------------------------- *)

Lemma bind_run {A B} (m : Exec A) (k : A → Exec B) (f f' : Frame) (a : A) :
  m f = (Returned a, f') → bind m k f = k a f'.
Proof. unfold bind. by intros ->. Qed.

Lemma bind_threw {A B} (m : Exec A) (k : A → Exec B) (f f' : Frame) :
  m f = (Threw, f') → bind m k f = (Threw, f').
Proof. unfold bind. by intros ->. Qed.

Lemma for_of_push {A} (g : A → JobResult) (l : list A) (f : Frame) :
  for_of l (λ x, push (g x)) f
  = (Returned tt, {| results := results f ++ map g l; log := log f |}).
Proof.
  revert f. induction l as [|x l IH]; intros [rs lg]; cbn [for_of map].
  - unfold ret. cbn. by rewrite app_nil_r.
  - erewrite bind_run by reflexivity. rewrite IH. cbn.
    by rewrite <- app_assoc.
Qed.

Lemma do_fetch_run (w : World) (url : string) (f : Frame) :
  do_fetch w url f
  = (match fetch w url with Some r => Returned r | None => Threw end,
     {| results := results f; log := log f ++ [Fetch url] |}).
Proof. unfold do_fetch, bind, record_call, of_option. cbn. by destruct (fetch w url). Qed.

Lemma greenhouse_board_run (w : World) (query board : string) (f : Frame) :
  greenhouse_board w query board f
  = (Returned tt,
     {| results := results f ++ board_results w query board;
        log := log f ++ [Fetch (greenhouse_url board)] |}).
Proof.
  unfold greenhouse_board, try_catch, bind, board_results, board_jobs.
  rewrite do_fetch_run.
  destruct (fetch w (greenhouse_url board)) as [[[] [[[jobs|]|ps|]|]]|];
    cbn; rewrite ?for_of_push; cbn; by rewrite ?app_nil_r.
Qed.

Lemma for_of_greenhouse (w : World) (query : string) (boards : list string) (f : Frame) :
  for_of boards (greenhouse_board w query) f
  = (Returned tt,
     {| results := results f ++ greenhouse_results w query boards;
        log := log f ++ map (Fetch ∘ greenhouse_url) boards |}).
Proof.
  revert f. induction boards as [|b boards IH]; intros [rs lg]; cbn [for_of].
  - unfold ret, greenhouse_results. cbn. by rewrite !app_nil_r.
  - erewrite bind_run by apply greenhouse_board_run. rewrite IH.
    unfold greenhouse_results. cbn. by rewrite <- !app_assoc.
Qed.

Lemma searchGreenhouse_run (w : World) (query : string) (boards : list string) (f : Frame) :
  searchGreenhouse w query boards f
  = (Returned (greenhouse_results w query boards),
     {| results := results f;
        log := log f ++ map (Fetch ∘ greenhouse_url) boards |}).
Proof.
  unfold searchGreenhouse, call.
  erewrite bind_run by apply for_of_greenhouse. done.
Qed.

Lemma lever_push_run (site : string) (p : Lever.posting) (f : Frame) :
  (date <- lever_date p ;; push (lever_job site p date)) f
  = match posting_date p with
    | Some d => (Returned tt,
                 {| results := results f ++ [lever_job site p d]; log := log f |})
    | None => (Threw, f)
    end.
Proof.
  unfold lever_date, posting_date, bind, of_option, push, ret, throw.
  destruct (truthy_num (Lever.createdAt p)); [|done].
  by destruct (toISOString (num_val (Lever.createdAt p))).
Qed.

Lemma for_of_lever_push (site : string) (ps : list Lever.posting) (f : Frame) :
  ∃ o, for_of ps (λ p, date <- lever_date p ;; push (lever_job site p date)) f
       = (o, {| results := results f ++ lever_jobs site ps; log := log f |}).
Proof.
  revert f. induction ps as [|p ps IH]; intros [rs lg]; cbn [for_of lever_jobs].
  - exists (Returned tt). unfold ret. cbn. by rewrite app_nil_r.
  - pose proof (lever_push_run site p {| results := rs; log := lg |}) as Hp.
    destruct (posting_date p) as [d|].
    + erewrite bind_run by exact Hp. cbn [results log].
      destruct (IH {| results := rs ++ [lever_job site p d]; log := lg |})
        as [o Ho].
      exists o. rewrite Ho. cbn. by rewrite <- app_assoc.
    + exists Threw. erewrite bind_threw by exact Hp. cbn. by rewrite app_nil_r.
Qed.

Lemma lever_site_run (w : World) (query site : string) (f : Frame) :
  lever_site w query site f
  = (Returned tt,
     {| results := results f ++ site_results w query site;
        log := log f ++ [Fetch (lever_url site)] |}).
Proof.
  unfold lever_site, try_catch, bind at 1, site_results, site_postings.
  rewrite do_fetch_run.
  destruct (fetch w (lever_url site)) as [[[] [[jobs|ps|]|]]|];
    cbn; rewrite ?app_nil_r; try done.
  match goal with
  | |- context [for_of ?l ?body ?f] =>
      destruct (for_of_lever_push site l f) as [o Ho]
  end.
  rewrite Ho. by destruct o as [[]|].
Qed.

Lemma for_of_lever (w : World) (query : string) (sites : list string) (f : Frame) :
  for_of sites (lever_site w query) f
  = (Returned tt,
     {| results := results f ++ lever_results w query sites;
        log := log f ++ map (Fetch ∘ lever_url) sites |}).
Proof.
  revert f. induction sites as [|s sites IH]; intros [rs lg]; cbn [for_of].
  - unfold ret, lever_results. cbn. by rewrite !app_nil_r.
  - erewrite bind_run by apply lever_site_run. rewrite IH.
    unfold lever_results. cbn. by rewrite <- !app_assoc.
Qed.

Lemma searchLever_run (w : World) (query : string) (sites : list string) (f : Frame) :
  searchLever w query sites f
  = (Returned (lever_results w query sites),
     {| results := results f; log := log f ++ map (Fetch ∘ lever_url) sites |}).
Proof.
  unfold searchLever, call.
  erewrite bind_run by apply for_of_lever. done.
Qed.

Lemma searchJobSpy_caught_run (w : World) (query : string) (opts : SearchOptions.t)
    (f : Frame) :
  try_catch (searchJobSpy w query opts) (ret []) f
  = (Returned (jobspy_results w query opts),
     {| results := results f; log := log f ++ [Scrape (jobspy_params query opts)] |}).
Proof.
  unfold try_catch, searchJobSpy, call, do_scrape, bind, record_call, of_option,
    jobspy_results, scraped.
  cbn. by destruct (scrapeJobs w (jobspy_params query opts)).
Qed.

(* --------------------------------------------------------------------- *)
(* search, run                                                           *)
(* --------------------------------------------------------------------- *)

Lemma has_items_false (l : option (list string)) :
  has_items l = false → default [] l = [].
Proof. by destruct l as [[|??]|]. Qed.

Lemma Promise_all_promises (w : World) (query : string) (opts : SearchOptions.t)
    (f : Frame) :
  ∃ lists,
    Promise_all (snd <$> promises w query opts) f
    = (Returned lists,
       {| results := results f; log := log f ++ calls_made query opts |})
    ∧ concat lists = merged w query opts.
Proof.
  destruct f as [rs lg]. unfold promises, merged, calls_made.
  destruct (jobspy_included opts);
    destruct (has_items (SearchOptions.greenhouseBoards opts)) eqn:Hg;
    destruct (has_items (SearchOptions.leverSites opts)) eqn:Hl;
    rewrite ?(has_items_false _ Hg), ?(has_items_false _ Hl);
    cbn [fmap list_fmap app snd Promise_all];
    rewrite ?searchJobSpy_caught_run; cbn [results log];
    rewrite ?searchGreenhouse_run; cbn [results log];
    rewrite ?searchLever_run; cbn [results log ret map];
    (eexists; split;
      [ apply pair_equal_spec; split; [reflexivity|];
        f_equal; rewrite <- ?app_assoc; cbn; by rewrite ?app_nil_r
      | unfold greenhouse_results, lever_results; cbn; by rewrite ?app_nil_r ]).
Qed.

Lemma cache_get_store {T} (store : gmap (string * string) (cache.Entry T))
    (ns params : string) (ttl now : Z) :
  (cache.get store ns params ttl now).2 = store.
Proof.
  unfold cache.get. destruct (store !! (ns, params)) as [e|]; [|done].
  by destruct (cache.fresh ttl now e).
Qed.

Section SearchProperties.

Variable JSON_stringify : SearchOptions.t → string.

Lemma search_hit (w : World) (now_get now_set : Z) (query : string)
    (opts : SearchOptions.t) store (calls : list Call) (jobs : list JobResult) :
  (cache.get store query (JSON_stringify opts) CACHE_TTL_MS now_get).1 = Some jobs →
  search JSON_stringify w now_get now_set query opts store calls
  = (Returned jobs, store, calls).
Proof.
  intros Hget. unfold search.
  pose proof (cache_get_store store query (JSON_stringify opts) CACHE_TTL_MS now_get)
    as Hst.
  destruct (cache.get store query (JSON_stringify opts) CACHE_TTL_MS now_get)
    as [cached store'].
  cbn in Hget, Hst. by subst.
Qed.

Lemma search_miss (w : World) (now_get now_set : Z) (query : string)
    (opts : SearchOptions.t) store (calls : list Call) :
  (cache.get store query (JSON_stringify opts) CACHE_TTL_MS now_get).1 = None →
  search JSON_stringify w now_get now_set query opts store calls
  = (Returned (dedupe (merged w query opts)),
     cache.set store query (JSON_stringify opts) (dedupe (merged w query opts)) now_set,
     (calls ++ calls_made query opts)%list).
Proof.
  intros Hget. unfold search.
  pose proof (cache_get_store store query (JSON_stringify opts) CACHE_TTL_MS now_get)
    as Hst.
  destruct (cache.get store query (JSON_stringify opts) CACHE_TTL_MS now_get)
    as [cached store'].
  cbn in Hget, Hst. subst.
  destruct (Promise_all_promises w query opts {| results := []; log := calls |})
    as (lists & -> & ->).
  done.
Qed.

End SearchProperties.

(* --------------------------------------------------------------------- *)
(* The cache                                                             *)
(* --------------------------------------------------------------------- *)

Lemma cache_get_set {T} (store : gmap (string * string) (cache.Entry T))
    (ns params : string) (v : T) (ttl t0 t1 : Z) :
  (cache.get (cache.set store ns params v t0) ns params ttl t1).1
  = if t1 - t0 <=? ttl then Some v else None.
Proof.
  unfold cache.get, cache.set, cache.fresh. rewrite lookup_insert_eq. cbn.
  by destruct (t1 - t0 <=? ttl).
Qed.

(** C9. Cache round trip: after [set(q, o, v)] at time [t0], a
    [get(q, o, ttl)] at a time [t1] with [t1 - t0 <= ttl] answers [v],
    and one with [t1 - t0 > ttl] answers absent; [get] leaves the store
    as it was, so the expired entry is still in it, and it is [prune]
    (for an entry older than the cache's own time-to-live) and [clear]
    that delete it. *)
Theorem cache_round_trip {T} (store : gmap (string * string) (cache.Entry T))
    (q o : string) (v : T) (ttl t0 t1 : Z) :
  0 < ttl →
  let stored := cache.set store q o v t0 in
  (t1 - t0 ≤ ttl → (cache.get stored q o ttl t1).1 = Some v)
  ∧ (ttl < t1 - t0 →
       (cache.get stored q o ttl t1).1 = None
       ∧ (cache.get stored q o ttl t1).2 !! (q, o)
         = Some {| cache.value := v; cache.storedAt := t0 |})
  ∧ (cache.get stored q o ttl t1).2 = stored
  ∧ (cache.DEFAULT_TTL_MS < t1 - t0 → (cache.prune stored t1).2 !! (q, o) = None)
  ∧ (cache.clear stored).2 !! (q, o) = None.
Proof.
  intros _ stored. split_and!.
  - intros Hle. unfold stored. rewrite cache_get_set.
    by rewrite (proj2 (Z.leb_le _ _)).
  - intros Hlt. unfold stored. rewrite cache_get_set, cache_get_store.
    rewrite (proj2 (Z.leb_gt _ _)) by done.
    split; [done|]. unfold cache.set. by rewrite lookup_insert_eq.
  - apply cache_get_store.
  - intros Hlt. unfold cache.prune. cbn [snd].
    apply map_lookup_filter_None. right. intros e He.
    unfold stored, cache.set in He. rewrite lookup_insert_eq in He.
    injection He as <-. unfold cache.fresh. cbn.
    rewrite (proj2 (Z.leb_gt _ _)) by done. discriminate.
  - unfold cache.clear. cbn [snd]. apply lookup_empty.
Qed.

Lemma cache_round_trip_witness :
  (cache.get (cache.set (∅ : gmap (string * string) (cache.Entry nat))
                        "software engineer" "{}" 7%nat 1000)
             "software engineer" "{}" 1800000 1801000).1 = Some 7%nat.
Proof.
  refine (proj1 (cache_round_trip ∅ "software engineer" "{}" 7%nat
                   1800000 1000 1801000 _) _); lia.
Defined.

(* --------------------------------------------------------------------- *)
(* search: the cache hit                                                 *)
(* --------------------------------------------------------------------- *)

(** C1. When a call of [search] missed the cache, and so stored its
    result, a second call with the same query and options that
    serialize to the same string, made while the entry is within the 30
    minutes of [CACHE_TTL_MS], returns the stored list, leaves the
    cache as it is and adds no call to the log: neither the scraper nor
    an HTTP fetch is invoked, whatever the world would answer. *)
Theorem search_second_call_is_served_from_cache
    (JSON_stringify : SearchOptions.t → string) (w w' : World)
    (now_get now_set now_get' now_set' : Z) (query : string)
    (opts opts' : SearchOptions.t)
    (store : gmap (string * string) (cache.Entry (list JobResult)))
    (calls : list Call) :
  (cache.get store query (JSON_stringify opts) CACHE_TTL_MS now_get).1 = None →
  JSON_stringify opts' = JSON_stringify opts →
  now_get' - now_set ≤ CACHE_TTL_MS →
  ∃ jobs store1 calls1,
    search JSON_stringify w now_get now_set query opts store calls
    = (Returned jobs, store1, calls1)
    ∧ search JSON_stringify w' now_get' now_set' query opts' store1 calls1
      = (Returned jobs, store1, calls1).
Proof.
  intros Hmiss Hsame Hfresh.
  eexists _, _, _. split; [by apply search_miss|].
  apply search_hit. rewrite Hsame, cache_get_set.
  by rewrite (proj2 (Z.leb_le _ _)).
Qed.

Lemma search_second_call_is_served_from_cache_witness :
  ∃ jobs store1 calls1,
    search stringify_options Demo.world 1000 2000 "software engineer"
           Demo.options Demo.empty_store []
    = (Returned jobs, store1, calls1)
    ∧ search stringify_options Demo.offline 1802000 1803000 "software engineer"
             Demo.options store1 calls1
      = (Returned jobs, store1, calls1).
Proof.
  apply search_second_call_is_served_from_cache.
  - reflexivity.
  - reflexivity.
  - vm_compute. discriminate.
Defined.

(* --------------------------------------------------------------------- *)
(* search: the task set                                                  *)
(* --------------------------------------------------------------------- *)

Lemma jobspy_included_iff (opts : SearchOptions.t) :
  jobspy_included opts = true ↔ ¬ names_unserved_site opts.
Proof.
  unfold jobspy_included, names_unserved_site.
  destruct (SearchOptions.site opts) as [s|]; cbn.
  - destruct s as [|c s]; cbn.
    + split; [|done]. intros _ (s & Hs & Hne & _). by injection Hs as <-.
    + rewrite bool_decide_eq_true. split.
      * intros Hin (s' & Hs & _ & Hl & Hi). injection Hs as <-.
        apply elem_of_cons in Hin as [?|Hin]; [done|].
        apply elem_of_cons in Hin as [?|Hin]; [done|].
        by apply elem_of_nil in Hin.
      * intros Hno.
        destruct (decide (String c s = "linkedin")) as [->|Hl]; [by left|].
        destruct (decide (String c s = "indeed")) as [->|Hi]; [by right; left|].
        destruct Hno. by exists (String c s).
  - split; [|done]. by intros _ (s & Hs & _).
Qed.

Lemma has_items_iff (l : option (list string)) :
  has_items l = true ↔ ∃ x xs, l = Some (x :: xs).
Proof.
  destruct l as [[|x xs]|]; cbn; split; try done; try by intros (? & ? & ?).
  intros _. by exists x, xs.
Qed.

(** C5. On a cache miss the tasks of [search] are: the scraper's
    adapter unless [options.site] names a source the scraper does not
    serve (so it is there when [site] is absent, and when it is one of
    the two supported sites), the Greenhouse adapter iff the list of
    boards is not empty, the Lever adapter iff the list of sites is not
    empty; they come in that order, each at most once, and each task is
    the adapter's own search. *)
Theorem search_task_set (w : World) (query : string) (opts : SearchOptions.t) :
  let tasks := fst <$> promises w query opts in
  (JobSpy ∈ tasks ↔ ¬ names_unserved_site opts)
  ∧ (SearchOptions.site opts = None ∨ SearchOptions.site opts = Some "linkedin"
     ∨ SearchOptions.site opts = Some "indeed" → JobSpy ∈ tasks)
  ∧ (GreenhouseBoards ∈ tasks
     ↔ ∃ b bs, SearchOptions.greenhouseBoards opts = Some (b :: bs))
  ∧ (LeverSites ∈ tasks ↔ ∃ s ss, SearchOptions.leverSites opts = Some (s :: ss))
  ∧ sublist tasks [JobSpy; GreenhouseBoards; LeverSites]
  ∧ (snd <$> promises w query opts) = (adapter_task w query opts <$> tasks).
Proof.
  intros tasks.
  assert (tasks
          = (if jobspy_included opts then [JobSpy] else [])
            ++ (if has_items (SearchOptions.greenhouseBoards opts)
                then [GreenhouseBoards] else [])
            ++ (if has_items (SearchOptions.leverSites opts)
                then [LeverSites] else [])) as Htasks.
  { unfold tasks, promises.
    by destruct (jobspy_included opts),
         (has_items (SearchOptions.greenhouseBoards opts)),
         (has_items (SearchOptions.leverSites opts)). }
  assert (JobSpy ∈ tasks ↔ ¬ names_unserved_site opts) as Hjobspy.
  { rewrite <- jobspy_included_iff, Htasks.
    destruct (jobspy_included opts),
      (has_items (SearchOptions.greenhouseBoards opts)),
      (has_items (SearchOptions.leverSites opts)); cbn;
      split; try done; try (intros _; by left);
      intros Hin; repeat (apply elem_of_cons in Hin as [?|Hin]; [done|]);
      by apply elem_of_nil in Hin. }
  split_and!.
  - exact Hjobspy.
  - intros Hsite. apply Hjobspy. intros (s & Hs & Hne & Hl & Hi).
    destruct Hsite as [H|[H|H]]; rewrite H in Hs; by simplify_eq.
  - rewrite <- has_items_iff, Htasks.
    destruct (jobspy_included opts),
      (has_items (SearchOptions.greenhouseBoards opts)),
      (has_items (SearchOptions.leverSites opts)); cbn;
      split; try done; try (intros _; by repeat constructor);
      intros Hin; repeat (apply elem_of_cons in Hin as [?|Hin]; [done|]);
      by apply elem_of_nil in Hin.
  - rewrite <- has_items_iff, Htasks.
    destruct (jobspy_included opts),
      (has_items (SearchOptions.greenhouseBoards opts)),
      (has_items (SearchOptions.leverSites opts)); cbn;
      split; try done; try (intros _; by repeat constructor);
      intros Hin; repeat (apply elem_of_cons in Hin as [?|Hin]; [done|]);
      by apply elem_of_nil in Hin.
  - rewrite Htasks.
    destruct (jobspy_included opts),
      (has_items (SearchOptions.greenhouseBoards opts)),
      (has_items (SearchOptions.leverSites opts)); cbn;
      repeat first [ apply sublist_nil | apply sublist_skip | apply sublist_cons ].
  - unfold tasks, promises.
    by destruct (jobspy_included opts),
         (has_items (SearchOptions.greenhouseBoards opts)),
         (has_items (SearchOptions.leverSites opts)).
Qed.

Lemma search_task_set_witness :
  JobSpy ∈ fst <$> promises Demo.world "software engineer" Demo.options.
Proof.
  apply (search_task_set Demo.world "software engineer" Demo.options).
  by left.
Defined.

(* --------------------------------------------------------------------- *)
(* search: failures of the sources                                       *)
(* --------------------------------------------------------------------- *)

Lemma board_results_fails (w : World) (query board : string) :
  fetch_fails w (greenhouse_url board) → board_results w query board = [].
Proof.
  unfold fetch_fails, board_results, board_jobs.
  destruct (fetch w (greenhouse_url board)) as [[[] [[[jobs|]|ps|]|]]|];
    cbn; try done; by intros [?|?].
Qed.

Lemma site_results_fails (w : World) (query site : string) :
  fetch_fails w (lever_url site) → site_results w query site = [].
Proof.
  unfold fetch_fails, site_results, site_postings.
  destruct (fetch w (lever_url site)) as [[[] [[jobs|ps|]|]]|];
    cbn; try done; by intros [?|?].
Qed.

Lemma greenhouse_results_fail (w : World) (query : string) (boards : list string) :
  (∀ b, b ∈ boards → fetch_fails w (greenhouse_url b)) →
  greenhouse_results w query boards = [].
Proof.
  unfold greenhouse_results. induction boards as [|b boards IH]; intros Hall; [done|].
  cbn. rewrite board_results_fails by (apply Hall; by left).
  apply IH. intros b' Hb'. apply Hall. by right.
Qed.

Lemma lever_results_fail (w : World) (query : string) (sites : list string) :
  (∀ s, s ∈ sites → fetch_fails w (lever_url s)) →
  lever_results w query sites = [].
Proof.
  unfold lever_results. induction sites as [|s sites IH]; intros Hall; [done|].
  cbn. rewrite site_results_fails by (apply Hall; by left).
  apply IH. intros s' Hs'. apply Hall. by right.
Qed.

Lemma jobspy_results_fail (w : World) (query : string) (opts : SearchOptions.t) :
  scrapeJobs w (jobspy_params query opts) = None →
  (if jobspy_included opts then jobspy_results w query opts else []) = [].
Proof.
  intros Hs. unfold jobspy_results, scraped. rewrite Hs.
  by destruct (jobspy_included opts).
Qed.

(* --------------------------------------------------------------------- *)
(* search on the bodies as they arrive                                   *)
(* --------------------------------------------------------------------- *)

Lemma typed_pushed (j : JobResult) : typed (pushed j) = Some j.
Proof. by destruct j. Qed.

Lemma typed_Some (p : Pushed.t) (j : JobResult) : typed p = Some j → p = pushed j.
Proof.
  unfold typed. destruct p as [? ? ? ? [url|] ? ? ? ?]; cbn; [|done].
  by intros [= <-].
Qed.

Lemma typed_None (p : Pushed.t) : typed p = None ↔ Pushed.jobUrl p = None.
Proof. unfold typed. by destruct (Pushed.jobUrl p). Qed.

(** on objects that all have their URL, [dedupe] is the [dedupe] of the
    typed lists *)
Lemma wire_dedupe_from_pushed (jobs : list JobResult) (seen : gset string) :
  Wire.dedupe_from seen (pushed <$> jobs) = Returned (dedupe_from seen jobs).
Proof.
  revert seen. induction jobs as [|j jobs IH]; intros seen; [done|].
  cbn [fmap list_fmap Wire.dedupe_from dedupe_from]. rewrite typed_pushed.
  destruct (decide (dedupe_key (jobUrl j) ∈ seen)); [apply IH|].
  fold (fmap (M := list) pushed jobs). by rewrite IH.
Qed.

(** [dedupe] throws exactly when one of the objects has no URL *)
Lemma wire_dedupe_from_threw (jobs : list Pushed.t) (seen : gset string) :
  Wire.dedupe_from seen jobs = Threw ↔ ∃ p, p ∈ jobs ∧ Pushed.jobUrl p = None.
Proof.
  revert seen. induction jobs as [|j jobs IH]; intros seen; cbn [Wire.dedupe_from].
  - split; [done|]. by intros (p & ?%elem_of_nil & _).
  - destruct (typed j) as [job|] eqn:Hj.
    + assert (Pushed.jobUrl j ≠ None) as Hurl.
      { intros Hnone%typed_None. by rewrite Hnone in Hj. }
      assert ((∃ p, p ∈ j :: jobs ∧ Pushed.jobUrl p = None)
              ↔ ∃ p, p ∈ jobs ∧ Pushed.jobUrl p = None) as ->.
      { split.
        - intros (p & [->|Hp]%elem_of_cons & Hnone); [done|by exists p].
        - intros (p & Hp & Hnone). exists p. split; [by right|done]. }
      destruct (decide (dedupe_key (jobUrl job) ∈ seen)); [apply IH|].
      rewrite <- (IH ({[dedupe_key (jobUrl job)]} ∪ seen)).
      by destruct (Wire.dedupe_from ({[dedupe_key (jobUrl job)]} ∪ seen) jobs).
    + split; [|done]. intros _. exists j. split; [by left|by apply typed_None].
Qed.

Lemma all_pushed (objects : list Pushed.t) :
  (∀ p, p ∈ objects → Pushed.jobUrl p ≠ None) → ∃ jobs, objects = pushed <$> jobs.
Proof.
  induction objects as [|p objects IH]; intros Hall; [by exists []|].
  destruct IH as [jobs ->]; [intros q Hq; apply Hall; by right|].
  destruct (typed p) as [j|] eqn:Hp.
  - exists (j :: jobs). by rewrite (typed_Some p j).
  - apply typed_None in Hp. destruct (Hall p); [by left|done].
Qed.

Lemma wire_greenhouse_board_app (w : Wire.World) (query board : string)
    (results : list Pushed.t) :
  Wire.greenhouse_board w query board results
  = results ++ Wire.board_results w query board.
Proof.
  unfold Wire.board_results, Wire.greenhouse_board.
  destruct (Wire.fetch w (greenhouse_url board)) as [[[] [[[jobs|]|ps|]|]]|];
    cbn; by rewrite ?app_nil_r.
Qed.

Lemma wire_fold_greenhouse (w : Wire.World) (query : string) (boards : list string)
    (results : list Pushed.t) :
  fold_left (λ results board, Wire.greenhouse_board w query board results) boards results
  = results ++ concat (map (Wire.board_results w query) boards).
Proof.
  revert results. induction boards as [|b boards IH]; intros results; cbn.
  - by rewrite app_nil_r.
  - by rewrite IH, wire_greenhouse_board_app, app_assoc.
Qed.

Lemma wire_push_postings_app (site : string) (ps : list WirePosting.t)
    (results : list Pushed.t) :
  Wire.push_postings site ps results = results ++ Wire.push_postings site ps [].
Proof.
  revert results. induction ps as [|p ps IH]; intros results; cbn.
  - by rewrite app_nil_r.
  - destruct (Wire.posting_date p) as [d|]; [|by rewrite app_nil_r].
    by rewrite IH, (IH [_]), app_assoc.
Qed.

Lemma wire_lever_site_app (w : Wire.World) (query site : string)
    (results : list Pushed.t) :
  Wire.lever_site w query site results = results ++ Wire.site_results w query site.
Proof.
  unfold Wire.site_results, Wire.lever_site.
  destruct (Wire.fetch w (lever_url site)) as [[[] [[jobs|ps|]|]]|];
    cbn; rewrite ?app_nil_r; try done.
  apply wire_push_postings_app.
Qed.

Lemma wire_fold_lever (w : Wire.World) (query : string) (sites : list string)
    (results : list Pushed.t) :
  fold_left (λ results site, Wire.lever_site w query site results) sites results
  = results ++ concat (map (Wire.site_results w query) sites).
Proof.
  revert results. induction sites as [|s sites IH]; intros results; cbn.
  - by rewrite app_nil_r.
  - by rewrite IH, wire_lever_site_app, app_assoc.
Qed.

Lemma wire_Promise_all_promises (w : Wire.World) (query : string)
    (opts : SearchOptions.t) :
  ∃ lists,
    Wire.Promise_all (Wire.promises w query opts) = Returned lists
    ∧ concat lists = Wire.merged w query opts.
Proof.
  unfold Wire.promises, Wire.merged, Wire.searchGreenhouse, Wire.searchLever,
    Wire.searchJobSpy, Wire.scraped_results.
  rewrite !wire_fold_greenhouse, !wire_fold_lever.
  destruct (jobspy_included opts);
    destruct (has_items (SearchOptions.greenhouseBoards opts)) eqn:Hg;
    destruct (has_items (SearchOptions.leverSites opts)) eqn:Hl;
    rewrite ?(has_items_false _ Hg), ?(has_items_false _ Hl);
    destruct (Wire.scrapeJobs w (jobspy_params query opts));
    cbn; (eexists; split; [reflexivity|]); cbn; by rewrite ?app_nil_r.
Qed.

Section WireSearchProperties.

Variable JSON_stringify : SearchOptions.t → string.

Lemma wire_search_hit (w : Wire.World) (now_get now_set : Z) (query : string)
    (opts : SearchOptions.t) store (jobs : list JobResult) :
  (cache.get store query (JSON_stringify opts) CACHE_TTL_MS now_get).1 = Some jobs →
  Wire.search JSON_stringify w now_get now_set query opts store = (Returned jobs, store).
Proof.
  intros Hget. unfold Wire.search.
  pose proof (cache_get_store store query (JSON_stringify opts) CACHE_TTL_MS now_get)
    as Hst.
  destruct (cache.get store query (JSON_stringify opts) CACHE_TTL_MS now_get)
    as [cached store'].
  cbn in Hget, Hst. by subst.
Qed.

Lemma wire_search_miss (w : Wire.World) (now_get now_set : Z) (query : string)
    (opts : SearchOptions.t) store :
  (cache.get store query (JSON_stringify opts) CACHE_TTL_MS now_get).1 = None →
  Wire.search JSON_stringify w now_get now_set query opts store
  = match Wire.dedupe (Wire.merged w query opts) with
    | Returned deduped =>
        (Returned deduped, cache.set store query (JSON_stringify opts) deduped now_set)
    | Threw => (Threw, store)
    end.
Proof.
  intros Hget. unfold Wire.search.
  pose proof (cache_get_store store query (JSON_stringify opts) CACHE_TTL_MS now_get)
    as Hst.
  destruct (cache.get store query (JSON_stringify opts) CACHE_TTL_MS now_get)
    as [cached store'].
  cbn in Hget, Hst. subst.
  by destruct (wire_Promise_all_promises w query opts) as (lists & -> & ->).
Qed.

End WireSearchProperties.

Lemma wire_board_results_fails (w : Wire.World) (query board : string) :
  Wire.fetch_fails w (greenhouse_url board) → Wire.board_results w query board = [].
Proof.
  unfold Wire.fetch_fails, Wire.board_results, Wire.greenhouse_board.
  destruct (Wire.fetch w (greenhouse_url board)) as [[[] [[[jobs|]|ps|]|]]|];
    cbn; try done; by intros [?|?].
Qed.

Lemma wire_site_results_fails (w : Wire.World) (query site : string) :
  Wire.fetch_fails w (lever_url site) → Wire.site_results w query site = [].
Proof.
  unfold Wire.fetch_fails, Wire.site_results, Wire.lever_site.
  destruct (Wire.fetch w (lever_url site)) as [[[] [[jobs|ps|]|]]|];
    cbn; try done; by intros [?|?].
Qed.

Lemma concat_map_nil {A B} (f : A → list B) (l : list A) :
  (∀ x, x ∈ l → f x = []) → concat (map f l) = [].
Proof.
  induction l as [|x l IH]; intros Hall; [done|].
  cbn. rewrite Hall by (by left). apply IH. intros y Hy. apply Hall. by right.
Qed.

(* --------------------------------------------------------------------- *)
(* The two searches agree on bodies that keep the contracts              *)
(* --------------------------------------------------------------------- *)

Lemma wire_board_results (w : World) (query board : string) :
  Wire.board_results (wire_world w) query board = pushed <$> board_results w query board.
Proof.
  unfold Wire.board_results, Wire.greenhouse_board, board_results, board_jobs.
  cbn [Wire.fetch wire_world].
  destruct (fetch w (greenhouse_url board)) as [[[] [[[jobs|]|ps|]|]]|]; cbn; try done.
  induction jobs as [|g jobs IH]; [done|].
  cbn [map]. rewrite !filter_cons.
  change (Wire.greenhouse_text (wire_job g)) with (greenhouse_text g).
  destruct (decide (some_word_in (toLowerCase query) (greenhouse_text g) = true));
    cbn; by rewrite ?IH.
Qed.

Lemma wire_push_postings (site : string) (ps : list Lever.posting) :
  Wire.push_postings site (map wire_posting ps) [] = pushed <$> lever_jobs site ps.
Proof.
  induction ps as [|p ps IH]; [done|].
  cbn [map Wire.push_postings lever_jobs].
  change (Wire.posting_date (wire_posting p)) with (posting_date p).
  destruct (posting_date p) as [d|]; [|done].
  rewrite wire_push_postings_app, IH. cbn. f_equal.
  unfold Wire.lever_job, pushed, lever_job, or_undefined, or_str. cbn.
  by destruct (truthy_str (Lever.hostedUrl p)).
Qed.

Lemma wire_site_results (w : World) (query site : string) :
  Wire.site_results (wire_world w) query site = pushed <$> site_results w query site.
Proof.
  unfold Wire.site_results, Wire.lever_site, site_results, site_postings.
  cbn [Wire.fetch wire_world].
  destruct (fetch w (lever_url site)) as [[[] [[jobs|ps|]|]]|]; cbn; try done.
  rewrite <- wire_push_postings. f_equal.
  induction ps as [|p ps IH]; [done|].
  cbn [map]. rewrite !filter_cons.
  change (Wire.lever_text (wire_posting p)) with (lever_text p).
  destruct (decide (some_word_in (toLowerCase query) (lever_text p) = true));
    cbn; by rewrite ?IH.
Qed.

Lemma wire_merged (w : World) (query : string) (opts : SearchOptions.t) :
  Wire.merged (wire_world w) query opts = pushed <$> merged w query opts.
Proof.
  unfold Wire.merged, merged, Wire.scraped_results, jobspy_results, scraped,
    greenhouse_results, lever_results.
  rewrite !fmap_app. f_equal; [|f_equal].
  - destruct (jobspy_included opts); [|done]. cbn [Wire.scrapeJobs wire_world].
    by rewrite <- list_fmap_compose.
  - induction (default [] (SearchOptions.greenhouseBoards opts)) as [|b bs IH]; [done|].
    cbn. by rewrite fmap_app, wire_board_results, IH.
  - induction (default [] (SearchOptions.leverSites opts)) as [|s ss IH]; [done|].
    cbn. by rewrite fmap_app, wire_site_results, IH.
Qed.

(** On bodies that keep the contracts, the search on the bodies as they
    arrive returns the list and leaves the cache of the search on typed
    records. *)
Lemma search_on_contract_bodies (JSON_stringify : SearchOptions.t → string)
    (w : World) (now_get now_set : Z) (query : string) (opts : SearchOptions.t)
    (store : gmap (string * string) (cache.Entry (list JobResult)))
    (calls : list Call) :
  Wire.search JSON_stringify (wire_world w) now_get now_set query opts store
  = ((search JSON_stringify w now_get now_set query opts store calls).1.1,
     (search JSON_stringify w now_get now_set query opts store calls).1.2).
Proof.
  destruct ((cache.get store query (JSON_stringify opts) CACHE_TTL_MS now_get).1)
    as [jobs|] eqn:Hget.
  - by rewrite (wire_search_hit _ _ _ _ _ _ _ jobs), (search_hit _ _ _ _ _ _ _ _ jobs).
  - rewrite wire_search_miss, search_miss by done.
    unfold Wire.dedupe. by rewrite wire_merged, wire_dedupe_from_pushed.
Qed.

(* --------------------------------------------------------------------- *)
(* search: failures of the sources, and a record without its URL         *)
(* --------------------------------------------------------------------- *)

(** C3. A search that misses the cache takes a rejected scrape, and a
    fetch that rejects, has a non-success status or an unreadable body,
    as no results of that source and returns the deduplicated objects
    of the others, the empty list when every source fails; but it does
    throw, and caches nothing, when a source answers a record without
    its URL. With the postings of initech refused and the scraper
    answering two records, the board acme answering one job without
    [absolute_url] makes [search] throw: [dedupe] runs outside every
    [try]. In general a search that misses throws iff an object that
    an adapter pushed lacks its [jobUrl]. *)
Theorem search_throws_on_record_without_url :
  Wire.search stringify_options Malformed.world 1000 2000 "engineer"
              Demo.options ∅ = (Threw, ∅)
  ∧ Wire.fetch_fails Malformed.world (lever_url "initech")
  ∧ ∀ (JSON_stringify : SearchOptions.t → string) (w : Wire.World)
      (now_get now_set : Z) (query : string) (opts : SearchOptions.t)
      (store : gmap (string * string) (cache.Entry (list JobResult))),
      (cache.get store query (JSON_stringify opts) CACHE_TTL_MS now_get).1 = None →
      let boards := default [] (SearchOptions.greenhouseBoards opts) in
      let sites := default [] (SearchOptions.leverSites opts) in
      let after := Wire.search JSON_stringify w now_get now_set query opts store in
      (after = (Threw, store)
       ↔ ∃ p, p ∈ Wire.merged w query opts ∧ Pushed.jobUrl p = None)
      ∧ ((∀ p, p ∈ Wire.merged w query opts → Pushed.jobUrl p ≠ None) →
           ∃ jobs,
             Wire.merged w query opts = pushed <$> jobs
             ∧ after = (Returned (dedupe jobs),
                        cache.set store query (JSON_stringify opts) (dedupe jobs) now_set))
      ∧ (Wire.scrapeJobs w (jobspy_params query opts) = None →
           Wire.scraped_results w query opts = [])
      ∧ (∀ b, Wire.fetch_fails w (greenhouse_url b) → Wire.board_results w query b = [])
      ∧ (∀ s, Wire.fetch_fails w (lever_url s) → Wire.site_results w query s = [])
      ∧ (Wire.scrapeJobs w (jobspy_params query opts) = None →
         (∀ b, b ∈ boards → Wire.fetch_fails w (greenhouse_url b)) →
         (∀ s, s ∈ sites → Wire.fetch_fails w (lever_url s)) →
           after = (Returned [], cache.set store query (JSON_stringify opts) [] now_set)).
Proof.
  split; [reflexivity|]. split; [right; reflexivity|].
  intros JSON_stringify w now_get now_set query opts store Hmiss boards sites after.
  assert (after
          = match Wire.dedupe (Wire.merged w query opts) with
            | Returned deduped =>
                (Returned deduped,
                 cache.set store query (JSON_stringify opts) deduped now_set)
            | Threw => (Threw, store)
            end) as Hafter.
  { unfold after. by apply wire_search_miss. }
  split_and!.
  - rewrite Hafter, <- (wire_dedupe_from_threw _ ∅). unfold Wire.dedupe.
    destruct (Wire.dedupe_from ∅ (Wire.merged w query opts)); [|done].
    split; [by intros [=]|done].
  - intros Hall. destruct (all_pushed _ Hall) as [jobs Hjobs].
    exists jobs. split; [done|].
    rewrite Hafter, Hjobs. unfold Wire.dedupe. by rewrite wire_dedupe_from_pushed.
  - intros Hs. unfold Wire.scraped_results. by rewrite Hs.
  - apply wire_board_results_fails.
  - apply wire_site_results_fails.
  - intros Hs Hb Hl. rewrite Hafter. unfold Wire.merged, Wire.scraped_results.
    fold boards sites. rewrite Hs.
    rewrite (concat_map_nil (Wire.board_results w query) boards)
      by (intros b Hin; by apply wire_board_results_fails, Hb).
    rewrite (concat_map_nil (Wire.site_results w query) sites)
      by (intros s Hin; by apply wire_site_results_fails, Hl).
    by destruct (jobspy_included opts).
Qed.

Example search_offline :
  (search stringify_options Demo.offline 1000 2000 "software engineer"
          Demo.options Demo.empty_store []).1.1 = Returned [].
Proof. reflexivity. Qed.

(** the end-to-end scenario of the specification: two records from one
    adapter, a duplicate and a new job from another; three jobs come
    back, and the repeated call makes no call to the outside *)
Example search_end_to_end :
  ∃ jobs store1 calls1,
    search stringify_options Demo.world 1000 2000 "software engineer"
           Demo.options Demo.empty_store [] = (Returned jobs, store1, calls1)
    ∧ length jobs = 3%nat
    ∧ length calls1 = 3%nat
    ∧ search stringify_options Demo.world 3000 4000 "software engineer"
             Demo.options store1 calls1 = (Returned jobs, store1, calls1).
Proof.
  eexists _, _, _. split; [by apply search_miss|].
  split; [reflexivity|]. split; [reflexivity|].
  apply search_hit. by rewrite cache_get_set.
Qed.

(* --------------------------------------------------------------------- *)
(* search: no cap on the merged list                                     *)
(* --------------------------------------------------------------------- *)

(** C8. The requested number of results is not enforced on the merged
    list: a search asking for two results returns three, and on every
    cache miss the list returned is the deduplicated concatenation of
    the adapters' lists, none of its entries cut off. *)
Theorem search_does_not_cap :
  (∃ w query opts cap jobs,
      SearchOptions.results opts = Some cap
      ∧ (search stringify_options w 1000 2000 query opts ∅ []).1.1 = Returned jobs
      ∧ cap < Z.of_nat (length jobs))
  ∧ (∀ (JSON_stringify : SearchOptions.t → string) (w : World)
       (now_get now_set : Z) (query : string) (opts : SearchOptions.t)
       (store : gmap (string * string) (cache.Entry (list JobResult)))
       (calls : list Call),
       (cache.get store query (JSON_stringify opts) CACHE_TTL_MS now_get).1 = None →
       (search JSON_stringify w now_get now_set query opts store calls).1.1
       = Returned (dedupe (merged w query opts))).
Proof.
  split.
  - exists Demo.world, "software engineer", Demo.options, 2.
    eexists. split; [reflexivity|].
    rewrite search_miss by reflexivity. split; [reflexivity|].
    vm_compute. reflexivity.
  - intros. by rewrite search_miss.
Qed.

Lemma search_does_not_cap_witness :
  (search stringify_options Demo.boards_only 0 0 "engineer" Demo.options ∅ []).1.1
  = Returned (dedupe (merged Demo.boards_only "engineer" Demo.options)).
Proof.
  apply (proj2 search_does_not_cap). reflexivity.
Defined.

(* --------------------------------------------------------------------- *)
(* search: the fields of the results                                     *)
(* --------------------------------------------------------------------- *)

Lemma elem_of_concat_map {A B} (f : A → list B) (l : list A) (y : B) :
  y ∈ concat (map f l) → ∃ x, x ∈ l ∧ y ∈ f x.
Proof.
  induction l as [|x l IH]; cbn.
  - by intros ?%elem_of_nil.
  - intros [Hy|Hy]%elem_of_app.
    + exists x. split; [by left|done].
    + destruct (IH Hy) as (x' & ? & ?). exists x'. split; [by right|done].
Qed.

Lemma elem_of_map {A B} (f : A → B) (l : list A) (y : B) :
  y ∈ map f l → ∃ x, x ∈ l ∧ y = f x.
Proof.
  intros (x & <- & Hx)%list_elem_of_In%in_map_iff.
  exists x. by rewrite list_elem_of_In.
Qed.

Lemma elem_of_lever_jobs (site : string) (ps : list Lever.posting) (j : JobResult) :
  j ∈ lever_jobs site ps → ∃ p d, p ∈ ps ∧ j = lever_job site p d.
Proof.
  induction ps as [|p ps IH]; cbn.
  - by intros ?%elem_of_nil.
  - destruct (posting_date p) as [d|]; [|by intros ?%elem_of_nil].
    intros [->|Hj]%elem_of_cons.
    + exists p, d. split; [by left|done].
    + destruct (IH Hj) as (p' & d' & ? & ?). exists p', d'. split; [by right|done].
Qed.

(** where an entry of the merged list comes from *)
Lemma elem_of_merged (w : World) (query : string) (opts : SearchOptions.t)
    (j : JobResult) :
  j ∈ merged w query opts →
  (∃ r, r ∈ scraped w query opts ∧ j = jobspy_job r)
  ∨ (∃ b g, b ∈ default [] (SearchOptions.greenhouseBoards opts)
            ∧ g ∈ board_jobs w b ∧ j = greenhouse_job b g)
  ∨ (∃ s p d, s ∈ default [] (SearchOptions.leverSites opts)
              ∧ p ∈ site_postings w s ∧ j = lever_job s p d).
Proof.
  unfold merged. intros [Hj|[Hj|Hj]%elem_of_app]%elem_of_app.
  - left. destruct (jobspy_included opts); [|by apply elem_of_nil in Hj].
    by apply elem_of_map in Hj.
  - right; left. apply elem_of_concat_map in Hj as (b & Hb & Hj).
    apply elem_of_map in Hj as (g & Hg & ->).
    apply list_elem_of_filter in Hg as [_ Hg]. by exists b, g.
  - right; right. apply elem_of_concat_map in Hj as (s & Hs & Hj).
    apply elem_of_lever_jobs in Hj as (p & d & Hp & ->).
    apply list_elem_of_filter in Hp as [_ Hp]. by exists s, p, d.
Qed.

Lemma scraped_result_of (r : JobData.t) : scraped_result r (jobspy_job r).
Proof. by split_and!. Qed.

Lemma board_result_of (board : string) (g : Greenhouse.job) :
  board_result board g (greenhouse_job board g).
Proof. by split_and!. Qed.

Lemma posting_result_of (site : string) (p : Lever.posting) (date : option string) :
  posting_result site p (lever_job site p date).
Proof. by split_and!. Qed.

(** an entry of the merged list was made from a record of this search *)
Lemma merged_from_an_answer (w : World) (query : string) (opts : SearchOptions.t)
    (j : JobResult) :
  j ∈ merged w query opts → made_from_an_answer w query opts j.
Proof.
  intros [(r & Hr & ->)|[(b & g & Hb & Hg & ->)|(s & p & d & Hs & Hp & ->)]]%elem_of_merged.
  - left. exists r. split; [done|]. apply scraped_result_of.
  - right; left. exists b, g. split_and!; [done..|]. apply board_result_of.
  - right; right. exists s, p. split_and!; [done..|]. apply posting_result_of.
Qed.

Lemma answer_is_a_record (w : World) (query : string) (opts : SearchOptions.t)
    (j : JobResult) :
  made_from_an_answer w query opts j → made_from_a_record j.
Proof.
  intros [(r & _ & ?)|[(b & g & _ & _ & ?)|(s & p & _ & _ & ?)]].
  - left. by exists r.
  - right; left. by exists b, g.
  - right; right. by exists s, p.
Qed.

(** C7, as amended. Every job a search returns, fresh or from a cache
    that holds only what searches stored, was made by an adapter from
    one upstream record: its URL is the URL of that record, unchanged
    (so non-empty exactly when the record's is), and its source is
    "greenhouse" for a job of a board, "lever" for a posting of a site,
    and for a record of the scraper the site name the record carries,
    "jobspy" when it carries none. On a cache miss the record is one of
    those the sources answered this search with; and the cache the
    search leaves again holds only such lists. *)
Theorem search_result_fields
    (JSON_stringify : SearchOptions.t → string) (w : World)
    (now_get now_set : Z) (query : string) (opts : SearchOptions.t)
    (store : gmap (string * string) (cache.Entry (list JobResult)))
    (calls : list Call) (jobs : list JobResult) :
  holds_search_results store →
  (search JSON_stringify w now_get now_set query opts store calls).1.1 = Returned jobs →
  (∀ j, j ∈ jobs → made_from_a_record j)
  ∧ ((cache.get store query (JSON_stringify opts) CACHE_TTL_MS now_get).1 = None →
       ∀ j, j ∈ jobs → made_from_an_answer w query opts j)
  ∧ holds_search_results
      (search JSON_stringify w now_get now_set query opts store calls).1.2.
Proof.
  intros Hstore Hret.
  destruct ((cache.get store query (JSON_stringify opts) CACHE_TTL_MS now_get).1)
    as [cached|] eqn:Hget.
  - rewrite (search_hit _ _ _ _ _ _ _ _ cached) in Hret |- * by done.
    cbn in Hret. injection Hret as <-.
    split_and!; [|done|done].
    unfold cache.get in Hget.
    destruct (store !! (query, JSON_stringify opts)) as [e|] eqn:He; [|done].
    destruct (cache.fresh CACHE_TTL_MS now_get e); [|done].
    cbn in Hget. injection Hget as <-.
    intros j Hj. by apply (proj1 (Forall_forall _ _) (Hstore _ _ He)).
  - rewrite search_miss in Hret |- * by done.
    cbn in Hret. injection Hret as <-.
    assert (∀ j, j ∈ dedupe (merged w query opts) → made_from_an_answer w query opts j)
      as Hanswer.
    { intros j Hj. apply merged_from_an_answer.
      eapply elem_of_sublist; [done|]. apply dedupe_from_sublist. }
    split_and!.
    + intros j Hj. eapply answer_is_a_record. by apply Hanswer.
    + done.
    + intros key e. cbn [fst snd]. unfold cache.set.
      destruct (decide (key = (query, JSON_stringify opts))) as [->|Hne].
      * rewrite lookup_insert_eq. intros [= <-]. cbn.
        apply Forall_forall. intros j Hj. eapply answer_is_a_record. by apply Hanswer.
      * rewrite lookup_insert_ne by done. apply Hstore.
Qed.

(** C7, as stated, fails: the scraper's record of a LinkedIn job comes
    back from [search] with the source "linkedin", which is none of the
    three adapter tags; and a job that a board answers with an empty
    [absolute_url] comes back with an empty [jobUrl]. *)
Lemma search_result_source_can_be_site_name :
  (∃ jobs j,
     (search stringify_options Demo.world 1000 2000 "software engineer"
             Demo.options Demo.empty_store []).1.1 = Returned jobs
     ∧ j ∈ jobs
     ∧ source j = "linkedin"
     ∧ ¬ (jobUrl j ≠ "" ∧ source j ∈ adapter_tags))
  ∧ (∃ jobs j,
       (search stringify_options Malformed.blank_url_world 1000 2000 "engineer"
               Demo.options Demo.empty_store []).1.1 = Returned jobs
       ∧ j ∈ jobs
       ∧ jobUrl j = "").
Proof.
  split.
  - eexists _, (jobspy_job Demo.engineer_record).
    split; [by rewrite search_miss|].
    split; [vm_compute; by left|].
    split; [reflexivity|].
    intros [_ Hin]. cbn in Hin. unfold adapter_tags in Hin.
    repeat (apply elem_of_cons in Hin as [Hin|Hin]; [discriminate|]).
    by apply elem_of_nil in Hin.
  - eexists _, (greenhouse_job "acme" Malformed.blank_url_job).
    split; [by rewrite search_miss|].
    split; [vm_compute; by left|reflexivity].
Qed.

Lemma search_result_fields_witness :
  made_from_an_answer Demo.world "software engineer" Demo.options
    (jobspy_job Demo.engineer_record).
Proof.
  refine (proj1 (proj2 (search_result_fields stringify_options Demo.world 1000 2000
                          "software engineer" Demo.options Demo.empty_store []
                          (dedupe (merged Demo.world "software engineer" Demo.options))
                          _ _))
                _ (jobspy_job Demo.engineer_record) _).
  - intros key e He. unfold Demo.empty_store in He. by rewrite lookup_empty in He.
  - reflexivity.
  - reflexivity.
  - vm_compute. by left.
Defined.

(* --------------------------------------------------------------------- *)
(* The relevance filter of the two board adapters                        *)
(* --------------------------------------------------------------------- *)

Lemma some_word_in_pieces (queryLower text : string) :
  some_word_in queryLower text = true
  ↔ ∃ w, w ∈ split_ws queryLower ∧ includes text w = true.
Proof.
  unfold some_word_in. rewrite existsb_exists.
  split; intros (w & Hw & Hinc); exists w; by rewrite ?list_elem_of_In in *.
Qed.

Lemma includes_empty (text : string) : includes text "" = true.
Proof. by destruct text. Qed.

(** a blank piece of the split query lets every text through *)
Lemma some_word_in_blank (queryLower text : string) :
  "" ∈ split_ws queryLower → some_word_in queryLower text = true.
Proof.
  intros Hin. apply some_word_in_pieces. exists "". by rewrite includes_empty.
Qed.

(** when the split leaves no blank piece, the filter is the relevance
    rule of the specification *)
Lemma some_word_in_relevant (query text : string) :
  "" ∉ split_ws (toLowerCase query) →
  some_word_in (toLowerCase query) (toLowerCase text) = true ↔ relevant query text.
Proof.
  intros Hblank. rewrite some_word_in_pieces. unfold relevant, tokens.
  split; intros (w & Hw & Hinc); exists w; (split; [|done]).
  - apply list_elem_of_filter. split; [|done]. intros ->. done.
  - by apply list_elem_of_filter in Hw as [_ ?].
Qed.

Lemma ends_with_space_cons (c : ascii) (r : string) :
  ends_with_space (String c r)
  = match r with EmptyString => is_space c | String _ _ => ends_with_space r end.
Proof. by destruct r. Qed.

(** where the split leaves a blank piece *)
Lemma split_go_blank (s : string) :
  (∀ piece, piece ≠ "" →
     "" ∈ split_go false piece s ↔ ends_with_space s = true)
  ∧ ("" ∈ split_go true "" s ↔ s = "" ∨ ends_with_space s = true).
Proof.
  induction s as [|c r [IHpiece IHsep]].
  - split.
    + intros piece Hpiece. cbn. rewrite list_elem_of_singleton.
      split; [congruence|done].
    + cbn. rewrite list_elem_of_singleton. split; [by left|done].
  - split.
    + intros piece Hpiece. rewrite ends_with_space_cons. cbn [split_go].
      destruct (is_space c) eqn:Hc.
      * rewrite elem_of_cons, IHsep.
        destruct r; [split; [done|by right; left]|].
        split; [intros [?|[?|?]]; done|by right; right].
      * rewrite IHpiece by (by destruct piece).
        by destruct r.
    + rewrite ends_with_space_cons. cbn [split_go].
      destruct (is_space c) eqn:Hc.
      * rewrite IHsep.
        destruct r; [split; [by right|by left]|].
        split; [intros [?|?]; [done|by right]|intros [?|?]; [done|by right]].
      * rewrite IHpiece by done.
        destruct r; [split; [done|by intros [?|?]]|].
        split; [by right|by intros [?|?]].
Qed.

Lemma split_ws_blank (s : string) :
  "" ∈ split_ws s
  ↔ s = "" ∨ starts_with_space s = true ∨ ends_with_space s = true.
Proof.
  unfold split_ws. destruct s as [|c r].
  - cbn. rewrite list_elem_of_singleton. split; [by left|done].
  - rewrite ends_with_space_cons. cbn [split_go starts_with_space].
    destruct (is_space c) eqn:Hc.
    + split; [by right; left|]. intros _. by left.
    + rewrite (proj1 (split_go_blank r)) by done.
      destruct r; [split; [done|by intros [?|[?|?]]]|].
      split; [by right; right|by intros [?|[?|?]]].
Qed.

Lemma is_space_lower_char (c : ascii) : is_space (lower_char c) = is_space c.
Proof. by destruct c as [[] [] [] [] [] [] [] []]. Qed.

Lemma starts_with_space_toLowerCase (s : string) :
  starts_with_space (toLowerCase s) = starts_with_space s.
Proof. destruct s; [done|]. apply is_space_lower_char. Qed.

Lemma ends_with_space_toLowerCase (s : string) :
  ends_with_space (toLowerCase s) = ends_with_space s.
Proof.
  induction s as [|c r IH]; [done|].
  cbn [toLowerCase]. rewrite !ends_with_space_cons, is_space_lower_char, IH.
  by destruct r.
Qed.

(** the filter lets every posting through exactly for the queries that
    are empty or have white space at one of their ends; for all others
    it is the relevance rule *)
Lemma some_word_in_cases (query text : string) :
  (query = "" ∨ starts_with_space query = true ∨ ends_with_space query = true →
     some_word_in (toLowerCase query) (toLowerCase text) = true)
  ∧ (query ≠ "" → starts_with_space query = false → ends_with_space query = false →
     some_word_in (toLowerCase query) (toLowerCase text) = true ↔ relevant query text).
Proof.
  split.
  - intros Hq. apply some_word_in_blank, split_ws_blank.
    rewrite starts_with_space_toLowerCase, ends_with_space_toLowerCase.
    destruct Hq as [->|Hq]; [by left|by right].
  - intros Hne Hs He. apply some_word_in_relevant.
    rewrite split_ws_blank, starts_with_space_toLowerCase, ends_with_space_toLowerCase.
    intros [Hq|[Hq|Hq]]; [|congruence..].
    destruct query; [done|discriminate].
Qed.

(** the two examples of the specification, through both adapters *)
Example relevance_examples :
  (searchGreenhouse Demo.boards_only "engineer remote" ["acme"]
     {| results := []; log := [] |}).1
  = Returned [greenhouse_job "acme" Demo.backend_engineer]
  ∧ (searchGreenhouse Demo.boards_only "nurse" ["acme"]
       {| results := []; log := [] |}).1 = Returned []
  ∧ (searchLever Demo.boards_only "engineer remote" ["initech"]
       {| results := []; log := [] |}).1
    = Returned [lever_job "initech" Demo.backend_posting
                  (Some "2024-01-15T10:40:00.000Z")]
  ∧ (searchLever Demo.boards_only "nurse" ["initech"]
       {| results := []; log := [] |}).1 = Returned [].
Proof. split_and!; vm_compute; reflexivity. Qed.

(** C4, at the input where the code departs from it: for the query
    " nurse" the split leaves a blank piece before "nurse", the blank
    piece occurs in every text, and both adapters return the posting
    "Backend Engineer" / "Remote" although no token of the query occurs
    in its text. *)
Theorem relevance_filter_passes_all_on_blank_piece :
  split_ws (toLowerCase " nurse") = [""; "nurse"]
  ∧ tokens (toLowerCase " nurse") = ["nurse"]
  ∧ ¬ relevant " nurse" "Backend Engineer Remote"
  ∧ ¬ relevant " nurse" "Backend Engineer Remote Platform"
  ∧ (searchGreenhouse Demo.boards_only " nurse" ["acme"]
       {| results := []; log := [] |}).1
    = Returned [greenhouse_job "acme" Demo.backend_engineer]
  ∧ (searchLever Demo.boards_only " nurse" ["initech"]
       {| results := []; log := [] |}).1
    = Returned [lever_job "initech" Demo.backend_posting
                  (Some "2024-01-15T10:40:00.000Z")].
Proof.
  split_and!; try (vm_compute; reflexivity).
  - intros (w & Hw & Hinc). vm_compute in Hw.
    apply list_elem_of_singleton in Hw as ->. vm_compute in Hinc. discriminate.
  - intros (w & Hw & Hinc). vm_compute in Hw.
    apply list_elem_of_singleton in Hw as ->. vm_compute in Hinc. discriminate.
Qed.

(* ===================================================================== *)
(* Further properties of lib/search.ts                                   *)
(* ===================================================================== *)

(* --------------------------------------------------------------------- *)
(* The dedup key                                                         *)
(* --------------------------------------------------------------------- *)

Lemma lower_char_idem (c : ascii) : lower_char (lower_char c) = lower_char c.
Proof. by destruct c as [[] [] [] [] [] [] [] []]. Qed.

Lemma lower_char_question (c : ascii) :
  Ascii.eqb (lower_char c) "?" = Ascii.eqb c "?".
Proof. by destruct c as [[] [] [] [] [] [] [] []]. Qed.

Lemma lower_char_slash (c : ascii) :
  Ascii.eqb (lower_char c) "/" = Ascii.eqb c "/".
Proof. by destruct c as [[] [] [] [] [] [] [] []]. Qed.

Lemma lower_char_line_terminator (c : ascii) :
  is_line_terminator (lower_char c) = is_line_terminator c.
Proof. by destruct c as [[] [] [] [] [] [] [] []]. Qed.

Lemma toLowerCase_idem (s : string) : toLowerCase (toLowerCase s) = toLowerCase s.
Proof. induction s as [|c r IH]; [done|]. cbn. by rewrite lower_char_idem, IH. Qed.

Lemma has_line_terminator_lower (s : string) :
  has_line_terminator (toLowerCase s) = has_line_terminator s.
Proof.
  induction s as [|c r IH]; [done|]. cbn.
  by rewrite lower_char_line_terminator, IH.
Qed.

Lemma all_slashes_lower (s : string) : all_slashes (toLowerCase s) = all_slashes s.
Proof. induction s as [|c r IH]; [done|]. cbn. by rewrite lower_char_slash, IH. Qed.

Lemma strip_query_lower (s : string) :
  strip_query (toLowerCase s) = toLowerCase (strip_query s).
Proof.
  induction s as [|c r IH]; [done|]. cbn.
  rewrite lower_char_question, has_line_terminator_lower.
  destruct (Ascii.eqb c "?" && negb (has_line_terminator r)); [done|].
  cbn. by rewrite IH.
Qed.

Lemma strip_slashes_lower (s : string) :
  strip_slashes (toLowerCase s) = toLowerCase (strip_slashes s).
Proof.
  induction s as [|c r IH]; [done|]. cbn.
  rewrite lower_char_slash, all_slashes_lower.
  destruct (Ascii.eqb c "/" && all_slashes r); [done|].
  cbn. by rewrite IH.
Qed.

(** the key can be computed from the lower-cased URL *)
Lemma dedupe_key_of_lower (url : string) :
  dedupe_key url = strip_slashes (strip_query (toLowerCase url)).
Proof. unfold dedupe_key. by rewrite strip_query_lower, strip_slashes_lower. Qed.

Lemma all_slashes_no_line_terminator (s : string) :
  all_slashes s = true → has_line_terminator s = false.
Proof.
  induction s as [|c r IH]; [done|]. cbn.
  intros [Hc Hr]%andb_true_iff. rewrite (IH Hr).
  apply Ascii.eqb_eq in Hc as ->. done.
Qed.

Lemma has_line_terminator_strip_query (s : string) :
  has_line_terminator (strip_query s) = has_line_terminator s.
Proof.
  induction s as [|c r IH]; [done|]. cbn.
  destruct (Ascii.eqb c "?") eqn:Hc; cbn.
  - apply Ascii.eqb_eq in Hc as ->.
    destruct (has_line_terminator r) eqn:Hr; cbn; [by rewrite IH|done].
  - by rewrite IH.
Qed.

Lemma has_line_terminator_strip_slashes (s : string) :
  has_line_terminator (strip_slashes s) = has_line_terminator s.
Proof.
  induction s as [|c r IH]; [done|]. cbn.
  destruct (Ascii.eqb c "/" && all_slashes r) eqn:Hc; cbn; [|by rewrite IH].
  apply andb_true_iff in Hc as [Hc Hr].
  apply Ascii.eqb_eq in Hc as ->.
  by rewrite (all_slashes_no_line_terminator r).
Qed.

Lemma all_slashes_strip_slashes (s : string) :
  all_slashes (strip_slashes s) = all_slashes s.
Proof.
  induction s as [|c r IH]; [done|]. cbn.
  destruct (Ascii.eqb c "/" && all_slashes r) eqn:Hc; cbn; [done|].
  rewrite IH. done.
Qed.

Lemma strip_slashes_empty (s : string) :
  strip_slashes s = "" ↔ all_slashes s = true.
Proof.
  destruct s as [|c r]; [done|]. cbn.
  by destruct (Ascii.eqb c "/" && all_slashes r).
Qed.

Lemma strip_query_idem (s : string) : strip_query (strip_query s) = strip_query s.
Proof.
  induction s as [|c r IH]; [done|]. cbn.
  destruct (Ascii.eqb c "?" && negb (has_line_terminator r)) eqn:Hc; [done|].
  cbn. by rewrite has_line_terminator_strip_query, Hc, IH.
Qed.

Lemma strip_slashes_idem (s : string) : strip_slashes (strip_slashes s) = strip_slashes s.
Proof.
  induction s as [|c r IH]; [done|]. cbn.
  destruct (Ascii.eqb c "/" && all_slashes r) eqn:Hc; [done|].
  cbn. by rewrite all_slashes_strip_slashes, Hc, IH.
Qed.

(** stripping the slashes uncovers no query string *)
Lemma strip_query_strip_slashes (s : string) :
  strip_query s = s → strip_query (strip_slashes s) = strip_slashes s.
Proof.
  induction s as [|c r IH]; [done|]. cbn.
  destruct (Ascii.eqb c "?" && negb (has_line_terminator r)) eqn:Hq; [done|].
  intros Hs. injection Hs as Hs.
  destruct (Ascii.eqb c "/" && all_slashes r); [done|].
  cbn. by rewrite has_line_terminator_strip_slashes, Hq, IH.
Qed.

Lemma has_line_terminator_app (s t : string) :
  has_line_terminator (s +:+ t) = has_line_terminator s || has_line_terminator t.
Proof.
  induction s as [|c r IH]; [done|].
  change (String c r +:+ t) with (String c (r +:+ t)).
  cbn [has_line_terminator]. by rewrite IH, orb_assoc.
Qed.

Lemma strip_query_all_slashes (t : string) :
  all_slashes t = true → strip_query t = t.
Proof.
  induction t as [|c r IH]; [done|]. cbn.
  intros [Hc Hr]%andb_true_iff. apply Ascii.eqb_eq in Hc as ->.
  cbn. by rewrite IH.
Qed.

Lemma all_slashes_iff_strip (s1 s2 : string) :
  strip_slashes s1 = strip_slashes s2 → all_slashes s1 = all_slashes s2.
Proof.
  intros Heq.
  destruct (all_slashes s1) eqn:H1, (all_slashes s2) eqn:H2; try done.
  - apply strip_slashes_empty in H1. rewrite H1 in Heq.
    symmetry in Heq. apply strip_slashes_empty in Heq. congruence.
  - apply strip_slashes_empty in H2. rewrite H2 in Heq.
    apply strip_slashes_empty in Heq. congruence.
Qed.

Lemma strip_trailing_slashes_of_stripped_query (url t : string) :
  all_slashes t = true →
  strip_slashes (strip_query (url +:+ t)) = strip_slashes (strip_query url).
Proof.
  intros Ht. induction url as [|c r IH].
  - cbn. rewrite strip_query_all_slashes by done. by apply strip_slashes_empty.
  - change (String c r +:+ t) with (String c (r +:+ t)).
    cbn [strip_query]. rewrite has_line_terminator_app.
    rewrite (all_slashes_no_line_terminator t Ht), orb_false_r.
    destruct (Ascii.eqb c "?" && negb (has_line_terminator r)); [done|].
    cbn [strip_slashes]. by rewrite IH, (all_slashes_iff_strip _ _ IH).
Qed.

(** X1. The dedup key does not depend on the case of the URL: two
    URLs that are equal once lower-cased have the same key. *)
Theorem dedupe_key_ignores_case (url1 url2 : string) :
  toLowerCase url1 = toLowerCase url2 → dedupe_key url1 = dedupe_key url2.
Proof. intros Heq. by rewrite !dedupe_key_of_lower, Heq. Qed.

Lemma dedupe_key_ignores_case_witness :
  dedupe_key "https://Jobs.Lever.co/Initech/ABC" = dedupe_key "https://jobs.lever.co/initech/abc".
Proof. apply dedupe_key_ignores_case. reflexivity. Defined.

(** X2. The dedup key does not depend on the slashes a URL ends with:
    appending any run of slashes to a URL leaves its key unchanged. *)
Theorem dedupe_key_ignores_trailing_slashes (url slashes : string) :
  all_slashes slashes = true → dedupe_key (url +:+ slashes) = dedupe_key url.
Proof.
  intros Hs. unfold dedupe_key.
  by rewrite strip_trailing_slashes_of_stripped_query.
Qed.

Lemma dedupe_key_ignores_trailing_slashes_witness :
  dedupe_key ("https://boards.greenhouse.io/acme/jobs/77" +:+ "//")
  = dedupe_key "https://boards.greenhouse.io/acme/jobs/77".
Proof. apply dedupe_key_ignores_trailing_slashes. reflexivity. Defined.

(** X3. The dedup key does not depend on a query string: appending
    [?] and any text without a line break to a URL leaves its key
    unchanged, so two postings whose URLs differ only after the [?]
    count as one. *)
Theorem dedupe_key_ignores_query_string (url query : string) :
  has_line_terminator query = false →
  dedupe_key (url +:+ "?" +:+ query) = dedupe_key url.
Proof.
  intros Hq. unfold dedupe_key. do 2 f_equal.
  induction url as [|c r IH].
  - change ("" +:+ "?" +:+ query) with (String "?" query).
    cbn [strip_query]. by rewrite Hq.
  - change (String c r +:+ "?" +:+ query)
      with (String c (r +:+ "?" +:+ query)).
    cbn [strip_query]. rewrite has_line_terminator_app.
    change (has_line_terminator ("?" +:+ query))
      with (is_line_terminator "?" || has_line_terminator query).
    rewrite Hq. cbn [is_line_terminator orb]. rewrite orb_false_r.
    destruct (Ascii.eqb c "?" && negb (has_line_terminator r)); [done|].
    by rewrite IH.
Qed.

Lemma dedupe_key_ignores_query_string_witness :
  dedupe_key ("https://www.indeed.com/viewjob" +:+ "?" +:+ "jk=0123456789abcdef")
  = dedupe_key "https://www.indeed.com/viewjob".
Proof. apply dedupe_key_ignores_query_string. reflexivity. Defined.

(** X4. The dedup key is a normal form: the key of a key is the key
    itself. *)
Theorem dedupe_key_idempotent (url : string) :
  dedupe_key (dedupe_key url) = dedupe_key url.
Proof.
  rewrite (dedupe_key_of_lower (dedupe_key url)). unfold dedupe_key.
  rewrite toLowerCase_idem, strip_query_lower, strip_slashes_lower. f_equal.
  rewrite strip_query_strip_slashes by apply strip_query_idem.
  apply strip_slashes_idem.
Qed.

(* --------------------------------------------------------------------- *)
(* dedupe, continued                                                     *)
(* --------------------------------------------------------------------- *)

Lemma dedupe_from_distinct (jobs : list JobResult) (seen : gset string) :
  NoDup (keys jobs) → (∀ k, k ∈ keys jobs → k ∉ seen) →
  dedupe_from seen jobs = jobs.
Proof.
  revert seen. induction jobs as [|j rest IH]; intros seen Hnd Hseen; [done|].
  rewrite keys_cons in Hnd, Hseen. apply NoDup_cons in Hnd as [Hj Hnd].
  cbn [dedupe_from]. rewrite decide_False by (apply Hseen; by left).
  f_equal. apply IH; [done|]. intros k Hk.
  intros [Hin%elem_of_singleton|Hin]%elem_of_union.
  - by subst k.
  - by apply (Hseen k); [right|].
Qed.

(** X5. Deduplication loses nothing it need not lose and is stable: a
    list whose keys are pairwise distinct comes back unchanged, and
    deduplicating a second time changes nothing. *)
Theorem dedupe_stable (jobs : list JobResult) :
  (NoDup (keys jobs) → dedupe jobs = jobs)
  ∧ dedupe (dedupe jobs) = dedupe jobs.
Proof.
  assert (∀ l, NoDup (keys l) → dedupe l = l) as Hid.
  { intros l Hl. apply dedupe_from_distinct; [done|].
    intros k _. apply not_elem_of_empty. }
  split; [apply Hid|]. apply Hid, dedupe_from_NoDup.
Qed.

Lemma dedupe_from_app (l1 l2 : list JobResult) (seen : gset string) :
  dedupe_from seen (l1 ++ l2)
  = dedupe_from seen l1 ++ dedupe_from (seen ∪ list_to_set (keys l1)) l2.
Proof.
  revert seen. induction l1 as [|j rest IH]; intros seen.
  - cbn. f_equal. set_solver.
  - cbn [app dedupe_from]. rewrite keys_cons.
    destruct (decide (dedupe_key (jobUrl j) ∈ seen)) as [Hin|Hout].
    + rewrite IH. do 2 f_equal. set_solver.
    + rewrite IH. cbn [app]. do 3 f_equal. set_solver.
Qed.

Lemma dedupe_from_filter (jobs : list JobResult) (seen seen' : gset string) :
  dedupe_from (seen ∪ seen') jobs
  = filter (λ j, dedupe_key (jobUrl j) ∉ seen) (dedupe_from seen' jobs).
Proof.
  revert seen'. induction jobs as [|j rest IH]; intros seen'; [done|].
  cbn [dedupe_from].
  destruct (decide (dedupe_key (jobUrl j) ∈ seen')) as [Hin'|Hout'].
  - rewrite decide_True by set_solver. apply IH.
  - destruct (decide (dedupe_key (jobUrl j) ∈ seen)) as [Hin|Hout].
    + rewrite decide_True by set_solver.
      rewrite filter_cons_False by (intros ?; done).
      rewrite <- IH. f_equal. set_solver.
    + rewrite decide_False by set_solver.
      rewrite filter_cons_True by done.
      rewrite <- IH. do 2 f_equal. set_solver.
Qed.

(** X6. In a concatenation the earlier list takes precedence: the
    deduplicated concatenation is the deduplicated first list,
    followed by the entries of the deduplicated second list whose key
    does not occur in the first. *)
Theorem dedupe_app (l1 l2 : list JobResult) :
  dedupe (l1 ++ l2)
  = dedupe l1 ++ filter (λ j, dedupe_key (jobUrl j) ∉ keys l1) (dedupe l2).
Proof.
  unfold dedupe. rewrite dedupe_from_app. f_equal.
  replace (∅ ∪ list_to_set (keys l1) : gset string)
    with (list_to_set (keys l1) ∪ ∅ : gset string) by set_solver.
  rewrite dedupe_from_filter. apply list_filter_iff.
  intros j. by rewrite elem_of_list_to_set.
Qed.

Lemma dedupe_from_length (jobs : list JobResult) (seen : gset string) :
  length (dedupe_from seen jobs) = size (list_to_set (keys jobs) ∖ seen : gset string).
Proof.
  revert seen. induction jobs as [|j rest IH]; intros seen.
  - cbn. by rewrite difference_disjoint_L, size_empty by set_solver.
  - cbn [dedupe_from]. rewrite keys_cons. cbn [list_to_set].
    set (k := dedupe_key (jobUrl j)).
    set (K := list_to_set (keys rest) : gset string).
    destruct (decide (k ∈ seen)) as [Hin|Hout].
    + rewrite IH. fold K. f_equal. set_solver.
    + cbn [length]. rewrite IH. fold K.
      assert (({[k]} ∪ K) ∖ seen = {[k]} ∪ K ∖ ({[k]} ∪ seen)) as ->.
      { apply set_eq. intros k'. destruct (decide (k' = k)); set_solver. }
      assert ({[k]} ## K ∖ ({[k]} ∪ seen)) as Hdisj by set_solver.
      by rewrite (size_union _ _ Hdisj), size_singleton.
Qed.

(** X7. The deduplicated list has exactly one entry per distinct key
    of the input: its length is the number of distinct keys, hence at
    most the length of the input, and it is empty only for the empty
    input. *)
Theorem dedupe_length (jobs : list JobResult) :
  length (dedupe jobs) = size (list_to_set (keys jobs) : gset string)
  ∧ (length (dedupe jobs) ≤ length jobs)%nat
  ∧ (dedupe jobs = [] ↔ jobs = []).
Proof.
  split_and!.
  - unfold dedupe. rewrite dedupe_from_length. f_equal. set_solver.
  - apply sublist_length, dedupe_from_sublist.
  - split; [|by intros ->].
    destruct jobs as [|j rest]; [done|]. unfold dedupe. cbn [dedupe_from].
    by rewrite decide_False by apply not_elem_of_empty.
Qed.

(* --------------------------------------------------------------------- *)
(* search: calls to the outside and the cache                            *)
(* --------------------------------------------------------------------- *)

(** X8. A search that misses the cache makes these calls to the
    outside and no other, each once: the scrape if the scraper's
    adapter is included, one fetch for each configured board and one
    for each configured site, whatever the earlier requests answered:
    a failure stops nothing and nothing is retried. The boards are
    requested in the order of the options, and so are the sites; how
    the calls of different adapters follow one another is left open,
    the adapters running at the same time. *)
Theorem search_calls_on_miss
    (JSON_stringify : SearchOptions.t → string) (w : World)
    (now_get now_set : Z) (query : string) (opts : SearchOptions.t)
    (store : gmap (string * string) (cache.Entry (list JobResult)))
    (calls : list Call) :
  (cache.get store query (JSON_stringify opts) CACHE_TTL_MS now_get).1 = None →
  let boards := default [] (SearchOptions.greenhouseBoards opts) in
  let sites := default [] (SearchOptions.leverSites opts) in
  let scrape := if jobspy_included opts
                then [Scrape (jobspy_params query opts)] else [] in
  let board_fetches := map (λ board, Fetch (greenhouse_url board)) boards in
  let site_fetches := map (λ site, Fetch (lever_url site)) sites in
  ∃ made,
    (search JSON_stringify w now_get now_set query opts store calls).2 = calls ++ made
    ∧ made ≡ₚ scrape ++ board_fetches ++ site_fetches
    ∧ sublist board_fetches made
    ∧ sublist site_fetches made
    ∧ length made = (length scrape + length boards + length sites)%nat.
Proof.
  intros Hmiss boards sites scrape board_fetches site_fetches.
  exists (scrape ++ board_fetches ++ site_fetches). split_and!.
  - by rewrite search_miss.
  - done.
  - apply sublist_inserts_l, sublist_inserts_r. done.
  - by do 2 apply sublist_inserts_l.
  - unfold board_fetches, site_fetches. rewrite !length_app, !length_map. lia.
Qed.

Lemma search_calls_on_miss_witness :
  ∃ made,
    (search stringify_options Demo.world 1000 2000 "software engineer"
            Demo.options Demo.empty_store []).2 = [] ++ made
    ∧ made ≡ₚ [Scrape (jobspy_params "software engineer" Demo.options)]
              ++ [Fetch "https://boards-api.greenhouse.io/v1/boards/acme/jobs?content=true"]
              ++ [Fetch "https://api.lever.co/v0/postings/initech?mode=json"]
    ∧ sublist [Fetch "https://boards-api.greenhouse.io/v1/boards/acme/jobs?content=true"]
              made
    ∧ sublist [Fetch "https://api.lever.co/v0/postings/initech?mode=json"] made
    ∧ length made = 3%nat.
Proof.
  refine (search_calls_on_miss stringify_options Demo.world 1000 2000
            "software engineer" Demo.options Demo.empty_store [] _).
  reflexivity.
Defined.

(** X9. Failures are cached like results: when every source fails on
    a cache miss, the empty list is stored, and a second call within
    the time-to-live returns the empty list without calling any
    source, even if the sources would answer by then. *)
Theorem search_caches_empty_result
    (JSON_stringify : SearchOptions.t → string) (w w' : World)
    (now_get now_set now_get' now_set' : Z) (query : string)
    (opts : SearchOptions.t)
    (store : gmap (string * string) (cache.Entry (list JobResult)))
    (calls : list Call) :
  (cache.get store query (JSON_stringify opts) CACHE_TTL_MS now_get).1 = None →
  scrapeJobs w (jobspy_params query opts) = None →
  (∀ b, b ∈ default [] (SearchOptions.greenhouseBoards opts) →
        fetch_fails w (greenhouse_url b)) →
  (∀ s, s ∈ default [] (SearchOptions.leverSites opts) →
        fetch_fails w (lever_url s)) →
  now_get' - now_set ≤ CACHE_TTL_MS →
  ∃ store1 calls1,
    search JSON_stringify w now_get now_set query opts store calls
    = (Returned [], store1, calls1)
    ∧ search JSON_stringify w' now_get' now_set' query opts store1 calls1
      = (Returned [], store1, calls1).
Proof.
  intros Hmiss Hscrape Hboards Hsites Hfresh.
  assert (merged w query opts = []) as Hempty.
  { unfold merged.
    by rewrite jobspy_results_fail, greenhouse_results_fail, lever_results_fail. }
  eexists _, _. split.
  - rewrite search_miss by done. rewrite Hempty. reflexivity.
  - apply search_hit. rewrite cache_get_set.
    by rewrite (proj2 (Z.leb_le _ _)).
Qed.

Lemma search_caches_empty_result_witness :
  ∃ store1 calls1,
    search stringify_options Demo.offline 1000 2000 "software engineer"
           Demo.options Demo.empty_store []
    = (Returned [], store1, calls1)
    ∧ search stringify_options Demo.world 3000 4000 "software engineer"
             Demo.options store1 calls1
      = (Returned [], store1, calls1).
Proof.
  apply search_caches_empty_result;
    [reflexivity | reflexivity | intros b _; exact I | intros s _; exact I
    | vm_compute; discriminate].
Defined.

(** X10. Once more than the time-to-live has passed since the entry
    was stored, the same search misses again: it calls the sources
    anew (the calls of a miss, in whatever order the adapters make
    them), returns what they answer now, and overwrites the entry with
    the new list and the new time. *)
Theorem search_refetches_after_expiry
    (JSON_stringify : SearchOptions.t → string) (w w' : World)
    (now_get now_set now_get' now_set' : Z) (query : string)
    (opts : SearchOptions.t)
    (store : gmap (string * string) (cache.Entry (list JobResult)))
    (calls : list Call) :
  (cache.get store query (JSON_stringify opts) CACHE_TTL_MS now_get).1 = None →
  CACHE_TTL_MS < now_get' - now_set →
  ∃ jobs store1 calls1 made,
    search JSON_stringify w now_get now_set query opts store calls
    = (Returned jobs, store1, calls1)
    ∧ search JSON_stringify w' now_get' now_set' query opts store1 calls1
      = (Returned (dedupe (merged w' query opts)),
         <[(query, JSON_stringify opts) :=
             {| cache.value := dedupe (merged w' query opts);
                cache.storedAt := now_set' |}]> store,
         calls1 ++ made)
    ∧ made ≡ₚ calls_made query opts.
Proof.
  intros Hmiss Hold.
  eexists _, _, _, (calls_made query opts). split_and!; [by apply search_miss| |done].
  rewrite search_miss.
  - unfold cache.set. by rewrite insert_insert_eq.
  - rewrite cache_get_set. by rewrite (proj2 (Z.leb_gt _ _)).
Qed.

Lemma search_refetches_after_expiry_witness :
  ∃ jobs store1 calls1 made,
    search stringify_options Demo.offline 1000 2000 "software engineer"
           Demo.options Demo.empty_store []
    = (Returned jobs, store1, calls1)
    ∧ search stringify_options Demo.world 1802001 1803000 "software engineer"
             Demo.options store1 calls1
      = (Returned (dedupe (merged Demo.world "software engineer" Demo.options)),
         <[("software engineer", stringify_options Demo.options) :=
             {| cache.value := dedupe (merged Demo.world "software engineer" Demo.options);
                cache.storedAt := 1803000 |}]> Demo.empty_store,
         calls1 ++ made)
    ∧ made ≡ₚ calls_made "software engineer" Demo.options.
Proof.
  apply search_refetches_after_expiry; [reflexivity|]. vm_compute. reflexivity.
Defined.

(** X11. A search touches no cache entry but its own: the entries
    under every other (query, serialized options) key are after the
    call what they were before it, and a hit changes neither the cache
    nor the log of calls. *)
Theorem search_touches_own_entry_only
    (JSON_stringify : SearchOptions.t → string) (w : World)
    (now_get now_set : Z) (query : string) (opts : SearchOptions.t)
    (store : gmap (string * string) (cache.Entry (list JobResult)))
    (calls : list Call) :
  let after := search JSON_stringify w now_get now_set query opts store calls in
  (∀ key, key ≠ (query, JSON_stringify opts) → after.1.2 !! key = store !! key)
  ∧ (∀ jobs,
       (cache.get store query (JSON_stringify opts) CACHE_TTL_MS now_get).1 = Some jobs →
       after = (Returned jobs, store, calls)).
Proof.
  intros after. split.
  - intros key Hkey. unfold after.
    destruct (cache.get store query (JSON_stringify opts) CACHE_TTL_MS now_get).1
      as [jobs|] eqn:Hget.
    + by rewrite (search_hit _ _ _ _ _ _ _ _ jobs).
    + rewrite search_miss by done. cbn. unfold cache.set.
      by rewrite lookup_insert_ne.
  - intros jobs Hget. by apply search_hit.
Qed.

(* --------------------------------------------------------------------- *)
(* The adapters' results                                                 *)
(* --------------------------------------------------------------------- *)

Lemma append_nonempty_l (a b : string) : a ≠ "" → a +:+ b ≠ "".
Proof. by destruct a. Qed.

Lemma append_nonempty_r (a b : string) : b ≠ "" → a +:+ b ≠ "".
Proof. destruct a; [done|]. by intros _. Qed.

Lemma or_str_default_nonempty (o : option string) (d : string) :
  d ≠ "" → or_str o d ≠ "".
Proof. destruct o as [[|c s]|]; by cbn. Qed.

Lemma or_null_not_empty (o : option string) : or_null o ≠ Some "".
Proof. by destruct o as [[|c s]|]. Qed.

Lemma formatSalary_not_empty (min max : option Z) (interval currency : option string) :
  formatSalary min max interval currency ≠ Some "".
Proof.
  unfold formatSalary.
  assert (or_str currency "USD" ≠ "") as Hcur by by apply or_str_default_nonempty.
  repeat case_match; try done; intros [= Heq]; revert Heq;
    by apply append_nonempty_l.
Qed.

Lemma toISOString_not_empty (ms : Z) : toISOString ms ≠ Some "".
Proof.
  unfold toISOString. case_match; [done|].
  destruct (civil_from_days (ms / 86400000)) as [[y m] d].
  intros [= Heq]; revert Heq.
  apply append_nonempty_r, append_nonempty_l. done.
Qed.

Lemma elem_of_lever_jobs_date (site : string) (ps : list Lever.posting)
    (j : JobResult) :
  j ∈ lever_jobs site ps →
  ∃ p d, p ∈ ps ∧ posting_date p = Some d ∧ j = lever_job site p d.
Proof.
  induction ps as [|p ps IH]; cbn.
  - by intros ?%elem_of_nil.
  - destruct (posting_date p) as [d|] eqn:Hd; [|by intros ?%elem_of_nil].
    intros [->|Hj]%elem_of_cons.
    + exists p, d. split; [by left|done].
    + destruct (IH Hj) as (p' & d' & ? & ? & ?).
      exists p', d'. split; [by right|done].
Qed.

Lemma posting_date_not_empty (p : Lever.posting) : posting_date p ≠ Some (Some "").
Proof.
  unfold posting_date. case_match; [|done].
  pose proof (toISOString_not_empty (num_val (Lever.createdAt p))) as Hne.
  destruct (toISOString (num_val (Lever.createdAt p))); cbn; congruence.
Qed.

(** X12. Every job a search returns on a cache miss has a location
    that is not empty (the adapters put "Unknown" for a missing one),
    and neither its posting date nor its salary is ever the empty
    string: each is a proper text or null. *)
Theorem search_result_never_blank
    (JSON_stringify : SearchOptions.t → string) (w : World)
    (now_get now_set : Z) (query : string) (opts : SearchOptions.t)
    (store : gmap (string * string) (cache.Entry (list JobResult)))
    (calls : list Call) (jobs : list JobResult) :
  (cache.get store query (JSON_stringify opts) CACHE_TTL_MS now_get).1 = None →
  (search JSON_stringify w now_get now_set query opts store calls).1.1 = Returned jobs →
  ∀ j, j ∈ jobs → location j ≠ "" ∧ datePosted j ≠ Some "" ∧ salary j ≠ Some "".
Proof.
  intros Hmiss Hret j Hj.
  rewrite search_miss in Hret by done. cbn in Hret. injection Hret as <-.
  assert (j ∈ merged w query opts) as Hm.
  { eapply elem_of_sublist; [done|]. apply dedupe_from_sublist. }
  unfold merged in Hm.
  apply elem_of_app in Hm as [Hm|[Hm|Hm]%elem_of_app].
  - destruct (jobspy_included opts); [|by apply elem_of_nil in Hm].
    apply elem_of_map in Hm as (r & Hr & ->). cbn. split_and!.
    + by apply or_str_default_nonempty.
    + apply or_null_not_empty.
    + apply formatSalary_not_empty.
  - apply elem_of_concat_map in Hm as (b & Hb & Hm).
    apply elem_of_map in Hm as (g & Hg & ->). cbn.
    split_and!; [by apply or_str_default_nonempty|apply or_null_not_empty|done].
  - apply elem_of_concat_map in Hm as (s & Hs & Hm).
    apply elem_of_lever_jobs_date in Hm as (p & d & Hp & Hd & ->). cbn.
    split_and!; [by apply or_str_default_nonempty| |done].
    intros ->. by apply (posting_date_not_empty p).
Qed.

Lemma search_result_never_blank_witness :
  location (greenhouse_job "acme" Demo.backend_engineer) ≠ ""
  ∧ datePosted (greenhouse_job "acme" Demo.backend_engineer) ≠ Some ""
  ∧ salary (greenhouse_job "acme" Demo.backend_engineer) ≠ Some "".
Proof.
  refine (search_result_never_blank stringify_options Demo.world 1000 2000
            "software engineer" Demo.options Demo.empty_store []
            (dedupe (merged Demo.world "software engineer" Demo.options))
            _ _ (greenhouse_job "acme" Demo.backend_engineer) _).
  - reflexivity.
  - reflexivity.
  - vm_compute. by right; right; left.
Defined.

(** X13. What the scraper is asked: when [search] includes the
    scraper's adapter, the request carries the query as search term,
    restricts the scrape to the one site named by [options.site] when
    that is "linkedin" or "indeed" and asks for both sites otherwise,
    and never asks for zero results: the number wanted is
    [options.results] when that is a number other than zero, and 15
    when it is absent or zero. *)
Theorem scrape_request (query : string) (opts : SearchOptions.t) :
  jobspy_included opts = true →
  let request := jobspy_params query opts in
  ScrapeJobsOptions.searchTerm request = query
  ∧ ((SearchOptions.site opts = Some "linkedin"
      ∧ ScrapeJobsOptions.siteName request = ScrapeJobsOptions.OneSite "linkedin")
     ∨ (SearchOptions.site opts = Some "indeed"
        ∧ ScrapeJobsOptions.siteName request = ScrapeJobsOptions.OneSite "indeed")
     ∨ ((SearchOptions.site opts = None ∨ SearchOptions.site opts = Some "")
        ∧ ScrapeJobsOptions.siteName request
          = ScrapeJobsOptions.Sites ["linkedin"; "indeed"]))
  ∧ ScrapeJobsOptions.resultsWanted request ≠ 0
  ∧ (SearchOptions.results opts = None ∨ SearchOptions.results opts = Some 0 →
       ScrapeJobsOptions.resultsWanted request = 15)
  ∧ (∀ n, SearchOptions.results opts = Some n → n ≠ 0 →
       ScrapeJobsOptions.resultsWanted request = n).
Proof.
  intros Hincl request. split_and!.
  - done.
  - unfold jobspy_included in Hincl. unfold request, jobspy_params, jobspy_site_name.
    cbn [ScrapeJobsOptions.siteName].
    destruct (SearchOptions.site opts) as [[|c s]|]; cbn in Hincl |- *.
    + right; right. split; [by right|done].
    + apply bool_decide_eq_true in Hincl.
      apply elem_of_cons in Hincl as [->|Hincl]; [left; by split|].
      apply elem_of_cons in Hincl as [->|Hincl]; [right; left; by split|].
      by apply elem_of_nil in Hincl.
    + right; right. split; [by left|done].
  - unfold request, jobspy_params. cbn [ScrapeJobsOptions.resultsWanted].
    destruct (SearchOptions.results opts) as [n|]; cbn; [|done].
    destruct (n =? 0) eqn:Hn; cbn; [done|]. by apply Z.eqb_neq.
  - unfold request, jobspy_params. cbn [ScrapeJobsOptions.resultsWanted].
    by intros [->| ->].
  - intros n Hn Hne. unfold request, jobspy_params.
    cbn [ScrapeJobsOptions.resultsWanted]. rewrite Hn. cbn.
    by rewrite (proj2 (Z.eqb_neq n 0)).
Qed.

Lemma scrape_request_witness :
  ScrapeJobsOptions.resultsWanted (jobspy_params "software engineer" Demo.options) = 2.
Proof.
  refine (proj2 (proj2 (proj2 (proj2
            (scrape_request "software engineer" Demo.options _)))) 2 _ _); done.
Defined.

(** X14. Every job the Greenhouse adapter returns is tagged
    "greenhouse", has no salary, has as company the board token it was
    fetched from, one of the tokens asked for, and is made from a job
    of that board that passed the query filter; the adapter itself
    never throws. *)
Theorem searchGreenhouse_results (w : World) (query : string)
    (boards : list string) (f : Frame) :
  ∃ jobs,
    (searchGreenhouse w query boards f).1 = Returned jobs
    ∧ ∀ j, j ∈ jobs →
        source j = "greenhouse" ∧ salary j = None ∧ company j ∈ boards
        ∧ ∃ g, g ∈ board_jobs w (company j)
               ∧ some_word_in (toLowerCase query) (greenhouse_text g) = true
               ∧ j = greenhouse_job (company j) g.
Proof.
  rewrite searchGreenhouse_run. eexists. split; [done|].
  intros j (b & Hb & Hj)%elem_of_concat_map.
  apply elem_of_map in Hj as (g & Hg & ->).
  apply list_elem_of_filter in Hg as [Hmatch Hg].
  split_and!; try done. by exists g.
Qed.

(** X15. Every job the Lever adapter returns is tagged "lever", has no
    salary, has as company the site name it was fetched from, one of
    the names asked for, carries the hosted URL of its posting, or the
    apply URL when the hosted URL is empty, and is made from a posting
    of that site that passed the query filter; the adapter itself
    never throws. *)
Theorem searchLever_results (w : World) (query : string)
    (sites : list string) (f : Frame) :
  ∃ jobs,
    (searchLever w query sites f).1 = Returned jobs
    ∧ ∀ j, j ∈ jobs →
        source j = "lever" ∧ salary j = None ∧ company j ∈ sites
        ∧ ∃ p, p ∈ site_postings w (company j)
               ∧ some_word_in (toLowerCase query) (lever_text p) = true
               ∧ jobUrl j = (if truthy_str (Lever.hostedUrl p)
                             then Lever.hostedUrl p else Lever.applyUrl p)
               ∧ title j = Lever.text p.
Proof.
  rewrite searchLever_run. eexists. split; [done|].
  intros j (s & Hs & Hj)%elem_of_concat_map.
  apply elem_of_lever_jobs_date in Hj as (p & d & Hp & Hd & ->).
  apply list_elem_of_filter in Hp as [Hmatch Hp].
  split_and!; try done. by exists p.
Qed.

Lemma lever_jobs_app_bad_date (site : string) (before after : list Lever.posting)
    (p : Lever.posting) :
  posting_date p = None →
  lever_jobs site (before ++ p :: after) = lever_jobs site before.
Proof.
  intros Hp. induction before as [|p' before IH]; cbn.
  - by rewrite Hp.
  - destruct (posting_date p'); [by rewrite IH|done].
Qed.

Lemma lever_jobs_length (site : string) (ps : list Lever.posting) :
  Forall (λ p, is_Some (posting_date p)) ps →
  length (lever_jobs site ps) = length ps.
Proof.
  induction 1 as [|p ps [d Hd] _ IH]; [done|].
  cbn. rewrite Hd. cbn. by rewrite IH.
Qed.

(** X16. A posting whose creation time lies outside the range of a
    Date makes the conversion of its date throw inside the loop of its
    site: the matching postings before it have already been pushed and
    stay in the result, the posting itself and every posting after it
    are dropped, and the adapter still returns. *)
Theorem searchLever_drops_from_bad_date (w : World) (query site : string)
    (before after : list Lever.posting) (p : Lever.posting) (t : Z) (f : Frame) :
  fetch w (lever_url site)
  = Some {| ok := true; json := Some (PostingsBody (before ++ p :: after)) |} →
  some_word_in (toLowerCase query) (lever_text p) = true →
  Lever.createdAt p = Some t →
  8640000000000000 < Z.abs t →
  let kept :=
    filter (λ p, some_word_in (toLowerCase query) (lever_text p) = true) before in
  (searchLever w query [site] f).1 = Returned (lever_jobs site kept)
  ∧ (Forall (λ p, is_Some (posting_date p)) kept →
     ∃ jobs, (searchLever w query [site] f).1 = Returned jobs
             ∧ length jobs = length kept).
Proof.
  intros Hfetch Hmatch Ht Hrange kept.
  assert (posting_date p = None) as Hdate.
  { unfold posting_date, toISOString. rewrite Ht. cbn.
    rewrite (proj2 (Z.eqb_neq t 0)) by lia. cbn.
    by rewrite (proj2 (Z.ltb_lt _ _)). }
  assert ((searchLever w query [site] f).1 = Returned (lever_jobs site kept)) as Hrun.
  { rewrite searchLever_run. cbn [fst]. f_equal.
    unfold lever_results. cbn. rewrite app_nil_r.
    unfold site_results, site_postings. rewrite Hfetch.
    rewrite filter_app, filter_cons_True by done.
    by apply lever_jobs_app_bad_date. }
  split; [done|]. intros Hall. eexists. split; [done|].
  by apply lever_jobs_length.
Qed.

Lemma searchLever_drops_from_bad_date_witness :
  (searchLever Sample.world "engineer" ["initech"] {| results := []; log := [] |}).1
  = Returned [lever_job "initech" Demo.backend_posting
                (Some "2024-01-15T10:40:00.000Z")].
Proof.
  refine (proj1 (searchLever_drops_from_bad_date Sample.world "engineer" "initech"
                   [Demo.backend_posting] [Demo.backend_posting]
                   Sample.out_of_range_posting 9000000000000000
                   {| results := []; log := [] |} _ _ _ _));
    [reflexivity | reflexivity | reflexivity | reflexivity].
Defined.

(* ===================================================================== *)
(* Further properties of lib/format.ts                                   *)
(* ===================================================================== *)

Lemma string_length_app (a b : string) :
  String.length (a +:+ b) = (String.length a + String.length b)%nat.
Proof.
  induction a as [|c a IH]; [done|].
  change (String c a +:+ b) with (String c (a +:+ b)).
  cbn [String.length]. by rewrite IH.
Qed.

Lemma length_substring_0 (n : nat) (s : string) :
  String.length (String.substring 0 n s) = Nat.min n (String.length s).
Proof.
  revert n. induction s as [|c s IH]; intros [|n]; cbn; try done.
  by rewrite IH.
Qed.

Lemma prefix_substring_0 (n : nat) (s : string) :
  String.prefix (String.substring 0 n s) s = true.
Proof.
  revert n. induction s as [|c s IH]; intros [|n]; cbn; try done.
  rewrite IH. by destruct (ascii_dec c c).
Qed.

Lemma slice_0_length (s : string) (stop : Z) :
  Z.of_nat (String.length (slice s 0 stop))
  = if stop <? 0 then Z.max (Z.of_nat (String.length s) + stop) 0
    else Z.min stop (Z.of_nat (String.length s)).
Proof.
  unfold slice. cbn [Z.ltb Z.compare]. rewrite Z.min_l by lia.
  rewrite Z.sub_0_r. cbn [Z.to_nat]. rewrite length_substring_0.
  destruct (stop <? 0) eqn:Hs; lia.
Qed.

Lemma slice_0_prefix (s : string) (stop : Z) :
  String.prefix (slice s 0 stop) s = true.
Proof.
  unfold slice. cbn [Z.ltb Z.compare]. rewrite Z.min_l by lia.
  cbn [Z.to_nat]. apply prefix_substring_0.
Qed.

(** X17. For a bound of at least 3, [truncate] honours the bound: a
    text that fits comes back unchanged, a longer one is cut to
    exactly [max] characters, the first [max - 3] of the text followed
    by three dots; truncating again changes nothing. With the bound
    left out, [formatDescriptionForPrompt] returns at most 3000
    characters. *)
Theorem truncate_within_bound (text : string) (max : Z) :
  3 ≤ max →
  Z.of_nat (String.length (truncate text max))
  = Z.min (Z.of_nat (String.length text)) max
  ∧ (Z.of_nat (String.length text) ≤ max → truncate text max = text)
  ∧ (max < Z.of_nat (String.length text) →
     ∃ head, truncate text max = head +:+ "..."
             ∧ String.prefix head text = true
             ∧ Z.of_nat (String.length head) = max - 3)
  ∧ truncate (truncate text max) max = truncate text max
  ∧ Z.of_nat (String.length (formatDescriptionForPrompt text None)) ≤ 3000.
Proof.
  intros Hmax.
  assert (∀ m, 3 ≤ m →
            Z.of_nat (String.length (truncate text m))
            = Z.min (Z.of_nat (String.length text)) m) as Hlen.
  { intros m Hm. unfold truncate.
    destruct (Z.of_nat (String.length text) <=? m) eqn:Hfit; [lia|].
    rewrite string_length_app, Nat2Z.inj_add, slice_0_length.
    rewrite (proj2 (Z.ltb_ge _ _)) by lia. cbn. lia. }
  split_and!.
  - by apply Hlen.
  - intros Hfit. unfold truncate. by rewrite (proj2 (Z.leb_le _ _)).
  - intros Hlong. unfold truncate. rewrite (proj2 (Z.leb_gt _ _)) by done.
    exists (slice text 0 (max - 3)). split_and!; [done| |].
    + apply slice_0_prefix.
    + rewrite slice_0_length. rewrite (proj2 (Z.ltb_ge _ _)) by lia. lia.
  - unfold truncate at 1.
    rewrite (proj2 (Z.leb_le _ _)); [done|]. rewrite Hlen by done. lia.
  - unfold formatDescriptionForPrompt. cbn [default]. rewrite Hlen by lia. lia.
Qed.

Lemma truncate_within_bound_witness :
  Z.of_nat (String.length (truncate "Backend Engineer" 10)) = 10.
Proof.
  refine (proj1 (truncate_within_bound "Backend Engineer" 10 _)). lia.
Defined.

(** X18. For a bound below 3 the bound is not honoured: a text longer
    than [max] loses its last [3 - max] characters (all of them if it
    has fewer) and gains three dots, so the result is always longer
    than [max]. *)
Theorem truncate_below_three (text : string) (max : Z) :
  max < 3 → max < Z.of_nat (String.length text) →
  Z.of_nat (String.length (truncate text max))
  = Z.max (Z.of_nat (String.length text) + max - 3) 0 + 3
  ∧ max < Z.of_nat (String.length (truncate text max)).
Proof.
  intros Hmax Hlong.
  assert (Z.of_nat (String.length (truncate text max))
          = Z.max (Z.of_nat (String.length text) + max - 3) 0 + 3) as Hlen.
  { unfold truncate. rewrite (proj2 (Z.leb_gt _ _)) by done.
    rewrite string_length_app, Nat2Z.inj_add, slice_0_length.
    rewrite (proj2 (Z.ltb_lt _ _)) by lia. cbn. lia. }
  split; [done|]. lia.
Qed.

Lemma truncate_below_three_witness :
  Z.of_nat (String.length (truncate "abcdef" 2)) = 8.
Proof.
  refine (proj1 (truncate_below_three "abcdef" 2 _ _)); cbn; lia.
Defined.

(** X19. [timeAgo] rounds the age down to whole units and changes
    unit exactly at one hour and at one day: below one hour it prints
    minutes (negative minutes for a date in the future), from one hour
    to below one day hours, from one day on days. *)
Theorem timeAgo_units (now posted : Z) :
  let diff := now - posted in
  (diff < 3600000 →
     timeAgo now (Some posted) = number_toString (diff / 60000) +:+ "m ago")
  ∧ (3600000 ≤ diff < 86400000 →
     timeAgo now (Some posted) = number_toString (diff / 3600000) +:+ "h ago")
  ∧ (86400000 ≤ diff →
     timeAgo now (Some posted) = number_toString (diff / 86400000) +:+ "d ago").
Proof.
  intros diff. unfold timeAgo. fold diff.
  assert (diff / 60000 / 60 = diff / 3600000) as Hh by (by rewrite Z.div_div by lia).
  assert (diff / 3600000 / 24 = diff / 86400000) as Hd
    by (by rewrite Z.div_div by lia).
  split_and!.
  - intros Hlt. rewrite (proj2 (Z.ltb_lt _ _)); [done|].
    apply Z.div_lt_upper_bound; lia.
  - intros [Hge Hlt]. rewrite (proj2 (Z.ltb_ge _ _)).
    2:{ apply Z.div_le_lower_bound; lia. }
    rewrite Hh. rewrite (proj2 (Z.ltb_lt _ _)); [done|].
    apply Z.div_lt_upper_bound; lia.
  - intros Hge. rewrite (proj2 (Z.ltb_ge _ _)).
    2:{ apply Z.div_le_lower_bound; lia. }
    rewrite Hh, Hd. rewrite (proj2 (Z.ltb_ge _ _)); [done|].
    apply Z.div_le_lower_bound; lia.
Qed.

Lemma timeAgo_units_witness :
  timeAgo 1705406400000 (Some 1705315200000) = "1d ago".
Proof.
  refine (proj2 (proj2 (timeAgo_units 1705406400000 1705315200000)) _).
  cbn. lia.
Defined.

(* --------------------------------------------------------------------- *)
(* The counts by status                                                  *)
(* --------------------------------------------------------------------- *)

Lemma stats_total_empty : stats_total ∅ = 0.
Proof. unfold stats_total. by rewrite map_fold_empty. Qed.

Lemma stats_total_insert (counts : gmap string Z) (key : string) (count : Z) :
  stats_total (<[key := count]> counts)
  = stats_total counts - default 0 (counts !! key) + count.
Proof.
  unfold stats_total. destruct (counts !! key) as [old|] eqn:Hkey; cbn.
  - rewrite <- insert_delete_eq.
    rewrite map_fold_insert_L; [|intros; lia|by rewrite lookup_delete_eq].
    rewrite (map_fold_delete_L _ _ key old counts); [lia|intros; lia|done].
  - rewrite map_fold_insert_L; [lia|intros; lia|done].
Qed.

Lemma name_inj (s1 s2 : JobStatus.t) : JobStatus.name s1 = JobStatus.name s2 → s1 = s2.
Proof. by destruct s1, s2. Qed.

Lemma stats_total_fold (jobs : list TrackedJob.t) (counts : gmap string Z) :
  stats_total (fold_left tracker.count_job jobs counts)
  = stats_total counts + Z.of_nat (length jobs).
Proof.
  revert counts. induction jobs as [|j rest IH]; intros counts; cbn [fold_left].
  - cbn. lia.
  - rewrite IH. unfold tracker.count_job. rewrite stats_total_insert.
    cbn [length]. lia.
Qed.

Lemma stats_count_fold (jobs : list TrackedJob.t) (counts : gmap string Z)
    (s : JobStatus.t) :
  stats_count (fold_left tracker.count_job jobs counts) s
  = stats_count counts s
    + Z.of_nat (length (List.filter (λ j, bool_decide (TrackedJob.status j = s)) jobs)).
Proof.
  revert counts. induction jobs as [|j rest IH]; intros counts; cbn [fold_left].
  - cbn. lia.
  - rewrite IH. cbn [List.filter]. unfold stats_count, tracker.count_job.
    destruct (decide (TrackedJob.status j = s)) as [->|Hne].
    + rewrite lookup_insert_eq, bool_decide_eq_true_2 by done. cbn. lia.
    + rewrite lookup_insert_ne by (intros ?%name_inj; done).
      rewrite bool_decide_eq_false_2 by done. lia.
Qed.

(** X20. The counts of [stats] agree with the listing: they add up to
    the number of tracked jobs, and the count of a status, read with
    zero for a missing key, is the number of jobs [list] returns for
    that status. An unreadable or missing file counts as no jobs. *)
Theorem stats_counts (file : JobsFile) :
  stats_total (tracker.stats file) = Z.of_nat (length (tracker.list None file))
  ∧ (∀ s, stats_count (tracker.stats file) s
          = Z.of_nat (length (tracker.list (Some s) file)))
  ∧ tracker.stats Missing = ∅ ∧ tracker.stats Unreadable = ∅.
Proof.
  split_and!; try done.
  - unfold tracker.stats, tracker.list.
    by rewrite stats_total_fold, stats_total_empty.
  - intros s. unfold tracker.stats, tracker.list. rewrite stats_count_fold.
    unfold stats_count. by rewrite lookup_empty.
Qed.

Lemma string_app_assoc (a b c : string) : (a +:+ b) +:+ c = a +:+ b +:+ c.
Proof.
  induction a as [|x a IH]; [done|].
  change ((String x a +:+ b) +:+ c) with (String x ((a +:+ b) +:+ c)).
  by rewrite IH.
Qed.

Lemma string_app_nil_r (a : string) : a +:+ "" = a.
Proof.
  induction a as [|x a IH]; [done|].
  change (String x a +:+ "") with (String x (a +:+ "")). by rewrite IH.
Qed.

Lemma stats_line_prefix (counts : gmap string Z) (head out : string) (s : JobStatus.t) :
  stats_line counts (head +:+ out) s = head +:+ stats_line counts out s.
Proof.
  unfold stats_line. destruct (0 <? stats_count counts s); [|done].
  by rewrite string_app_assoc.
Qed.

Lemma fold_stats_line_prefix (counts : gmap string Z) (head out : string)
    (order : list JobStatus.t) :
  fold_left (stats_line counts) order (head +:+ out)
  = head +:+ fold_left (stats_line counts) order out.
Proof.
  revert out. induction order as [|s order IH]; intros out; [done|].
  cbn [fold_left]. by rewrite stats_line_prefix, IH.
Qed.

(** X21. The summary of the tracker's own counts: with no tracked job
    it is "No tracked jobs.", otherwise it begins with the line
    "Pipeline: N jobs total", N being the number of tracked jobs. *)
Theorem formatStats_of_stats (file : JobsFile) :
  (tracker.load file = [] → formatStats (tracker.stats file) = "No tracked jobs.")
  ∧ (tracker.load file ≠ [] →
     ∃ lines,
       formatStats (tracker.stats file)
       = "Pipeline: " +:+ number_toString (Z.of_nat (length (tracker.load file)))
         +:+ " jobs total" +:+ String (ascii_of_nat 10) "" +:+ lines).
Proof.
  pose proof (stats_total_fold (tracker.load file) ∅) as Htotal.
  rewrite stats_total_empty, Z.add_0_l in Htotal.
  unfold formatStats, tracker.stats. rewrite Htotal. split.
  - by intros ->.
  - intros Hne.
    rewrite (proj2 (Z.eqb_neq _ 0)) by (destruct (tracker.load file); [done|cbn; lia]).
    exists (fold_left (stats_line (fold_left tracker.count_job (tracker.load file) ∅))
              JobStatus.order "").
    rewrite <- (string_app_nil_r (String (ascii_of_nat 10) "")) at 1.
    rewrite <- !string_app_assoc.
    by rewrite fold_stats_line_prefix.
Qed.

Lemma formatStats_of_stats_witness :
  ∃ lines,
    formatStats (tracker.stats Sample.tracked_file)
    = "Pipeline: " +:+ number_toString 1 +:+ " jobs total"
      +:+ String (ascii_of_nat 10) "" +:+ lines.
Proof.
  refine (proj2 (formatStats_of_stats Sample.tracked_file) _). discriminate.
Defined.

(* ===================================================================== *)
(* Properties of lib/tracker.ts                                          *)
(* ===================================================================== *)

Lemma has_id_true (id : string) (j : TrackedJob.t) :
  tracker.has_id id j = true ↔ TrackedJob.id j = id.
Proof. unfold tracker.has_id. apply String.eqb_eq. Qed.

Lemma has_id_false (id : string) (j : TrackedJob.t) :
  tracker.has_id id j = false ↔ TrackedJob.id j ≠ id.
Proof. unfold tracker.has_id. apply String.eqb_neq. Qed.

Lemma find_has_id (id : string) (jobs : list TrackedJob.t) (j : TrackedJob.t) :
  find (tracker.has_id id) jobs = Some j → TrackedJob.id j = id ∧ j ∈ jobs.
Proof.
  intros [Hin Hid]%find_some. split; [by apply has_id_true|].
  by apply list_elem_of_In.
Qed.

Lemma find_snoc {A} (test : A → bool) (l : list A) (x : A) :
  find test (l ++ [x])
  = match find test l with
    | Some y => Some y
    | None => if test x then Some x else None
    end.
Proof.
  induction l as [|y l IH]; cbn; [done|].
  by destruct (test y).
Qed.

Lemma find_none_iff (id : string) (jobs : list TrackedJob.t) :
  find (tracker.has_id id) jobs = None ↔ id ∉ TrackedJob.id <$> jobs.
Proof.
  induction jobs as [|j rest IH]; cbn.
  - split; [intros _; apply not_elem_of_nil|done].
  - destruct (tracker.has_id id j) eqn:Hj.
    + apply has_id_true in Hj. split; [done|]. intros Hn. destruct Hn.
      rewrite <- Hj. by left.
    + apply has_id_false in Hj. rewrite IH, not_elem_of_cons. naive_solver.
Qed.

Lemma find_update_first_same (id : string) (change : TrackedJob.t → TrackedJob.t)
    (jobs : list TrackedJob.t) :
  (∀ j, TrackedJob.id (change j) = TrackedJob.id j) →
  find (tracker.has_id id) (tracker.update_first (tracker.has_id id) change jobs)
  = change <$> find (tracker.has_id id) jobs.
Proof.
  intros Hid. induction jobs as [|j rest IH]; cbn; [done|].
  destruct (tracker.has_id id j) eqn:Hj; cbn.
  - assert (tracker.has_id id (change j) = true) as ->; [|done].
    apply has_id_true. rewrite Hid. by apply has_id_true.
  - by rewrite Hj.
Qed.

Lemma find_update_first_other (id id' : string) (change : TrackedJob.t → TrackedJob.t)
    (jobs : list TrackedJob.t) :
  (∀ j, TrackedJob.id (change j) = TrackedJob.id j) → id' ≠ id →
  find (tracker.has_id id') (tracker.update_first (tracker.has_id id) change jobs)
  = find (tracker.has_id id') jobs.
Proof.
  intros Hid Hne. induction jobs as [|j rest IH]; cbn; [done|].
  destruct (tracker.has_id id j) eqn:Hj; cbn.
  - apply has_id_true in Hj.
    assert (tracker.has_id id' (change j) = false) as ->.
    { apply has_id_false. rewrite Hid. congruence. }
    assert (tracker.has_id id' j = false) as ->; [|done].
    apply has_id_false. congruence.
  - by rewrite IH.
Qed.

Lemma update_first_length (test : TrackedJob.t → bool)
    (change : TrackedJob.t → TrackedJob.t) (jobs : list TrackedJob.t) :
  length (tracker.update_first test change jobs) = length jobs.
Proof.
  induction jobs as [|j rest IH]; cbn; [done|].
  destruct (test j); cbn; by rewrite ?IH.
Qed.

Lemma update_first_ids (test : TrackedJob.t → bool)
    (change : TrackedJob.t → TrackedJob.t) (jobs : list TrackedJob.t) :
  (∀ j, TrackedJob.id (change j) = TrackedJob.id j) →
  TrackedJob.id <$> tracker.update_first test change jobs = TrackedJob.id <$> jobs.
Proof.
  intros Hid. induction jobs as [|j rest IH]; cbn; [done|].
  destruct (test j); cbn; by rewrite ?Hid, ?IH.
Qed.

Lemma find_filter_other (id id' : string) (jobs : list TrackedJob.t) :
  find (tracker.has_id id')
       (List.filter (λ j, negb (tracker.has_id id j)) jobs)
  = if decide (id' = id) then None else find (tracker.has_id id') jobs.
Proof.
  induction jobs as [|j rest IH]; cbn.
  - by case_decide.
  - destruct (tracker.has_id id j) eqn:Hj; cbn.
    + rewrite IH. case_decide as Hd; [done|].
      apply has_id_true in Hj.
      assert (tracker.has_id id' j = false) as ->; [|done].
      apply has_id_false. congruence.
    + rewrite IH. case_decide as Hd; [|done].
      subst id'. by rewrite Hj.
Qed.

Lemma filter_length_eq {A} (test : A → bool) (l : list A) :
  length (List.filter test l) = length l → List.filter test l = l.
Proof.
  induction l as [|x l IH]; cbn; [done|].
  destruct (test x); cbn.
  - intros [= Hl]. by rewrite IH.
  - intros Hl. pose proof (filter_length_le test l). lia.
Qed.

Lemma add_get (jobId : string → string) (now : string) (job : JobResult)
    (file : JobsFile) :
  tracker.get (jobId (jobUrl job)) (tracker.add jobId now job file).2
  = Some (tracker.add jobId now job file).1.
Proof.
  unfold tracker.add, tracker.get.
  destruct (find (tracker.has_id (jobId (jobUrl job))) (tracker.load file))
    as [existing|] eqn:Hfind; cbn; [done|].
  rewrite find_snoc, Hfind. unfold tracker.has_id. cbn.
  by rewrite String.eqb_refl.
Qed.

(** X22. After [add(job)], looking up the job's id finds the record
    [add] returned. For an id not yet tracked that record is new: it
    is appended after the existing ones, with status "new", no flag
    set, the time of the call as [dateFound] and each of the nine
    fields of the job as the job has it; for an id already tracked it
    is the existing record, and the file is left as it was. *)
Theorem add_then_get (jobId : string → string) (now : string) (job : JobResult)
    (file : JobsFile) :
  let id := jobId (jobUrl job) in
  let added := tracker.add jobId now job file in
  tracker.get id added.2 = Some added.1
  ∧ TrackedJob.id added.1 = id
  ∧ (tracker.get id file = None →
       tracker.load added.2 = tracker.load file ++ [added.1]
       ∧ TrackedJob.status added.1 = JobStatus.new
       ∧ TrackedJob.dateFound added.1 = now
       ∧ TrackedJob.title added.1 = title job
       ∧ TrackedJob.company added.1 = company job
       ∧ TrackedJob.location added.1 = location job
       ∧ TrackedJob.isRemote added.1 = isRemote job
       ∧ TrackedJob.jobUrl added.1 = jobUrl job
       ∧ TrackedJob.source added.1 = source job
       ∧ TrackedJob.datePosted added.1 = datePosted job
       ∧ TrackedJob.salary added.1 = salary job
       ∧ TrackedJob.description added.1 = description job
       ∧ TrackedJob.researchDone added.1 = false
       ∧ TrackedJob.resumeTailored added.1 = false
       ∧ TrackedJob.letterDrafted added.1 = false)
  ∧ (∀ existing, tracker.get id file = Some existing → added = (existing, file)).
Proof.
  intros id added. unfold added, tracker.add, tracker.get. fold id.
  destruct (find (tracker.has_id id) (tracker.load file)) as [existing|] eqn:Hfind.
  - cbn. split_and!; try done.
    + by apply find_has_id in Hfind as [? _].
    + by intros ? [= <-].
  - cbn. split_and!; try done.
    rewrite find_snoc, Hfind. unfold tracker.has_id. cbn.
    by rewrite String.eqb_refl.
Qed.

(** X23. [add] never overwrites and never duplicates: once a job is
    tracked, adding a job with the same id again, be it the same job,
    a changed copy of it or another URL with the same digest, returns
    the tracked record and leaves the file as it is. *)
Theorem add_is_idempotent (jobId : string → string) (now now' : string)
    (job job' : JobResult) (file : JobsFile) :
  jobId (jobUrl job') = jobId (jobUrl job) →
  tracker.add jobId now' job' (tracker.add jobId now job file).2
  = tracker.add jobId now job file.
Proof.
  intros Hid.
  pose proof (add_get jobId now job file) as Hget.
  destruct (tracker.add jobId now job file) as [tracked file'].
  cbn [fst snd] in *. unfold tracker.get in Hget.
  unfold tracker.add. by rewrite Hid, Hget.
Qed.

Lemma add_is_idempotent_witness :
  tracker.add Sample.jobId "2024-02-01T00:00:00.000Z" Sample.found
              (tracker.add Sample.jobId "2024-01-16T09:00:00.000Z" Sample.found Missing).2
  = tracker.add Sample.jobId "2024-01-16T09:00:00.000Z" Sample.found Missing.
Proof. apply add_is_idempotent. reflexivity. Defined.

Lemma load_save (jobs : list TrackedJob.t) : tracker.load (tracker.save jobs) = jobs.
Proof. done. Qed.

Lemma set_status_id (status : JobStatus.t) (j : TrackedJob.t) :
  TrackedJob.id (tracker.set_status status j) = TrackedJob.id j.
Proof. done. Qed.

Lemma assign_flags_id (flags : Flags.t) (j : TrackedJob.t) :
  TrackedJob.id (tracker.assign_flags flags j) = TrackedJob.id j.
Proof. done. Qed.

Lemma update_first_Forall (P : TrackedJob.t → Prop) (test : TrackedJob.t → bool)
    (change : TrackedJob.t → TrackedJob.t) (jobs : list TrackedJob.t) :
  (∀ j, P j → P (change j)) →
  Forall P jobs → Forall P (tracker.update_first test change jobs).
Proof.
  intros Hchange. induction 1 as [|j rest Hj Hrest IH]; cbn; [done|].
  destruct (test j); constructor; auto.
Qed.

Lemma filter_ids_NoDup (test : TrackedJob.t → bool) (jobs : list TrackedJob.t) :
  NoDup (TrackedJob.id <$> jobs) → NoDup (TrackedJob.id <$> List.filter test jobs).
Proof.
  induction jobs as [|j rest IH]; cbn; [done|].
  intros [Hj Hrest]%NoDup_cons. destruct (test j); cbn; [|by apply IH].
  apply NoDup_cons. split; [|by apply IH].
  intros (j' & Hid & Hin)%list_elem_of_fmap. apply Hj.
  apply list_elem_of_fmap. exists j'. split; [done|].
  apply list_elem_of_In. apply list_elem_of_In in Hin.
  by apply filter_In in Hin as [? _].
Qed.

Lemma filter_Forall {A} (P : A → Prop) (test : A → bool) (l : list A) :
  Forall P l → Forall P (List.filter test l).
Proof.
  induction 1 as [|x l Hx Hl IH]; cbn; [done|].
  destruct (test x); [by constructor|done].
Qed.

(** X24. The tracker keeps its ids sound: if no two tracked jobs
    share an id and every id is the digest of its job's URL, the same
    holds after [add], [remove], [updateStatus] and [updateFlags]; and
    it holds of a missing or unreadable file, which has no jobs. *)
Theorem tracker_keeps_ids (jobId : string → string) (file : JobsFile) :
  let sound file :=
    NoDup (TrackedJob.id <$> tracker.load file)
    ∧ Forall (λ j, TrackedJob.id j = jobId (TrackedJob.jobUrl j)) (tracker.load file) in
  sound Missing ∧ sound Unreadable
  ∧ (sound file →
     (∀ now job, sound (tracker.add jobId now job file).2)
     ∧ (∀ id, sound (tracker.remove id file).2)
     ∧ (∀ id status, sound (tracker.updateStatus id status file).2)
     ∧ (∀ id flags, sound (tracker.updateFlags id flags file).2)).
Proof.
  intros sound. split_and!.
  - split; [apply NoDup_nil_2|constructor].
  - split; [apply NoDup_nil_2|constructor].
  - intros [Hnd Hids]. split_and!.
    + intros now job. unfold tracker.add.
      destruct (find (tracker.has_id (jobId (jobUrl job))) (tracker.load file))
        as [existing|] eqn:Hfind; cbn [snd]; [done|].
      unfold sound. rewrite load_save. split.
      * rewrite fmap_app. apply NoDup_app. split_and!; [done| |apply NoDup_singleton].
        intros id Hin ->%list_elem_of_singleton.
        by apply find_none_iff in Hfind.
      * apply Forall_app. split; [done|]. by repeat constructor.
    + intros id. unfold tracker.remove.
      destruct (_ =? _)%nat; cbn [snd]; [done|].
      unfold sound. rewrite load_save.
      split; [by apply filter_ids_NoDup|by apply filter_Forall].
    + intros id status. unfold tracker.updateStatus.
      destruct (find (tracker.has_id id) (tracker.load file)); cbn [snd]; [|done].
      unfold sound. rewrite load_save.
      split; [by rewrite update_first_ids|].
      by apply update_first_Forall.
    + intros id flags. unfold tracker.updateFlags.
      destruct (find (tracker.has_id id) (tracker.load file)); cbn [snd]; [|done].
      unfold sound. rewrite load_save.
      split; [by rewrite update_first_ids|].
      by apply update_first_Forall.
Qed.

Lemma tracker_keeps_ids_witness :
  NoDup (TrackedJob.id <$> tracker.load Sample.tracked_file).
Proof.
  destruct (tracker_keeps_ids Sample.jobId Missing) as (Hmissing & _ & Hkeeps).
  destruct (Hkeeps Hmissing) as (Hadd & _).
  exact (proj1 (Hadd "2024-01-16T09:00:00.000Z" Sample.found)).
Defined.

(** X25. [remove(id)] answers true exactly when the id is tracked;
    afterwards the id is not tracked any more, every other id is found
    as before, and when it answers false the file is left as it was. *)
Theorem remove_then_get (id : string) (file : JobsFile) :
  let removed := tracker.remove id file in
  (removed.1 = true ↔ is_Some (tracker.get id file))
  ∧ tracker.get id removed.2 = None
  ∧ (∀ id', id' ≠ id → tracker.get id' removed.2 = tracker.get id' file)
  ∧ (removed.1 = false → removed.2 = file).
Proof.
  intros removed. unfold removed, tracker.remove, tracker.get.
  set (jobs := tracker.load file).
  set (filtered := List.filter (λ j, negb (tracker.has_id id j)) jobs).
  assert (find (tracker.has_id id) filtered = None) as Hgone.
  { unfold filtered. rewrite find_filter_other. by rewrite decide_True. }
  destruct (length filtered =? length jobs)%nat eqn:Hlen; cbn.
  - apply Nat.eqb_eq in Hlen. apply filter_length_eq in Hlen.
    fold filtered in Hlen. fold jobs.
    assert (find (tracker.has_id id) jobs = None) as Hnone by by rewrite <- Hlen.
    split_and!; try done.
    split; [done|]. rewrite Hnone. by intros [? ?].
  - apply Nat.eqb_neq in Hlen. split_and!; try done.
    + split; [intros _|done].
      destruct (find (tracker.has_id id) jobs) eqn:Hfind; [done|].
      destruct Hlen. f_equal. unfold filtered.
      apply find_none_iff in Hfind.
      clear -Hfind. induction jobs as [|j rest IH]; [done|].
      cbn in *. apply not_elem_of_cons in Hfind as [Hj Hrest].
      rewrite (proj2 (has_id_false id j)) by done. cbn. by rewrite IH.
    + intros id' Hne. unfold filtered. rewrite find_filter_other.
      by rewrite decide_False.
Qed.

(** X26. [updateStatus(id, status)] answers null exactly when the id
    is not tracked, and then leaves the file as it was; otherwise the
    record found for the id afterwards is the one found before with
    the new status and nothing else changed, every other id is found
    as before, and no record is added or dropped. *)
Theorem updateStatus_then_get (id : string) (status : JobStatus.t) (file : JobsFile) :
  let updated := tracker.updateStatus id status file in
  (updated.1 = None ↔ tracker.get id file = None)
  ∧ (tracker.get id file = None → updated.2 = file)
  ∧ (∀ job, tracker.get id file = Some job →
       updated.1 = Some (tracker.set_status status job)
       ∧ tracker.get id updated.2 = Some (tracker.set_status status job)
       ∧ TrackedJob.status (tracker.set_status status job) = status
       ∧ length (tracker.load updated.2) = length (tracker.load file))
  ∧ (∀ id', id' ≠ id → tracker.get id' updated.2 = tracker.get id' file).
Proof.
  intros updated. unfold updated, tracker.updateStatus, tracker.get.
  destruct (find (tracker.has_id id) (tracker.load file)) as [job|] eqn:Hfind; cbn.
  - split_and!; try done.
    + intros job' [= <-]. split_and!; try done.
      * by rewrite find_update_first_same, Hfind.
      * apply update_first_length.
    + intros id' Hne. by apply find_update_first_other.
  - by split_and!.
Qed.

(** X27. [updateFlags(id, flags)] answers null exactly when the id is
    not tracked, and then leaves the file as it was; otherwise the
    record found for the id afterwards has the flags that were given
    and keeps the ones that were not, together with its status, and
    every other id is found as before. *)
Theorem updateFlags_then_get (id : string) (flags : Flags.t) (file : JobsFile) :
  let updated := tracker.updateFlags id flags file in
  (updated.1 = None ↔ tracker.get id file = None)
  ∧ (tracker.get id file = None → updated.2 = file)
  ∧ (∀ job, tracker.get id file = Some job →
       ∃ job', tracker.get id updated.2 = Some job' ∧ updated.1 = Some job'
         ∧ TrackedJob.researchDone job'
           = default (TrackedJob.researchDone job) (Flags.researchDone flags)
         ∧ TrackedJob.resumeTailored job'
           = default (TrackedJob.resumeTailored job) (Flags.resumeTailored flags)
         ∧ TrackedJob.letterDrafted job'
           = default (TrackedJob.letterDrafted job) (Flags.letterDrafted flags)
         ∧ TrackedJob.status job' = TrackedJob.status job
         ∧ TrackedJob.id job' = id)
  ∧ (∀ id', id' ≠ id → tracker.get id' updated.2 = tracker.get id' file).
Proof.
  intros updated. unfold updated, tracker.updateFlags, tracker.get.
  destruct (find (tracker.has_id id) (tracker.load file)) as [job|] eqn:Hfind; cbn.
  - split_and!; try done.
    + intros job' [= <-]. exists (tracker.assign_flags flags job).
      split_and!; try done.
      * by rewrite find_update_first_same, Hfind.
      * by apply find_has_id in Hfind as [? _].
    + intros id' Hne. by apply find_update_first_other.
  - by split_and!.
Qed.

(* ===================================================================== *)
(* Properties of job-hunt.ts                                             *)
(* ===================================================================== *)

Lemma add_load (jobId : string → string) (now : string) (job : JobResult)
    (file : JobsFile) :
  tracker.load (tracker.add jobId now job file).2
  = tracker.load file
    ++ (if bool_decide (is_Some (tracker.get (jobId (jobUrl job)) file))
        then [] else [(tracker.add jobId now job file).1]).
Proof.
  unfold tracker.add, tracker.get.
  destruct (find (tracker.has_id (jobId (jobUrl job))) (tracker.load file))
    as [existing|]; cbn [fst snd].
  - rewrite bool_decide_eq_true_2 by eauto. by rewrite app_nil_r.
  - rewrite bool_decide_eq_false_2 by (by intros [? ?]). by rewrite load_save.
Qed.

Lemma find_app_is_Some {A} (test : A → bool) (l more : list A) :
  is_Some (find test l) → is_Some (find test (l ++ more)).
Proof.
  induction l as [|x l IH]; cbn; [by intros [? ?]|].
  destruct (test x); [done|apply IH].
Qed.

Lemma save_results_spec (jobId : string → string) (now : nat → string)
    (jobs : list JobResult) (i : nat) (file : JobsFile) :
  ∃ appended,
    tracker.load (save_results jobId now i jobs file).2
    = tracker.load file ++ appended
    ∧ length appended = (save_results jobId now i jobs file).1
    ∧ ∀ j, j ∈ jobs →
        is_Some (tracker.get (jobId (jobUrl j)) (save_results jobId now i jobs file).2).
Proof.
  revert i file. induction jobs as [|j rest IH]; intros i file.
  - exists []. cbn. rewrite app_nil_r. split_and!; [done..|].
    by intros j ?%elem_of_nil.
  - cbn [save_results].
    destruct (IH (S i) (tracker.add jobId (now i) j file).2)
      as (appended & Hload & Hlen & Hall).
    destruct (save_results jobId now (S i) rest (tracker.add jobId (now i) j file).2)
      as [added final]. cbn [fst snd] in *.
    rewrite add_load in Hload.
    exists ((if bool_decide (is_Some (tracker.get (jobId (jobUrl j)) file))
             then [] else [(tracker.add jobId (now i) j file).1]) ++ appended).
    split_and!.
    + by rewrite Hload, app_assoc.
    + rewrite length_app, Hlen. by case_bool_decide.
    + intros j' [Heq|Hin]%elem_of_cons; [subst j'|by apply Hall].
      unfold tracker.get. rewrite Hload, <- add_load.
      apply find_app_is_Some.
      fold (tracker.get (jobId (jobUrl j)) (tracker.add jobId (now i) j file).2).
      by rewrite add_get.
Qed.

(** X28. The count that [search --save] reports is the growth of the
    tracker: the loop appends exactly that many records after the ones
    already tracked, which it leaves in place, at most one per result;
    and afterwards the id of every result is tracked. *)
Theorem save_results_count (jobId : string → string) (now : nat → string)
    (i : nat) (jobs : list JobResult) (file : JobsFile) :
  let saved := save_results jobId now i jobs file in
  length (tracker.load saved.2) = (length (tracker.load file) + saved.1)%nat
  ∧ (saved.1 ≤ length jobs)%nat
  ∧ (∃ appended, tracker.load saved.2 = tracker.load file ++ appended)
  ∧ (∀ j, j ∈ jobs → is_Some (tracker.get (jobId (jobUrl j)) saved.2)).
Proof.
  intros saved. unfold saved.
  destruct (save_results_spec jobId now jobs i file) as (appended & Hload & Hlen & Hall).
  split_and!.
  - by rewrite Hload, length_app, Hlen.
  - clear. revert i file. induction jobs as [|j rest IH]; intros i file; cbn; [done|].
    specialize (IH (S i) (tracker.add jobId (now i) j file).2).
    destruct (save_results jobId now (S i) rest (tracker.add jobId (now i) j file).2).
    cbn in *. case_match; lia.
  - by exists appended.
  - done.
Qed.

Lemma indexOf_Some (x : string) (args : list string) (i : nat) :
  indexOf x args = Some i →
  ∃ before after, args = before ++ x :: after ∧ (x ∉ before) ∧ length before = i.
Proof.
  revert i. induction args as [|a rest IH]; intros i; cbn; [done|].
  destruct (String.eqb a x) eqn:Ha.
  - apply String.eqb_eq in Ha as ->. intros [= <-].
    exists [], rest. split_and!; [done|apply not_elem_of_nil|done].
  - apply String.eqb_neq in Ha.
    destruct (indexOf x rest) as [k|]; [|done]. intros [= <-].
    destruct (IH k eq_refl) as (before & after & -> & Hnot & Hlen).
    exists (a :: before), after. split_and!; [done| |by cbn; rewrite Hlen].
    apply not_elem_of_cons. split; [congruence|done].
Qed.

Lemma indexOf_None (x : string) (args : list string) :
  indexOf x args = None → x ∉ args.
Proof.
  induction args as [|a rest IH]; cbn; [intros _; apply not_elem_of_nil|].
  destruct (String.eqb a x) eqn:Ha; [done|].
  apply String.eqb_neq in Ha.
  destruct (indexOf x rest); [done|]. intros _.
  apply not_elem_of_cons. split; [congruence|by apply IH].
Qed.

Lemma splice_middle (before middle after : list string) :
  splice (length before) (length middle) (before ++ middle ++ after)
  = before ++ after.
Proof.
  unfold splice. rewrite take_app_length. f_equal.
  rewrite drop_app_ge by lia.
  replace (length before + length middle - length before)%nat
    with (length middle) by lia.
  by rewrite drop_app_length.
Qed.

(** X29. [getOpt(name)] answers the argument that follows the first
    [--name] and takes both out of the arguments, leaving the others
    in order; when [--name] is absent, or is the last argument, it
    answers nothing and leaves the arguments as they are, so a
    trailing [--name] stays in them. *)
Theorem getOpt_consumes (name : string) (args : list string) :
  let flag := "--" +:+ name in
  match (getOpt name args).1 with
  | Some value =>
      ∃ before after,
        args = before ++ [flag; value] ++ after ∧ (flag ∉ before)
        ∧ (getOpt name args).2 = before ++ after
  | None =>
      (getOpt name args).2 = args
      ∧ (flag ∉ args ∨ ∃ before, args = before ++ [flag] ∧ flag ∉ before)
  end.
Proof.
  intros flag. unfold getOpt. fold flag.
  destruct (indexOf flag args) as [idx|] eqn:Hidx; cbn [fst snd].
  - apply indexOf_Some in Hidx as (before & after & -> & Hnot & <-).
    destruct after as [|value after].
    + rewrite (proj2 (Nat.ltb_ge _ _)) by (rewrite length_app; cbn; lia).
      cbn [fst snd]. split; [done|]. right. by exists before.
    + rewrite (proj2 (Nat.ltb_lt _ _)) by (rewrite length_app; cbn; lia).
      cbn [fst snd].
      replace ((before ++ flag :: value :: after) !! (length before + 1)%nat)
        with (Some value).
      2:{ rewrite lookup_app_r by lia.
          by replace (length before + 1 - length before)%nat with 1%nat by lia. }
      exists before, after. split_and!; [done..|].
      apply (splice_middle before [flag; value] after).
  - split; [done|]. left. by apply indexOf_None.
Qed.

(** X30. [getFlag(name)] answers true exactly when [--name] is among
    the arguments, and then takes its first occurrence out, leaving
    every other argument, a later [--name] included, in order; it
    answers false and leaves the arguments as they are otherwise. *)
Theorem getFlag_consumes (name : string) (args : list string) :
  let flag := "--" +:+ name in
  ((getFlag name args).1 = true ↔ flag ∈ args)
  ∧ ((getFlag name args).1 = true →
     ∃ before after,
       args = before ++ flag :: after ∧ (flag ∉ before)
       ∧ (getFlag name args).2 = before ++ after)
  ∧ ((getFlag name args).1 = false → (getFlag name args).2 = args).
Proof.
  intros flag. unfold getFlag. fold flag.
  destruct (indexOf flag args) as [idx|] eqn:Hidx; cbn.
  - apply indexOf_Some in Hidx as (before & after & -> & Hnot & <-).
    split_and!; [|intros _|done].
    + split; [intros _|done]. apply elem_of_app. right. by left.
    + exists before, after. split_and!; [done..|].
      apply (splice_middle before [flag] after).
  - apply indexOf_None in Hidx. split_and!; [|done..].
    split; [done|]. by intros ?.
Qed.
